(** * QuarterLang compiler pipeline: a shallow embedding and its properties

    The repository keeps several revisions of one compiler in a single
    translation unit.  Three of them carry the behaviour studied here:

    - the loop pipeline ([Module Minimal], lines 797-1048 of the unnamed
      source part 000): AST with [ASTLoop], lowering to a single
      [IRFunction] with a declared-type check, and the x86-64 text emitter;
      it has no executor for its IR, whose execution is modelled from the
      spec;
    - the function pipeline ([Module Quarterc], lines 2519-2808 of the same
      part): [istringstream] parser, lowering to an [IRProgram] with stack
      offsets, and the stack-based [IRInterpreter] with its debugger;
    - the module library ([Module Toolchain], lines 3517-3806 of the same
      part): lexer, library table and the integer built-ins.

    [Module Cxx] holds what they borrow from the C++ library: exceptions,
    [int], [std::stoi], [std::to_string] and the input stream. *)

From Stdlib Require Import ZArith Lia String Ascii List Bool.
From stdpp Require Import gmap strings list.

Open Scope string_scope.
Open Scope list_scope.
Open Scope Z_scope.

(* ===================================================================== *)
(** * The C++ library pieces the program relies on                        *)
(* ===================================================================== *)

Module Cxx.

(** Exceptions derived from [std::exception]; [what] is the message the
    driver prints after ["Error: "]. *)
Inductive exn : Type :=
| runtime_error (what : string)
| invalid_argument (what : string)
| out_of_range (what : string).

(** The result of running a piece of C++: a value, a thrown exception,
    undefined behaviour ([operator[]] out of bounds, [back()] of an empty
    container, signed overflow, a wrong [static_cast]), a call of [exit], or
    a model that ran out of fuel. *)
Inductive outcome (A : Type) : Type :=
| Ok (a : A)
| Throw (e : exn)
| Undefined
| Exit (status : Z) (stderr : string)
| OutOfFuel.

Arguments Ok {A} a.
Arguments Throw {A} e.
Arguments Undefined {A}.
Arguments Exit {A} status stderr.
Arguments OutOfFuel {A}.

#[global] Instance outcome_ret : MRet outcome := fun A a => Ok a.
#[global] Instance outcome_bind : MBind outcome := fun A B f m =>
  match m with
  | Ok a => f a
  | Throw e => Throw e
  | Undefined => Undefined
  | Exit c msg => Exit c msg
  | OutOfFuel => OutOfFuel
  end.

(** [v[i]] on a [std::vector]: undefined out of bounds. *)
Definition at_index {A} (v : list A) (i : nat) : outcome A :=
  match v !! i with
  | Some a => Ok a
  | None => Undefined
  end.

(** ** [int] *)

Definition INT_MIN : Z := - 2 ^ 31.
Definition INT_MAX : Z := 2 ^ 31 - 1.

Definition in_int (z : Z) : bool := (INT_MIN <=? z) && (z <=? INT_MAX).

(** [a + b] on [int]: signed overflow is undefined. *)
Definition int_add (a b : Z) : outcome Z :=
  if in_int (a + b) then Ok (a + b) else Undefined.

(** ** Character classes of <cctype> in the "C" locale *)

Definition code (c : ascii) : Z := Z.of_nat (nat_of_ascii c).

Definition isspace (c : ascii) : bool :=
  (code c =? 32) || ((9 <=? code c) && (code c <=? 13)).

Definition isdigit (c : ascii) : bool :=
  (48 <=? code c) && (code c <=? 57).

Definition isalpha (c : ascii) : bool :=
  ((65 <=? code c) && (code c <=? 90)) || ((97 <=? code c) && (code c <=? 122)).

(** [s[0]] on a [std::string]: the terminating NUL when [s] is empty. *)
Definition front0 (s : string) : ascii :=
  match s with
  | EmptyString => "000"%char
  | String c _ => c
  end.

(** ** [std::stoi] (base 10)

    [strtol] skips leading white space, takes an optional sign and the
    longest run of decimal digits, and ignores what follows.  No digit:
    [std::invalid_argument]; a value that does not fit [int]:
    [std::out_of_range].  Both carry the message ["stoi"]. *)

Fixpoint skip_space (s : string) : string :=
  match s with
  | String c s' => if isspace c then skip_space s' else s
  | EmptyString => s
  end.

Fixpoint digits_value (acc : Z) (s : string) : Z :=
  match s with
  | String c s' =>
      if isdigit c then digits_value (10 * acc + (code c - 48)) s' else acc
  | EmptyString => acc
  end.

Definition stoi (str : string) : outcome Z :=
  let s := skip_space str in
  let '(negative, body) :=
    match s with
    | String "-" r => (true, r)
    | String "+" r => (false, r)
    | _ => (false, s)
    end in
  if isdigit (front0 body) then
    let v := digits_value 0 body in
    let v := if negative then - v else v in
    if in_int v then Ok v else Throw (out_of_range "stoi")
  else Throw (invalid_argument "stoi").

(** ** [std::to_string(int)]: the decimal text, ['-'] first when negative.
    An [int] has at most ten decimal digits. *)

Definition digit_char (d : Z) : ascii := ascii_of_nat (Z.to_nat (48 + d)).

Fixpoint to_digits (fuel : nat) (n : Z) (acc : string) : string :=
  match fuel with
  | O => acc
  | S fuel' =>
      let acc' := String (digit_char (n mod 10)) acc in
      if n / 10 =? 0 then acc' else to_digits fuel' (n / 10) acc'
  end.

Definition to_string (n : Z) : string :=
  if n <? 0 then String "-" (to_digits 10 (- n) "") else to_digits 10 n "".

(** ** [std::istringstream]

    The stream is what is left of the text and two state bits ([badbit] is
    never set on a string buffer).  A position handed out by [tellg] is the
    text left at that moment.  Each operation follows the C++ standard's
    description of formatted and unformatted input: it first builds a
    sentry, which fails (and sets [failbit]) on a stream that is not
    [good]; hitting the end of the text sets [eofbit]. *)

Record istream : Type := { buf : string; eofbit : bool; failbit : bool }.

Definition istringstream (src : string) : istream :=
  {| buf := src; eofbit := false; failbit := false |}.

Definition good (s : istream) : bool := negb (eofbit s) && negb (failbit s).

(** [operator bool]: [!fail()]. *)
Definition ok (s : istream) : bool := negb (failbit s).

Definition setfail (s : istream) : istream :=
  {| buf := buf s; eofbit := eofbit s; failbit := true |}.

(** The sentry of an unformatted input function ([noskipws]): a stream that
    is not [good] gets [failbit]. *)
Definition sentry_raw (s : istream) : bool * istream :=
  if good s then (true, s) else (false, setfail s).

(** The sentry of a formatted input function: skips white space first, and
    sets [eofbit] and [failbit] when nothing else is left. *)
Definition sentry (s : istream) : bool * istream :=
  if good s then
    match skip_space (buf s) with
    | EmptyString => (false, {| buf := ""; eofbit := true; failbit := true |})
    | r => (true, {| buf := r; eofbit := false; failbit := false |})
    end
  else (false, setfail s).

(** The characters up to the next white space, and what follows them. *)
Fixpoint take_word (s : string) : string * string :=
  match s with
  | EmptyString => ("", "")
  | String c s' =>
      if isspace c then ("", s)
      else let '(w, r) := take_word s' in (String c w, r)
  end.

Definition is_empty (s : string) : bool :=
  match s with EmptyString => true | _ => false end.

(** [in >> str]: [str] keeps its old value when the sentry fails. *)
Definition read_string (str : string) (s : istream) : string * istream :=
  let '(go, s1) := sentry s in
  if go then
    let '(w, r) := take_word (buf s1) in
    (w, {| buf := r; eofbit := is_empty r; failbit := false |})
  else (str, s1).

(** [in >> ch] *)
Definition read_char (s : istream) : option ascii * istream :=
  let '(go, s1) := sentry s in
  if go then
    match buf s1 with
    | String c r => (Some c, {| buf := r; eofbit := false; failbit := false |})
    | EmptyString => (None, s1)
    end
  else (None, s1).

(** [in.peek()]: [None] is [traits::eof()]. *)
Definition peek (s : istream) : option ascii * istream :=
  let '(go, s1) := sentry_raw s in
  if go then
    match buf s1 with
    | String c _ => (Some c, s1)
    | EmptyString => (None, {| buf := ""; eofbit := true; failbit := false |})
    end
  else (None, s1).

(** [in.ignore(1)] *)
Definition ignore1 (s : istream) : istream :=
  let '(go, s1) := sentry_raw s in
  if go then
    match buf s1 with
    | String _ r => {| buf := r; eofbit := false; failbit := false |}
    | EmptyString => {| buf := ""; eofbit := true; failbit := false |}
    end
  else s1.

(** [in >> std::ws]: an unformatted input function; reaching the end sets
    [eofbit] only. *)
Definition ws (s : istream) : istream :=
  let '(go, s1) := sentry_raw s in
  if go then
    let r := skip_space (buf s1) in
    {| buf := r; eofbit := is_empty r; failbit := false |}
  else s1.

(** [in.tellg()]: [None] is [pos_type(-1)]. *)
Definition tellg (s : istream) : option string * istream :=
  let '(go, s1) := sentry_raw s in
  if go then (Some (buf s1), s1) else (None, s1).

(** [in.seekg(pos)]: clears [eofbit] first. *)
Definition seekg (pos : option string) (s : istream) : istream :=
  let s0 := {| buf := buf s; eofbit := false; failbit := failbit s |} in
  let '(go, s1) := sentry_raw s0 in
  if go then
    match pos with
    | Some r => {| buf := r; eofbit := false; failbit := false |}
    | None => setfail s1
    end
  else s1.

(** What is left to read: nothing once [failbit] is set, since every
    operation of a failed stream fails. *)
Definition remaining (s : istream) : nat :=
  if failbit s then O else S (String.length (buf s)).

(** [s'] is no further from the end than [s], and nearer unless [s] had
    failed already. *)
Definition advances (s s' : istream) : Prop :=
  (remaining s' <= remaining s)%nat /\
  (remaining s = O \/ (remaining s' < remaining s)%nat).

(** [str.back()] and [str.pop_back()]; [back] has no value, and both are
    undefined, on an empty string. *)
Fixpoint str_back (s : string) : option ascii :=
  match s with
  | EmptyString => None
  | String c EmptyString => Some c
  | String _ s' => str_back s'
  end.

Fixpoint str_pop_back (s : string) : string :=
  match s with
  | EmptyString => EmptyString
  | String c EmptyString => EmptyString
  | String c s' => String c (str_pop_back s')
  end.

(** [ex.what()] *)
Definition what (e : exn) : string :=
  match e with
  | runtime_error w | invalid_argument w | out_of_range w => w
  end.

Definition isalnum (c : ascii) : bool := isalpha c || isdigit c.

(** A result of [int] arithmetic: undefined when it does not fit. *)
Definition int_result (z : Z) : outcome Z := if in_int z then Ok z else Undefined.

(** A stream in order, with [eofbit] set only at the end of the text. *)
Definition in_order (s : istream) : Prop :=
  failbit s = false /\ (eofbit s = true -> buf s = "").

(** The words of a text, as [in >> token] reads them one after the other:
    its runs of characters other than white space. *)
Fixpoint words_within (fuel : nat) (text : string) : list string :=
  match fuel with
  | O => []
  | S fuel' =>
      match skip_space text with
      | EmptyString => []
      | r => let '(w, rest) := take_word r in w :: words_within fuel' rest
      end
  end.

Definition words (text : string) : list string :=
  words_within (S (String.length text)) text.

(** A stream that has failed, or stands at white space or at the end of
    the text: where reading a word leaves it. *)
Definition at_gap (s : istream) : Prop :=
  failbit s = true
  \/ match buf s with
     | EmptyString => True
     | String c _ => isspace c = true
     end.

(** The words still to be read from a stream: none once it has failed. *)
Definition pending (s : istream) : list string :=
  if failbit s then [] else words (buf s).

End Cxx.

Import Cxx.

(* ===================================================================== *)
(** * The function pipeline: AST, lowering, interpreter                   *)
(* ===================================================================== *)

Module Quarterc.

(** ** AST.  Every node derives from [ASTExpr]; statements, initializers
    and call arguments are [unique_ptr<ASTExpr>], so any node may stand
    anywhere and an initializer may be null. *)
#[local] Unset Elimination Schemes.
Inductive ASTExpr : Type :=
| ASTLiteral (value : string)
| ASTVar (name : string)
| ASTBinary (lhs op rhs : string)
| ASTValDecl (name type : string) (init : option ASTExpr)
| ASTCall (funcName : string) (args : list ASTExpr)
| ASTFunction (name : string) (params : list string) (body : list ASTExpr).
#[local] Set Elimination Schemes.

(** [ast_functions] is [ASTProgram::functions]: name to the function node
    that [statements] owns. *)
Record ASTProgram : Type := {
  statements : list ASTExpr;
  ast_functions : gmap string ASTExpr
}.

(** ** Parser (lines 2534-2601)

    Recursive descent over an [istringstream].  [fuel] bounds the nesting
    of calls and the iterations of each loop; [parse] supplies enough of it
    for the whole text. *)

Definition is_operator (op : string) : bool :=
  bool_decide (op = "+") || bool_decide (op = "-") ||
  bool_decide (op = "*") || bool_decide (op = "/").

Definition is_char (c : ascii) (o : option ascii) : bool :=
  bool_decide (o = Some c).

Fixpoint parseExpr (fuel : nat) (s : istream) {struct fuel}
  : outcome (ASTExpr * istream) :=
  match fuel with
  | O => OutOfFuel
  | S fuel' =>
      let '(token, s) := read_string "" s in
      if isdigit (front0 token) then Ok (ASTLiteral token, s)
      else if isalpha (front0 token) then
        let '(c, s) := peek s in
        if is_char "(" c then
          r ← parseCall_args fuel' (snd (read_char s)) [];
          Ok (ASTCall token (fst r), ignore1 (snd r))
        else
          let '(oldpos, s) := tellg s in
          let '(op, s) := read_string "" s in
          if ok s then
            if is_operator op then
              let '(rhs, s) := read_string "" s in
              Ok (ASTBinary token op rhs, s)
            else Ok (ASTVar token, seekg oldpos s)
          else Ok (ASTVar token, s)
      else Ok (ASTLiteral token, s)
  end

(** The argument loop of [parseCall]:
    [while (in.peek() != ')' && in >> std::ws) { ... }] *)
with parseCall_args (fuel : nat) (s : istream) (acc : list ASTExpr) {struct fuel}
  : outcome (list ASTExpr * istream) :=
  match fuel with
  | O => OutOfFuel
  | S fuel' =>
      let '(c, s) := peek s in
      if is_char ")" c then Ok (acc, s)
      else
        let s := ws s in
        if ok s then
          r ← parseExpr fuel' s;
          let '(c, s) := peek (snd r) in
          let s := if is_char "," c then ignore1 s else s in
          parseCall_args fuel' s (acc ++ [fst r])
        else Ok (acc, s)
  end.

Definition parseCall (fuel : nat) (funcName : string) (s : istream)
  : outcome (ASTExpr * istream) :=
  r ← parseCall_args fuel (snd (read_char s)) [];
  Ok (ASTCall funcName (fst r), ignore1 (snd r)).

(** [in >> decl->name; in.ignore(1); in >> decl->type; in.ignore(1);
     decl->init = parseExpr(in);] *)
Definition parseValDecl (fuel : nat) (s : istream) : outcome (ASTExpr * istream) :=
  let '(name, s) := read_string "" s in
  let s := ignore1 s in
  let '(type, s) := read_string "" s in
  let s := ignore1 s in
  r ← parseExpr fuel s;
  Ok (ASTValDecl name type (Some (fst r)), snd r).

(** The parameter loop of [parseFunction]; [param] is the local that every
    [in >> param] writes into. *)
Fixpoint parseFunction_params (fuel : nat) (s : istream) (param : string)
    (acc : list string) {struct fuel} : outcome (list string * istream) :=
  match fuel with
  | O => OutOfFuel
  | S fuel' =>
      let '(c, s) := peek s in
      if is_char ")" c then Ok (acc, s)
      else
        let s := ws s in
        if ok s then
          let '(param, s) := read_string param s in
          match str_back param with
          | None => Undefined
          | Some c =>
              let param := if bool_decide (c = ","%char) then str_pop_back param else param in
              parseFunction_params fuel' s param (acc ++ [param])
          end
        else Ok (acc, s)
  end.

(** The body loop of [parseFunction]:
    [while (in >> token && token != "}") { ... }] *)
Fixpoint parseFunction_body (fuel : nat) (s : istream) (token : string)
    (acc : list ASTExpr) {struct fuel} : outcome (list ASTExpr * istream) :=
  match fuel with
  | O => OutOfFuel
  | S fuel' =>
      let '(token, s) := read_string token s in
      if ok s && negb (bool_decide (token = "}")) then
        if bool_decide (token = "val") then
          r ← parseValDecl fuel' s;
          parseFunction_body fuel' (snd r) token (acc ++ [fst r])
        else if bool_decide (token = "call") then
          let '(fname, s) := read_string "" s in
          r ← parseCall fuel' fname s;
          parseFunction_body fuel' (snd r) token (acc ++ [fst r])
        else parseFunction_body fuel' s token acc
      else Ok (acc, s)
  end.

Definition parseFunction (fuel : nat) (s : istream) : outcome (ASTExpr * istream) :=
  let '(name, s) := read_string "" s in
  let '(param, s) := read_string "" s in
  ps ← parseFunction_params fuel s param [];
  let s := ignore1 (snd ps) in
  let '(brace, s) := read_string "" s in
  b ← parseFunction_body fuel s "" [];
  Ok (ASTFunction name (fst ps) (fst b), snd b).

Definition function_name (e : ASTExpr) : string :=
  match e with
  | ASTFunction name _ _ => name
  | _ => ""
  end.

(** The loop of [parse]: [while (in >> token) { ... }] *)
Fixpoint parse_statements (fuel : nat) (s : istream) (token : string)
    (program : ASTProgram) {struct fuel} : outcome ASTProgram :=
  match fuel with
  | O => OutOfFuel
  | S fuel' =>
      let '(token, s) := read_string token s in
      if ok s then
        if bool_decide (token = "val") then
          r ← parseValDecl fuel' s;
          parse_statements fuel' (snd r) token
            {| statements := statements program ++ [fst r];
               ast_functions := ast_functions program |}
        else if bool_decide (token = "func") then
          r ← parseFunction fuel' s;
          parse_statements fuel' (snd r) token
            {| statements := statements program ++ [fst r];
               ast_functions := <[function_name (fst r) := fst r]> (ast_functions program) |}
        else if bool_decide (token = "call") then
          let '(fname, s) := read_string "" s in
          r ← parseCall fuel' fname s;
          parse_statements fuel' (snd r) token
            {| statements := statements program ++ [fst r];
               ast_functions := ast_functions program |}
        else parse_statements fuel' s token program
      else Ok program
  end.

Definition parse_fuel (src : string) : nat := 2 * String.length src + 4.

Definition parse (src : string) : outcome ASTProgram :=
  parse_statements (parse_fuel src) (istringstream src) ""
    {| statements := []; ast_functions := ∅ |}.

(** A part of the parser came back with no more text left than [bound],
    or ran into undefined behaviour; it neither threw nor ran short of
    fuel. *)
Definition returns_within {A} (bound : nat) (r : outcome (A * istream)) : Prop :=
  match r with
  | Ok (_, s') => (remaining s' <= bound)%nat
  | Undefined => True
  | _ => False
  end.

(** [parse] came back with a program or ran into undefined behaviour. *)
Definition settles (r : outcome ASTProgram) : Prop :=
  match r with
  | Ok _ | Undefined => True
  | _ => False
  end.

(** ** IR (lines 2606-2615) *)
Inductive IROp : Type := Alloc | Store | Load | Add | Call | Ret | Print.

Record IRInstr : Type := { op : IROp; args : list string }.

Record BasicBlock : Type := { bb_name : string; instrs : list IRInstr }.

Record IRFunction : Type := {
  fn_name : string;
  params : list string;
  blocks : list BasicBlock;
  varOffsets : gmap string Z;
  stackSize : Z
}.

Record IRProgram : Type := { functions : gmap string IRFunction }.

(** ** Lowering (lines 2617-2679) *)

Definition allocateVar (fn : IRFunction) (name : string) : Z * IRFunction :=
  let ofs := stackSize fn in
  (ofs, {| fn_name := fn_name fn; params := params fn; blocks := blocks fn;
           varOffsets := <[name := ofs]> (varOffsets fn);
           stackSize := ofs + 1 |}).

(** [for (const auto& p : irFunc.params) irFunc.varOffsets[p] = argIdx++;] *)
Fixpoint param_offsets (ps : list string) (argIdx : Z) (m : gmap string Z)
  : gmap string Z * Z :=
  match ps with
  | [] => (m, argIdx)
  | p :: ps' => param_offsets ps' (argIdx + 1) (<[p := argIdx]> m)
  end.

(** The operand list of a lowered call: literals and variables only. *)
Fixpoint call_operands (a : list ASTExpr) : list string :=
  match a with
  | [] => []
  | ASTLiteral v :: a' => v :: call_operands a'
  | ASTVar n :: a' => n :: call_operands a'
  | _ :: a' => call_operands a'
  end.

(** One statement of a function body: the function under construction and
    the instructions of its entry block so far. *)
Definition lowerFunction_stmt (acc : IRFunction * list IRInstr) (stmt : ASTExpr)
  : IRFunction * list IRInstr :=
  let '(irFunc, entry) := acc in
  match stmt with
  | ASTValDecl name _ init =>
      let '(ofs, irFunc) := allocateVar irFunc name in
      let entry := entry ++ [ {| op := Alloc; args := [name; to_string ofs] |} ] in
      match init with
      | Some (ASTLiteral value) =>
          (irFunc, entry ++ [ {| op := Store; args := [name; value] |} ])
      | Some (ASTVar var) =>
          (irFunc, entry ++ [ {| op := Store; args := [name; var] |} ])
      | Some (ASTBinary lhs _ rhs) =>
          (irFunc, entry ++ [ {| op := Add; args := [name; lhs; rhs] |} ])
      | _ => (irFunc, entry)
      end
  | ASTCall funcName a =>
      (irFunc, entry ++ [ {| op := Call; args := funcName :: call_operands a |} ])
  | _ => acc
  end.

Definition lowerFunction (name : string) (ps : list string) (body : list ASTExpr)
    (irprog : IRProgram) : IRProgram :=
  let '(offsets, argIdx) := param_offsets ps 0 ∅ in
  let irFunc := {| fn_name := name; params := ps; blocks := [];
                   varOffsets := offsets; stackSize := argIdx |} in
  let '(irFunc, entry) := fold_left lowerFunction_stmt body (irFunc, []) in
  let irFunc := {| fn_name := fn_name irFunc; params := params irFunc;
                   blocks := blocks irFunc ++
                             [ {| bb_name := name +:+ "_entry"; instrs := entry |} ];
                   varOffsets := varOffsets irFunc;
                   stackSize := stackSize irFunc |} in
  {| functions := <[name := irFunc]> (functions irprog) |}.

(** One top-level statement lowered into [_main]. *)
Definition lower_stmt (acc : IRFunction * list IRInstr) (stmt : ASTExpr)
  : IRFunction * list IRInstr :=
  let '(mainFn, entry) := acc in
  match stmt with
  | ASTFunction _ _ _ => acc
  | ASTValDecl name _ init =>
      let '(ofs, mainFn) := allocateVar mainFn name in
      let entry := entry ++ [ {| op := Alloc; args := [name; to_string ofs] |} ] in
      match init with
      | Some (ASTLiteral value) =>
          (mainFn, entry ++ [ {| op := Store; args := [name; value] |} ])
      | _ => (mainFn, entry)
      end
  | ASTCall funcName a =>
      (mainFn, entry ++ [ {| op := Call; args := funcName :: call_operands a |} ])
  | _ => acc
  end.

Definition lower_functions (irprog : IRProgram) (stmt : ASTExpr) : IRProgram :=
  match stmt with
  | ASTFunction name ps body => lowerFunction name ps body irprog
  | _ => irprog
  end.

Definition lower (program : ASTProgram) : IRProgram :=
  let irprog := fold_left lower_functions (statements program) {| functions := ∅ |} in
  let mainFn := {| fn_name := "_main"; params := []; blocks := [];
                   varOffsets := ∅; stackSize := 0 |} in
  let '(mainFn, entry) := fold_left lower_stmt (statements program) (mainFn, []) in
  let mainFn := {| fn_name := fn_name mainFn; params := params mainFn;
                   blocks := blocks mainFn ++ [ {| bb_name := "entry"; instrs := entry |} ];
                   varOffsets := varOffsets mainFn;
                   stackSize := stackSize mainFn |} in
  {| functions := <["_main" := mainFn]> (functions irprog) |}.

(** ** Interpreter (lines 2684-2735) *)

Record StackFrame : Type := { vars : gmap string Z; retAddr : Z }.

(** The interpreter's mutable state: [callStack] (a vector, the current
    frame at the back) and what it has written to [std::cout], one number
    per line. *)
Record IRInterpreter : Type := { callStack : list StackFrame; cout : list Z }.

Definition push_back (frame : StackFrame) (st : IRInterpreter) : IRInterpreter :=
  {| callStack := callStack st ++ [frame]; cout := cout st |}.

Definition pop_back (st : IRInterpreter) : outcome IRInterpreter :=
  match callStack st with
  | [] => Undefined
  | _ => Ok {| callStack := removelast (callStack st); cout := cout st |}
  end.

(** [callStack.back().vars[name] = v] *)
Definition assign (name : string) (v : Z) (st : IRInterpreter) : outcome IRInterpreter :=
  match last (callStack st) with
  | None => Undefined
  | Some fr =>
      Ok {| callStack := removelast (callStack st) ++
                         [ {| vars := <[name := v]> (vars fr); retAddr := retAddr fr |} ];
            cout := cout st |}
  end.

(** The first frame of [frames] that binds [name]. *)
Fixpoint find_binding (frames : list StackFrame) (name : string) : option Z :=
  match frames with
  | [] => None
  | fr :: older =>
      match vars fr !! name with
      | Some v => Some v
      | None => find_binding older name
      end
  end.

(** [for (it = callStack.rbegin(); it != callStack.rend(); ++it) ...;
     return std::stoi(name);] *)
Definition valueOf (st : IRInterpreter) (name : string) : outcome Z :=
  match find_binding (rev (callStack st)) name with
  | Some v => Ok v
  | None => stoi name
  end.

Fixpoint valuesOf (st : IRInterpreter) (names : list string) : outcome (list Z) :=
  match names with
  | [] => Ok []
  | n :: names' =>
      v ← valueOf st n;
      vs ← valuesOf st names';
      Ok (v :: vs)
  end.

Section Step.

(** [call] as seen from [step]: the recursion is tied in [call] below. *)
Variable call : string -> list Z -> IRInterpreter -> outcome (Z * IRInterpreter).

Definition step (instr : IRInstr) (st : IRInterpreter) : outcome IRInterpreter :=
  match op instr with
  | Alloc =>
      a0 ← at_index (args instr) 0;
      assign a0 0 st
  | Store =>
      a1 ← at_index (args instr) 1;
      v ← stoi a1;
      a0 ← at_index (args instr) 0;
      assign a0 v st
  | Add =>
      a1 ← at_index (args instr) 1;
      v1 ← valueOf st a1;
      a2 ← at_index (args instr) 2;
      v2 ← valueOf st a2;
      sum ← int_add v1 v2;
      a0 ← at_index (args instr) 0;
      assign a0 sum st
  | Call =>
      actual ← valuesOf st (tail (args instr));
      a0 ← at_index (args instr) 0;
      if decide (a0 = "say")
      then Ok {| callStack := callStack st; cout := cout st ++ actual |}
      else r ← call a0 actual st; Ok (snd r)
  | _ => Ok st
  end.

Fixpoint exec_instrs (ins : list IRInstr) (st : IRInterpreter) : outcome IRInterpreter :=
  match ins with
  | [] => Ok st
  | instr :: ins' => st' ← step instr st; exec_instrs ins' st'
  end.

Fixpoint exec_blocks (bs : list BasicBlock) (st : IRInterpreter) : outcome IRInterpreter :=
  match bs with
  | [] => Ok st
  | block :: bs' => st' ← exec_instrs (instrs block) st; exec_blocks bs' st'
  end.

Definition execFunc (fn : IRFunction) (st : IRInterpreter) : outcome (Z * IRInterpreter) :=
  st' ← exec_blocks (blocks fn) st;
  Ok (0, st').

End Step.

(** [for (const auto& p : params) frame.vars[p] = args[idx++];] *)
Fixpoint bind_params (ps : list string) (actual : list Z) (idx : nat) (frame : StackFrame)
  : outcome StackFrame :=
  match ps with
  | [] => Ok frame
  | p :: ps' =>
      v ← at_index actual idx;
      bind_params ps' actual (S idx)
        {| vars := <[p := v]> (vars frame); retAddr := retAddr frame |}
  end.

Definition new_frame : StackFrame := {| vars := ∅; retAddr := -1 |}.

(** [IRInterpreter::call].  [fuel] bounds the depth of nested calls. *)
Fixpoint call (prog : IRProgram) (fuel : nat) (name : string) (actual : list Z)
    (st : IRInterpreter) {struct fuel} : outcome (Z * IRInterpreter) :=
  match functions prog !! name with
  | None => Throw (runtime_error ("No such function: " +:+ name))
  | Some fn =>
      match fuel with
      | O => OutOfFuel
      | S fuel' =>
          frame ← bind_params (params fn) actual 0 new_frame;
          r ← execFunc (call prog fuel') fn (push_back frame st);
          st' ← pop_back (snd r);
          Ok (fst r, st')
      end
  end.

(** [call] up to, and without, its closing [callStack.pop_back()]: the
    callee's frame is still at the back of the state it returns. *)
Definition call_frame (prog : IRProgram) (fuel : nat) (name : string) (actual : list Z)
    (st : IRInterpreter) : outcome (Z * IRInterpreter) :=
  match functions prog !! name with
  | None => Throw (runtime_error ("No such function: " +:+ name))
  | Some fn =>
      match fuel with
      | O => OutOfFuel
      | S fuel' =>
          frame ← bind_params (params fn) actual 0 new_frame;
          execFunc (call prog fuel') fn (push_back frame st)
      end
  end.

(** A fresh interpreter: [IRInterpreter interp(irprog)]. *)
Definition interp0 : IRInterpreter := {| callStack := []; cout := [] |}.

Definition execMain (prog : IRProgram) (fuel : nat) : outcome (Z * IRInterpreter) :=
  call prog fuel "_main" [] interp0.

(** [st] is the stack [below] with exactly one more frame at its back. *)
Definition one_frame_above (below : list StackFrame) (st : IRInterpreter) : Prop :=
  exists frame, callStack st = below ++ [frame].

(** The names that the [Alloc] instructions of [ins] give a slot, in
    order, and the slot texts those instructions carry. *)
Fixpoint alloc_names (ins : list IRInstr) : list string :=
  match ins with
  | [] => []
  | {| op := Alloc; args := name :: _ |} :: ins' => name :: alloc_names ins'
  | _ :: ins' => alloc_names ins'
  end.

Fixpoint alloc_slots (ins : list IRInstr) : list string :=
  match ins with
  | [] => []
  | {| op := Alloc; args := _ :: slot :: _ |} :: ins' => slot :: alloc_slots ins'
  | _ :: ins' => alloc_slots ins'
  end.

Definition all_instrs (fn : IRFunction) : list IRInstr :=
  concat (map instrs (blocks fn)).

(** Parameters in order, then locals in declaration order. *)
Definition slot_names (fn : IRFunction) : list string :=
  params fn ++ alloc_names (all_instrs fn).

(** [m] sends every name of [names] to the index of its last occurrence,
    and binds nothing else. *)
Definition slots_of (names : list string) (m : gmap string Z) : Prop :=
  (forall i x, names !! i = Some x -> x ∉ drop (S i) names ->
               m !! x = Some (Z.of_nat i))
  /\ (forall x, x ∉ names -> m !! x = None).

(** The stack layout of an IR function: slots [0, 1, 2, ...] go to the
    parameters and then to the locals, [stackSize] counts them, and each
    [Alloc] carries the slot it was given. *)
Definition laid_out (fn : IRFunction) : Prop :=
  slots_of (slot_names fn) (varOffsets fn)
  /\ stackSize fn = Z.of_nat (length (slot_names fn))
  /\ alloc_slots (all_instrs fn) =
       map (fun j => to_string (Z.of_nat (length (params fn) + j)))
           (seq 0 (length (alloc_names (all_instrs fn)))).

(** The function under construction and its entry block, while the body
    is being lowered. *)
Definition building (ps : list string) (acc : IRFunction * list IRInstr) : Prop :=
  let '(fn, entry) := acc in
  params fn = ps /\ blocks fn = []
  /\ slots_of (ps ++ alloc_names entry) (varOffsets fn)
  /\ stackSize fn = Z.of_nat (length (ps ++ alloc_names entry))
  /\ alloc_slots entry =
       map (fun j => to_string (Z.of_nat (length ps + j)))
           (seq 0 (length (alloc_names entry))).

(** A program built node by node, as the unit test of the lowering does:
    [ASTProgram program; program.statements.push_back(...)]. *)
Definition program_of (stmts : list ASTExpr) : ASTProgram :=
  {| statements := stmts; ast_functions := ∅ |}.

(** [val x as int: n], the literal written in decimal. *)
Definition int_decl (x : string) (n : Z) : ASTExpr :=
  ASTValDecl x "int" (Some (ASTLiteral (to_string n))).


(** ** Debugger (lines 2736-2754) *)

(** [(int)instr.op] *)
Definition op_number (o : IROp) : Z :=
  match o with
  | Alloc => 0 | Store => 1 | Load => 2 | Add => 3 | Call => 4 | Ret => 5 | Print => 6
  end.

(** What the debugger itself writes to [std::cout]; the numbers that [say]
    prints in between are in [cout] of the interpreter. *)
Inductive Shown : Type :=
| Banner                                        (* Debugger (Enter=step, v=vars, q=quit): *)
| Prompt (number : Z) (operands : list string)  (* [step] n: a b c, then the prompt *)
| Vars (frame : gmap string Z).                 (* name=value, one line per binding *)

(** [std::string cmd; std::getline(std::cin, cmd);] on the lines left of
    the input: the empty string once they are used up. *)
Definition getline (cin : list string) : string * list string :=
  match cin with
  | [] => ("", [])
  | line :: rest => (line, rest)
  end.

Section Debug.

Variable call_rec : string -> list Z -> IRInterpreter -> outcome (Z * IRInterpreter).

(** The two nested loops over the blocks and their instructions; [true]
    when they were left by the [return] of the command [q]. *)
Fixpoint debug_instrs (ins : list IRInstr) (cin : list string) (st : IRInterpreter)
    (shown : list Shown) : outcome (bool * IRInterpreter * list Shown) :=
  match ins with
  | [] => Ok (false, st, shown)
  | instr :: ins' =>
      let shown := shown ++ [Prompt (op_number (op instr)) (args instr)] in
      let '(cmd, cin) := getline cin in
      if bool_decide (cmd = "q") then Ok (true, st, shown)
      else if bool_decide (cmd = "v") then
        match last (callStack st) with
        | None => Undefined
        | Some frame => debug_instrs ins' cin st (shown ++ [Vars (vars frame)])
        end
      else st' ← step call_rec instr st; debug_instrs ins' cin st' shown
  end.

End Debug.

(** [IRInterpreter::debugMain], on the lines [cin] of the input: the
    interpreter it leaves and what it has shown.  The frame it pushed is
    popped only when the loops run to their end. *)
Definition debugMain (prog : IRProgram) (fuel : nat) (cin : list string)
    (st : IRInterpreter) : outcome (IRInterpreter * list Shown) :=
  match functions prog !! "_main" with
  | None => Throw (runtime_error "No _main")
  | Some fn =>
      r ← debug_instrs (call prog fuel) (all_instrs fn) cin
            (push_back new_frame st) [Banner];
      let '(quit, st, shown) := r in
      if quit : bool then Ok (st, shown)
      else st' ← pop_back st; Ok (st', shown)
  end.

(** The instructions that the debugger executes when it is never told to
    quit: all but those answered with [v]. *)
Fixpoint executed (ins : list IRInstr) (cin : list string) : list IRInstr :=
  match ins with
  | [] => []
  | instr :: ins' =>
      let '(cmd, cin) := getline cin in
      if bool_decide (cmd = "v") then executed ins' cin else instr :: executed ins' cin
  end.

(** ** Shape of lowered code *)

(** The operands that [step] reads of an instruction, by opcode. *)
Definition operands_read (o : IROp) : nat :=
  match o with
  | Alloc => 1
  | Store => 2
  | Add => 3
  | Call => 1
  | Load | Ret | Print => 0
  end.

(** An instruction that lowering can emit, with the operands [step] reads. *)
Definition lowered_instr (instr : IRInstr) : Prop :=
  op instr ∈ [Alloc; Store; Add; Call]
  /\ (operands_read (op instr) <= length (args instr))%nat.

(** The name of the only block of the lowered function [name]. *)
Definition entry_name (name : string) : string :=
  if bool_decide (name = "_main") then "entry" else name +:+ "_entry".

(** A function as [lowerFunction] leaves it in the program. *)
Definition entry_of (name : string) (fn : IRFunction) : Prop :=
  fn_name fn = name
  /\ exists entry,
       blocks fn = [ {| bb_name := name +:+ "_entry"; instrs := entry |} ]
       /\ Forall lowered_instr entry.

(** The function [name] under construction and its entry block. *)
Definition accumulating (name : string) (ps : list string)
    (acc : IRFunction * list IRInstr) : Prop :=
  fn_name (fst acc) = name /\ params (fst acc) = ps /\ blocks (fst acc) = []
  /\ Forall lowered_instr (snd acc).

(** [_main] under construction: the top level emits no [Add]. *)
Definition accumulating_main (acc : IRFunction * list IRInstr) : Prop :=
  accumulating "_main" [] acc /\ Forall (fun instr => op instr <> Add) (snd acc).

(** ** Exceptions *)

(** The exceptions of the interpreter: the two of [std::stoi], and the one
    of [call] for a name that [prog] does not define. *)
Definition raised_by (prog : IRProgram) (e : exn) : Prop :=
  e = invalid_argument "stoi" \/ e = out_of_range "stoi"
  \/ exists name, functions prog !! name = None
                  /\ e = runtime_error ("No such function: " +:+ name).

(** Neither an exception from elsewhere nor a call of [exit]. *)
Definition raises_only {A} (prog : IRProgram) (r : outcome A) : Prop :=
  match r with
  | Throw e => raised_by prog e
  | Exit _ _ => False
  | _ => True
  end.

(** ** Shape of parsed programs *)

(** A statement other than a call with arguments. *)
Definition without_arguments (stmt : ASTExpr) : Prop :=
  match stmt with
  | ASTCall _ (_ :: _) => False
  | _ => True
  end.

(** A statement other than a function definition. *)
Definition no_definition (stmt : ASTExpr) : Prop :=
  match stmt with
  | ASTFunction _ _ _ => False
  | _ => True
  end.

(** A statement other than a function definition with a body. *)
Definition without_body (stmt : ASTExpr) : Prop :=
  match stmt with
  | ASTFunction _ _ (_ :: _) => False
  | _ => True
  end.

(** The statements parsed so far: one that is not [quiet] can only be the
    last of them, and only on a stream that has failed. *)
Definition closed (quiet : ASTExpr -> Prop) (program : ASTProgram) (s : istream) : Prop :=
  (forall init last, statements program = init ++ [last] -> Forall quiet init)
  /\ (ok s = true -> Forall quiet (statements program)).

(** A literal, a variable or a binary node. *)
Definition operand_node (e : ASTExpr) : Prop :=
  match e with
  | ASTLiteral _ | ASTVar _ | ASTBinary _ _ _ => True
  | _ => False
  end.

(** ** Function definitions *)

(** The IR function that [lowerFunction] builds for a definition: it does
    not depend on the program it is added to. *)
Definition lowered_function (name : string) (ps : list string) (body : list ASTExpr)
  : option IRFunction :=
  functions (lowerFunction name ps body {| functions := ∅ |}) !! name.

(** The names that a list of statements declares with [val], in order. *)
Definition declared (stmts : list ASTExpr) : list string :=
  flat_map (fun stmt => match stmt with
                        | ASTValDecl name _ _ => [name]
                        | _ => []
                        end) stmts.

(** [stmt] defines a function called [name]. *)
Definition defines (name : string) (stmt : ASTExpr) : Prop :=
  match stmt with
  | ASTFunction f _ _ => f = name
  | _ => False
  end.

End Quarterc.


(* ===================================================================== *)
(** * The loop pipeline: AST, lowering, x86-64 emitter                    *)
(* ===================================================================== *)

Module Minimal.

#[local] Unset Elimination Schemes.
Inductive ASTExpr : Type :=
| ASTLiteral (value : string)
| ASTBinary (lhs op rhs : string)
| ASTValDecl (name type : string) (init : option ASTExpr)
| ASTLoop (start end_ : option ASTExpr) (body : list ASTExpr).
#[local] Set Elimination Schemes.

Record ASTProgram : Type := { statements : list ASTExpr }.

Inductive IROp : Type :=
  Alloc | Store | Load | Add | Sub | Mul | Div
| Jump | CondJump | Call | Ret | DgAdd | DgToDec | DecToDg.

Record IRInstr : Type := { op : IROp; args : list string }.

(** [trueBranch] and [falseBranch] are never assigned and stay [nullptr];
    they are left out. *)
Record BasicBlock : Type := { bb_name : string; instrs : list IRInstr }.

Record IRFunction : Type := { fn_name : string; blocks : list BasicBlock }.

(** ** Lowering (lines 896-943) *)

Definition newline : string := String (ascii_of_nat 10) "".

(** [static_cast<ASTLiteral*>(e.get())->value]: undefined when [e] is null
    or another kind of node. *)
Definition literal_value (e : option ASTExpr) : outcome string :=
  match e with
  | Some (ASTLiteral value) => Ok value
  | _ => Undefined
  end.

(** [(bin->op == "+") ? IROp::Add : (bin->op == "-") ? IROp::Sub : IROp::Add] *)
Definition binary_op (o : string) : IROp :=
  if bool_decide (o = "+") then Add
  else if bool_decide (o = "-") then Sub
  else Add.

(** One statement of a loop body. *)
Definition lower_inner (loopBody : list IRInstr) (inner : ASTExpr)
  : outcome (list IRInstr) :=
  match inner with
  | ASTValDecl name _ init =>
      value ← literal_value init;
      Ok (loopBody ++ [ {| op := Alloc; args := [name] |};
                        {| op := Store; args := [name; value] |} ])
  | _ => Ok loopBody
  end.

Fixpoint lower_body (body : list ASTExpr) (loopBody : list IRInstr)
  : outcome (list IRInstr) :=
  match body with
  | [] => Ok loopBody
  | inner :: body' => b ← lower_inner loopBody inner; lower_body body' b
  end.

(** One top-level statement: the instructions of [entry] and the blocks
    already pushed onto [fn.blocks]. *)
Definition lower_stmt (acc : list IRInstr * list BasicBlock) (stmt : ASTExpr)
  : outcome (list IRInstr * list BasicBlock) :=
  let '(entry, fn_blocks) := acc in
  match stmt with
  | ASTValDecl name type init =>
      if bool_decide (type = "int") then
        let entry := entry ++ [ {| op := Alloc; args := [name] |} ] in
        match init with
        | Some (ASTBinary lhs o rhs) =>
            Ok (entry ++ [ {| op := Store; args := [name; lhs] |};
                           {| op := binary_op o; args := [name; rhs] |} ],
                fn_blocks)
        | _ =>
            value ← literal_value init;
            Ok (entry ++ [ {| op := Store; args := [name; value] |} ], fn_blocks)
        end
      else Exit 1 ("Type error: Only 'int' is supported." +:+ newline)
  | ASTLoop start end_ body =>
      let entry := entry ++ [ {| op := Alloc; args := ["i"] |} ] in
      from ← literal_value start;
      let entry := entry ++ [ {| op := Store; args := ["i"; from] |} ] in
      let entry := entry ++ [ {| op := Jump; args := ["loop_cond"] |} ] in
      bound ← literal_value end_;
      let loopCond := [ {| op := CondJump; args := ["i"; bound; "loop_end"] |};
                        {| op := Jump; args := ["loop_body"] |} ] in
      loopBody ← lower_body body [];
      let loopBody := loopBody ++ [ {| op := Add; args := ["i"; "1"] |};
                                    {| op := Jump; args := ["loop_cond"] |} ] in
      Ok (entry,
          fn_blocks ++ [ {| bb_name := "loop_cond"; instrs := loopCond |};
                         {| bb_name := "loop_body"; instrs := loopBody |};
                         {| bb_name := "loop_end"; instrs := [] |} ])
  | _ => Ok acc
  end.

Fixpoint lower_stmts (stmts : list ASTExpr) (acc : list IRInstr * list BasicBlock)
  : outcome (list IRInstr * list BasicBlock) :=
  match stmts with
  | [] => Ok acc
  | stmt :: stmts' => acc' ← lower_stmt acc stmt; lower_stmts stmts' acc'
  end.

Definition lower (program : ASTProgram) : outcome IRFunction :=
  r ← lower_stmts (statements program) ([], []);
  Ok {| fn_name := "_main";
        blocks := snd r ++ [ {| bb_name := "entry"; instrs := fst r |} ] |}.

(** ** x86-64 emitter (lines 948-1001).  One constructor per line the
    generator can print; [render] gives the text.  [x_unimplemented] is the
    placeholder of the final [else], which no opcode of the enumeration
    reaches. *)

Inductive X86 : Type :=
| x_label (name : string)
| x_push_rbp | x_mov_rbp_rsp | x_mov_rsp_rbp | x_pop_rbp | x_ret
| x_add (a b : string)
| x_sub (a b : string)
| x_imul (a b : string)
| x_xor_rdx
| x_mov_rax (a : string)
| x_div (b : string)
| x_alloc (a : string)
| x_store (a b : string)
| x_load (a : string)
| x_jmp (target : string)
| x_cmp (a b : string)
| x_jne (target : string)
| x_call (target : string)
| x_ret_op
| x_unimplemented.

Definition render (l : X86) : string :=
  match l with
  | x_label name => name +:+ ":"
  | x_push_rbp => "push rbp"
  | x_mov_rbp_rsp => "mov rbp, rsp"
  | x_mov_rsp_rbp => "mov rsp, rbp"
  | x_pop_rbp => "pop rbp"
  | x_ret => "ret"
  | x_add a b => "  add " +:+ a +:+ ", " +:+ b
  | x_sub a b => "  sub " +:+ a +:+ ", " +:+ b
  | x_imul a b => "  imul " +:+ a +:+ ", " +:+ b
  | x_xor_rdx => "  xor rdx, rdx"
  | x_mov_rax a => "  mov rax, " +:+ a
  | x_div b => "  div " +:+ b
  | x_alloc a => "  ; alloc " +:+ a
  | x_store a b => "  mov [" +:+ a +:+ "], " +:+ b
  | x_load a => "  mov rax, [" +:+ a +:+ "]"
  | x_jmp target => "  jmp " +:+ target
  | x_cmp a b => "  cmp " +:+ a +:+ ", " +:+ b
  | x_jne target => "  jne " +:+ target
  | x_call target => "  call " +:+ target
  | x_ret_op => "  ret"
  | x_unimplemented => "  ; unimplemented IR op"
  end.

Definition emitInstr (instr : IRInstr) : outcome (list X86) :=
  let arg := at_index (args instr) in
  match op instr with
  | Add => a ← arg 0%nat; b ← arg 1%nat; Ok [x_add a b]
  | Sub => a ← arg 0%nat; b ← arg 1%nat; Ok [x_sub a b]
  | Mul => a ← arg 0%nat; b ← arg 1%nat; Ok [x_imul a b]
  | Div => a ← arg 0%nat; b ← arg 1%nat; Ok [x_xor_rdx; x_mov_rax a; x_div b]
  | Alloc => a ← arg 0%nat; Ok [x_alloc a]
  | Store => a ← arg 0%nat; b ← arg 1%nat; Ok [x_store a b]
  | Load => a ← arg 0%nat; Ok [x_load a]
  | Jump => a ← arg 0%nat; Ok [x_jmp a]
  | CondJump => a ← arg 0%nat; b ← arg 1%nat; c ← arg 2%nat; Ok [x_cmp a b; x_jne c]
  | Call => a ← arg 0%nat; Ok [x_call a]
  | Ret => Ok [x_ret_op]
  | DgToDec => Ok [x_call "to_dg"]
  | DecToDg => Ok [x_call "from_dg"]
  | DgAdd => Ok [x_call "dg_add"]
  end.

Fixpoint emitInstrs (ins : list IRInstr) : outcome (list X86) :=
  match ins with
  | [] => Ok []
  | instr :: ins' => l ← emitInstr instr; ls ← emitInstrs ins'; Ok (l ++ ls)
  end.

Fixpoint emitBlocks (bs : list BasicBlock) : outcome (list X86) :=
  match bs with
  | [] => Ok []
  | block :: bs' =>
      l ← emitInstrs (instrs block);
      ls ← emitBlocks bs';
      Ok (x_label (bb_name block) :: l ++ ls)
  end.

Definition emitPrologue : list X86 := [x_push_rbp; x_mov_rbp_rsp].
Definition emitEpilogue : list X86 := [x_mov_rsp_rbp; x_pop_rbp; x_ret].

Definition generate (fn : IRFunction) : outcome (list X86) :=
  body ← emitBlocks (blocks fn);
  Ok (emitPrologue ++ body ++ emitEpilogue).

(** [loop 0 to 5 { }] as an AST, and the lines the generator prints for
    it. *)
Definition loop_0_to_5 : ASTProgram :=
  {| statements := [ ASTLoop (Some (ASTLiteral "0")) (Some (ASTLiteral "5")) [] ] |}.

Definition loop_0_to_5_asm : list X86 :=
  [ x_push_rbp; x_mov_rbp_rsp;
    x_label "loop_cond"; x_cmp "i" "5"; x_jne "loop_end"; x_jmp "loop_body";
    x_label "loop_body"; x_add "i" "1"; x_jmp "loop_cond";
    x_label "loop_end";
    x_label "entry"; x_alloc "i"; x_store "i" "0"; x_jmp "loop_cond";
    x_mov_rsp_rbp; x_pop_rbp; x_ret ].

(** ** Execution of the IR *)

(** Modelled from the spec: the loop pipeline has no executor for its IR,
    which it only prints as assembly text.  What the spec's interpreter
    keeps while it executes, the values bound by name (one frame, the loop
    pipeline has no calls); [executed] is the instructions executed so
    far, in order. *)
Record Run : Type := { values : gmap string Z; executed : list IRInstr }.

(** Modelled from the spec: the variable-resolution policy, the same for
    every opcode that reads an operand.  The name is looked up first, and
    the operand is parsed as a literal integer when nothing binds it. *)
Definition resolve (st : Run) (operand : string) : outcome Z :=
  match values st !! operand with
  | Some v => Ok v
  | None => stoi operand
  end.

(** Modelled from the spec: assigning to a name, and recording that an
    instruction is executed. *)
Definition bind (name : string) (v : Z) (st : Run) : Run :=
  {| values := <[name := v]> (values st); executed := executed st |}.

Definition log (instr : IRInstr) (st : Run) : Run :=
  {| values := values st; executed := executed st ++ [instr] |}.

(** Modelled from the spec: one instruction, and the label at which
    execution goes on when the instruction leaves the block.  [Alloc]
    zero-initializes; [Store] assigns the resolved operand; [Add x v] is
    the increment of [x] by [v], on [int]; [Jump l] goes to [l];
    [CondJump x bound l] compares by inequality: execution stays in the
    block while [x] differs from [bound] and leaves for [l] only when they
    are equal.  These are the opcodes that the lowering of a loop emits;
    the others are not modelled. *)
Definition exec_instr (instr : IRInstr) (st : Run) : outcome (option string * Run) :=
  let st := log instr st in
  match op instr, args instr with
  | Alloc, x :: _ => Ok (None, bind x 0 st)
  | Store, x :: v :: _ => n ← resolve st v; Ok (None, bind x n st)
  | Add, x :: v :: _ =>
      a ← resolve st x; n ← resolve st v; sum ← int_add a n; Ok (None, bind x sum st)
  | Jump, l :: _ => Ok (Some l, st)
  | CondJump, x :: bound :: l :: _ =>
      a ← resolve st x; b ← resolve st bound;
      Ok (if a =? b then Some l else None, st)
  | _, _ => Undefined
  end.

(** Modelled from the spec: a basic block is a straight-line instruction
    sequence with explicit jump-based exits.  It is left by a jump that is
    taken, or its instruction stream is exhausted. *)
Fixpoint exec_block (ins : list IRInstr) (st : Run) : outcome (option string * Run) :=
  match ins with
  | [] => Ok (None, st)
  | instr :: ins' =>
      r ← exec_instr instr st;
      match fst r with
      | Some l => Ok r
      | None => exec_block ins' (snd r)
      end
  end.

(** Modelled from the spec: the block that a label names. *)
Fixpoint find_block (bs : list BasicBlock) (label : string) : option BasicBlock :=
  match bs with
  | [] => None
  | b :: bs' => if bool_decide (bb_name b = label) then Some b else find_block bs' label
  end.

(** Modelled from the spec: execution stands at the head of the block that
    the label names, or is over ([None]) once a block is exhausted without
    a jump. *)
Definition block_step (fn : IRFunction) (c : option string * Run)
  : outcome (option string * Run) :=
  match fst c with
  | None => Ok c
  | Some label =>
      match find_block (blocks fn) label with
      | Some b => exec_block (instrs b) (snd c)
      | None => Undefined
      end
  end.

(** Modelled from the spec: [fuel] blocks of execution. *)
Fixpoint run (fuel : nat) (fn : IRFunction) (c : option string * Run)
  : outcome (option string * Run) :=
  match fuel with
  | O => Ok c
  | S fuel' => c' ← block_step fn c; run fuel' fn c'
  end.

(** Modelled from the spec: execution starts at the block [entry] with
    nothing bound. *)
Definition at_entry : option string * Run :=
  (Some "entry", {| values := ∅; executed := [] |}).

(** The increments of the induction variable among the instructions
    executed. *)
Definition is_increment (instr : IRInstr) : bool :=
  match op instr, args instr with
  | Add, x :: _ => bool_decide (x = "i")
  | _, _ => false
  end.

Definition increments (st : Run) : nat :=
  length (List.filter is_increment (executed st)).

(** A statement of a loop body that leaves the counting alone: a
    declaration is named neither [i] nor like a number, and its
    initializer is an integer literal. *)
Definition apart (inner : ASTExpr) : Prop :=
  match inner with
  | ASTValDecl name _ init =>
      stoi name = Throw (invalid_argument "stoi") /\ name <> "i"
      /\ exists v n, init = Some (ASTLiteral v) /\ stoi v = Ok n
  | _ => True
  end.

(** The loop from [a] to [b] with the given body, as a program. *)
Definition loop_from_to (a b : Z) (body : list ASTExpr) : ASTProgram :=
  {| statements :=
       [ ASTLoop (Some (ASTLiteral (to_string a))) (Some (ASTLiteral (to_string b)))
           body ] |}.

(** The blocks that lowering pushes for a loop and the [entry] block that
    closes the function, given the bounds' texts and the instructions of
    the body. *)
Definition loop_blocks (from bound : string) (code : list IRInstr) : list BasicBlock :=
  [ {| bb_name := "loop_cond";
       instrs := [ {| op := CondJump; args := ["i"; bound; "loop_end"] |};
                   {| op := Jump; args := ["loop_body"] |} ] |};
    {| bb_name := "loop_body";
       instrs := code ++ [ {| op := Add; args := ["i"; "1"] |};
                           {| op := Jump; args := ["loop_cond"] |} ] |};
    {| bb_name := "loop_end"; instrs := [] |};
    {| bb_name := "entry";
       instrs := [ {| op := Alloc; args := ["i"] |};
                   {| op := Store; args := ["i"; from] |};
                   {| op := Jump; args := ["loop_cond"] |} ] |} ].

(** [i] holds [k]; only names that do not read as numbers are bound;
    [c] increments so far. *)
Definition counting (k : Z) (c : nat) (st : Run) : Prop :=
  values st !! "i" = Some k
  /\ (forall key v, values st !! key = Some v -> stoi key = Throw (invalid_argument "stoi"))
  /\ increments st = c.

Definition body_instr (instr : IRInstr) : Prop :=
  exists name, stoi name = Throw (invalid_argument "stoi") /\ name <> "i"
    /\ (instr = {| op := Alloc; args := [name] |}
        \/ exists v n, stoi v = Ok n /\ instr = {| op := Store; args := [name; v] |}).


(** ** Parser (lines 827-868) *)

(** [lhs], [op] and [rhs] start empty, and a read that fails leaves its
    string as it was. *)
Definition parseExpr (s : istream) : ASTExpr * istream :=
  let '(lhs, s) := read_string "" s in
  let '(op, s) := read_string "" s in
  if negb (ok s) then (ASTLiteral lhs, s)
  else
    let '(rhs, s) := read_string "" s in
    if negb (ok s) then (ASTLiteral lhs, s)
    else (ASTBinary lhs op rhs, s).

(** [in >> decl->name; in.ignore(1); in >> decl->type; in.ignore(1);
     decl->init = parseExpr(in);] *)
Definition parseValDecl (s : istream) : ASTExpr * istream :=
  let '(name, s) := read_string "" s in
  let s := ignore1 s in
  let '(type, s) := read_string "" s in
  let s := ignore1 s in
  let '(init, s) := parseExpr s in
  (ASTValDecl name type (Some init), s).

(** The body loop of a [loop] statement:
    [while (in >> token && token != "}") { if (token == "val") ... }];
    [token] is the variable of [parse], shared with its outer loop. *)
Fixpoint parseLoop_body (fuel : nat) (s : istream) (token : string)
    (body : list ASTExpr) {struct fuel} : outcome (list ASTExpr * istream * string) :=
  match fuel with
  | O => OutOfFuel
  | S fuel' =>
      let '(token, s) := read_string token s in
      if ok s && negb (bool_decide (token = "}")) then
        if bool_decide (token = "val") then
          let '(decl, s) := parseValDecl s in
          parseLoop_body fuel' s token (body ++ [decl])
        else parseLoop_body fuel' s token body
      else Ok (body, s, token)
  end.

(** The loop of [parse]: [while (in >> token) { ... }] *)
Fixpoint parse_statements (fuel : nat) (s : istream) (token : string)
    (program : list ASTExpr) {struct fuel} : outcome (list ASTExpr) :=
  match fuel with
  | O => OutOfFuel
  | S fuel' =>
      let '(token, s) := read_string token s in
      if ok s then
        if bool_decide (token = "val") then
          let '(decl, s) := parseValDecl s in
          parse_statements fuel' s token (program ++ [decl])
        else if bool_decide (token = "loop") then
          let '(start, s) := parseExpr s in
          let '(to, s) := read_string "" s in
          let '(end_, s) := parseExpr s in
          let '(brace, s) := read_string "" s in
          r ← parseLoop_body fuel' s token [];
          let '(body, s, token) := r in
          parse_statements fuel' s token
            (program ++ [ASTLoop (Some start) (Some end_) body])
        else parse_statements fuel' s token program
      else Ok program
  end.

Definition parse_fuel (src : string) : nat := String.length src + 2.

Definition parse (src : string) : outcome ASTProgram :=
  stmts ← parse_statements (parse_fuel src) (istringstream src) "" [];
  Ok {| statements := stmts |}.

(** A statement whose initializer, or each of whose bounds, is a binary
    node: the three words that [parseExpr] reads when it can. *)
Definition three_words (stmt : ASTExpr) : Prop :=
  match stmt with
  | ASTValDecl _ _ (Some (ASTBinary _ _ _)) => True
  | ASTLoop (Some (ASTBinary _ _ _)) (Some (ASTBinary _ _ _)) _ => True
  | _ => False
  end.

(** A statement during which the text ran out. *)
Definition cut_short (stmt : ASTExpr) : Prop :=
  match stmt with
  | ASTValDecl _ _ (Some (ASTLiteral _)) => True
  | ASTLoop (Some (ASTBinary _ _ _)) (Some (ASTLiteral _)) [] => True
  | ASTLoop (Some (ASTLiteral _)) (Some (ASTLiteral "")) [] => True
  | _ => False
  end.

(** What the statements parsed so far look like: all but the last took
    their three words, and the last did unless the text ran out on it. *)
Definition shaped (program : list ASTExpr) (s : istream) : Prop :=
  (forall init last, program = init ++ [last] ->
     Forall three_words init /\ (three_words last \/ cut_short last))
  /\ (ok s = true -> Forall three_words program).

(** ** Shape of lowered and emitted code *)

(** The operands that [emitInstr] reads of an instruction, by opcode. *)
Definition operands_read (o : IROp) : nat :=
  match o with
  | Add | Sub | Mul | Div | Store => 2
  | Alloc | Load | Jump | Call => 1
  | CondJump => 3
  | Ret | DgAdd | DgToDec | DecToDg => 0
  end.

Definition enough (instr : IRInstr) : Prop :=
  (operands_read (op instr) <= length (args instr))%nat.

Definition enough_blocks (acc : list IRInstr * list BasicBlock) : Prop :=
  Forall enough (fst acc) /\ Forall (fun b => Forall enough (instrs b)) (snd acc).

(** A line of an instruction: neither a label nor the placeholder. *)
Definition plain (l : X86) : Prop :=
  match l with
  | x_label _ | x_unimplemented => False
  | _ => True
  end.

(** The labels among the emitted lines, in order. *)
Fixpoint labels (asm : list X86) : list string :=
  match asm with
  | [] => []
  | x_label name :: asm' => name :: labels asm'
  | _ :: asm' => labels asm'
  end.

(** The names of the blocks that lowering pushes for a statement. *)
Definition loop_labels (stmt : ASTExpr) : list string :=
  match stmt with
  | ASTLoop _ _ _ => ["loop_cond"; "loop_body"; "loop_end"]
  | _ => []
  end.

(** The lines that stand for an instruction in the listing, by opcode;
    an operand the instruction lacks reads as empty text here. *)
Definition lines_of (instr : IRInstr) : list X86 :=
  let arg i := nth i (args instr) "" in
  match op instr with
  | Add => [x_add (arg 0%nat) (arg 1%nat)]
  | Sub => [x_sub (arg 0%nat) (arg 1%nat)]
  | Mul => [x_imul (arg 0%nat) (arg 1%nat)]
  | Div => [x_xor_rdx; x_mov_rax (arg 0%nat); x_div (arg 1%nat)]
  | Alloc => [x_alloc (arg 0%nat)]
  | Store => [x_store (arg 0%nat) (arg 1%nat)]
  | Load => [x_load (arg 0%nat)]
  | Jump => [x_jmp (arg 0%nat)]
  | CondJump => [x_cmp (arg 0%nat) (arg 1%nat); x_jne (arg 2%nat)]
  | Call => [x_call (arg 0%nat)]
  | Ret => [x_ret_op]
  | DgToDec => [x_call "to_dg"]
  | DecToDg => [x_call "from_dg"]
  | DgAdd => [x_call "dg_add"]
  end.

(** A block in the listing: its label, then the lines of its instructions
    in order. *)
Definition block_lines (block : BasicBlock) : list X86 :=
  x_label (bb_name block) :: flat_map lines_of (instrs block).

(** The listing of a function: prologue, blocks in order, epilogue. *)
Definition listing (fn : IRFunction) : list X86 :=
  emitPrologue ++ flat_map block_lines (blocks fn) ++ emitEpilogue.

(** ** Driver (lines 1026-1048).  [file] is the text of the file named on
    the command line ([program.qtr] without one), [None] when it cannot be
    opened. *)
Definition loadFile (file : option string) : outcome string :=
  match file with
  | Some text => Ok text
  | None => Throw (runtime_error "Could not open source file")
  end.

(** How the process ends: its exit status, and what it wrote to
    [std::cerr] and [std::cout]. *)
Record Process : Type := { status : Z; cerr : string; cout : list X86 }.

Definition type_error : string := "Type error: Only 'int' is supported." +:+ newline.

(** Nothing is printed before [cg.generate(ir)], so a run that ends in the
    [catch], or in the [exit(1)] of [lower], has printed no line. *)
Definition main (file : option string) : outcome Process :=
  match (source ← loadFile file; ast ← parse source; ir ← lower ast; generate ir) with
  | Ok asm => Ok {| status := 0; cerr := ""; cout := asm |}
  | Throw ex =>
      Ok {| status := 1; cerr := "Error: " +:+ what ex +:+ newline; cout := [] |}
  | Exit code msg => Ok {| status := code; cerr := msg; cout := [] |}
  | Undefined => Undefined
  | OutOfFuel => OutOfFuel
  end.

End Minimal.

(* ===================================================================== *)
(** * The module library: lexer, library table, integer built-ins         *)
(* ===================================================================== *)

(** The revision that splits the compiler into numbered modules (lines
    3517-3806 of the unnamed source part 000).  Those that are more than a
    stub and do no input or output are modelled here. *)
Module Toolchain.

(** ** [ErrorHandler::error] (line 3544) *)
Module ErrorHandler.

Definition error {A} (code : Z) (msg : string) : outcome A :=
  Throw (runtime_error ("[Error " +:+ to_string code +:+ "]: " +:+ msg)).

End ErrorHandler.

(** ** [LibrarySystem] (lines 3580-3592).  [libs()] is the one static map
    of the class; a library is the [void*] it was registered with. *)
Module LibrarySystem.

Section Libs.

Variable module : Type.

Definition registerLibrary (name : string) (m : module) (libs : gmap string module)
  : gmap string module :=
  <[name := m]> libs.

Definition getLibrary (name : string) (libs : gmap string module) : outcome module :=
  match libs !! name with
  | None => ErrorHandler.error 404 ("Library not found: " +:+ name)
  | Some m => Ok m
  end.

End Libs.

End LibrarySystem.

(** ** [RangeAdjuster::clamp] (line 3534) *)
Module RangeAdjuster.

Definition clamp (v mn mx : Z) : Z :=
  if v <? mn then mn else if v >? mx then mx else v.

End RangeAdjuster.

(** ** [Token] and [Lexer::lex] (lines 3518-3521, 3595-3618).  The
    character classes are those of [Cxx]. *)

Record Token : Type := { type : string; value : string }.

Module Lexer.

(** [while (j < input.size() && p(input[j])) ++j;] from the start of [s]:
    the characters passed over, [input.substr(i, j-i)], and the rest. *)
Fixpoint span (p : ascii -> bool) (s : string) : string * string :=
  match s with
  | String c s' =>
      if p c then let '(w, r) := span p s' in (String c w, r) else ("", s)
  | EmptyString => ("", "")
  end.

(** [std::isalnum(input[j]) || input[j]=='_'] *)
Definition ident_char (c : ascii) : bool := isalnum c || bool_decide (c = "_"%char).

(** The outer loop, on what is left of [input] from index [i] on. *)
Fixpoint lex_from (fuel : nat) (input : string) (tokens : list Token)
  : outcome (list Token) :=
  match fuel with
  | O => OutOfFuel
  | S fuel' =>
      match skip_space input with
      | EmptyString => Ok tokens
      | String c rest as input =>
          if isalpha c then
            let '(w, r) := span ident_char input in
            lex_from fuel' r (tokens ++ [ {| type := "IDENT"; value := w |} ])
          else if isdigit c then
            let '(w, r) := span isdigit input in
            lex_from fuel' r (tokens ++ [ {| type := "NUMBER"; value := w |} ])
          else
            lex_from fuel' rest (tokens ++ [ {| type := "SYM"; value := String c "" |} ])
      end
  end.

Definition lex (input : string) : outcome (list Token) :=
  lex_from (S (String.length input)) input [].

End Lexer.

(** ** [StandardLib] (lines 3788-3806), on [int] *)
Module StandardLib.

Definition add (x y : Z) : outcome Z := int_result (x + y).
Definition sub (x y : Z) : outcome Z := int_result (x - y).
Definition mul (x y : Z) : outcome Z := int_result (x * y).
Definition identity (x : Z) : Z := x.

(** [x / y] and [x % y] truncate towards zero; both are undefined when
    [y] is 0 or the quotient does not fit. *)
Definition div (x y : Z) : outcome Z :=
  if y =? 0 then Undefined else int_result (Z.quot x y).

Definition mod_ (x y : Z) : outcome Z :=
  if y =? 0 then Undefined
  else if in_int (Z.quot x y) then Ok (Z.rem x y) else Undefined.

Definition min (x y : Z) : Z := if x <? y then x else y.
Definition max (x y : Z) : Z := if x >? y then x else y.

(** [int r = 1; for (int i = 0; i < y; ++i) r *= x; return r;] *)
Fixpoint pow_loop (iterations : nat) (x r : Z) : outcome Z :=
  match iterations with
  | O => Ok r
  | S n => r' ← int_result (r * x); pow_loop n x r'
  end.

Definition pow (x y : Z) : outcome Z := pow_loop (Z.to_nat y) x 1.

Definition abs (x : Z) : outcome Z := if x <? 0 then int_result (- x) else Ok x.

Definition clamp (x mn mx : Z) : Z :=
  if x <? mn then mn else if x >? mx then mx else x.

Definition is_even (x : Z) : Z := if Z.rem x 2 =? 0 then 1 else 0.

(** [(x <= 1) ? 1 : x * factorial(x - 1)]; [fuel] bounds the depth of the
    recursion. *)
Fixpoint factorial_within (fuel : nat) (x : Z) : outcome Z :=
  match fuel with
  | O => OutOfFuel
  | S fuel' =>
      if x <=? 1 then Ok 1
      else r ← factorial_within fuel' (x - 1); int_result (x * r)
  end.

Definition factorial (x : Z) : outcome Z := factorial_within (S (Z.to_nat x)) x.

(** [n!] *)
Fixpoint factorial_of (n : nat) : Z :=
  match n with
  | O => 1
  | S n' => Z.of_nat n * factorial_of n'
  end.

End StandardLib.

(** ** What the lexer is measured against *)

(** The characters of [s] that are not white space. *)
Fixpoint remove_space (s : string) : string :=
  match s with
  | EmptyString => EmptyString
  | String c s' => if isspace c then remove_space s' else String c (remove_space s')
  end.

(** The values of the tokens, one after the other. *)
Fixpoint text_of (tokens : list Token) : string :=
  match tokens with
  | [] => ""
  | t :: tokens' => value t +:+ text_of tokens'
  end.

(** Every character of [s] passes [p]. *)
Fixpoint all_chars (p : ascii -> bool) (s : string) : bool :=
  match s with
  | EmptyString => true
  | String c s' => p c && all_chars p s'
  end.

(** The three kinds of token and what each holds. *)
Definition classified (t : Token) : Prop :=
  (type t = "IDENT" /\ isalpha (front0 (value t)) = true
     /\ all_chars Lexer.ident_char (value t) = true)
  \/ (type t = "NUMBER" /\ value t <> "" /\ all_chars isdigit (value t) = true)
  \/ (type t = "SYM" /\ exists c, value t = String c ""
        /\ isspace c = false /\ isalnum c = false).

End Toolchain.

(* ===================================================================== *)
(** * Properties                                                          *)
(* ===================================================================== *)

(** ** Decimal text: [std::stoi] reads back what [std::to_string] wrote *)

Section Decimal.

Example stoi_plain : stoi "42" = Ok 42.
Proof. reflexivity. Qed.

Example stoi_prefix : stoi "  -17abc" = Ok (-17).
Proof. reflexivity. Qed.

Example stoi_name : stoi "x" = Throw (invalid_argument "stoi").
Proof. reflexivity. Qed.

Example stoi_int_min : stoi "-2147483648" = Ok INT_MIN.
Proof. reflexivity. Qed.

Example stoi_beyond_int : stoi "2147483648" = Throw (out_of_range "stoi").
Proof. reflexivity. Qed.

Example to_string_samples :
  to_string 0 = "0" /\ to_string 1207 = "1207" /\ to_string INT_MIN = "-2147483648".
Proof. repeat split; reflexivity. Qed.

Lemma digit_char_spec d :
  0 <= d < 10 -> isdigit (digit_char d) = true /\ code (digit_char d) - 48 = d.
Proof.
  intros Hd.
  assert (Hcases : d = 0 \/ d = 1 \/ d = 2 \/ d = 3 \/ d = 4 \/
                   d = 5 \/ d = 6 \/ d = 7 \/ d = 8 \/ d = 9) by lia.
  repeat (destruct Hcases as [-> | Hcases]; [split; reflexivity |]).
  subst d. split; reflexivity.
Qed.

Lemma digits_value_digit a d rest :
  0 <= d < 10 ->
  digits_value a (String (digit_char d) rest) = digits_value (10 * a + d) rest.
Proof.
  intros Hd. destruct (digit_char_spec d Hd) as [Hdig Hval].
  simpl. rewrite Hdig, Hval. reflexivity.
Qed.

(** Printing [n] in front of [acc] shifts whatever was read so far by the
    number of digits of [n]. *)
Lemma digits_value_to_digits fuel :
  forall n acc, (0 < fuel)%nat -> 0 <= n < 10 ^ Z.of_nat fuel ->
  exists k, 0 <= k /\
    forall a, digits_value a (to_digits fuel n acc) = digits_value (a * 10 ^ k + n) acc.
Proof.
  induction fuel as [| fuel IH]; intros n acc Hfuel Hn; [lia |].
  assert (Hmod : 0 <= n mod 10 < 10) by (apply Z.mod_pos_bound; lia).
  assert (Hsplit : n = 10 * (n / 10) + n mod 10) by (apply Z.div_mod; lia).
  simpl to_digits. destruct (n / 10 =? 0) eqn:Hq.
  - apply Z.eqb_eq in Hq. exists 1. split; [lia |]. intros a.
    rewrite digits_value_digit by assumption. f_equal. lia.
  - apply Z.eqb_neq in Hq.
    assert (Hdiv : 0 <= n / 10) by (apply Z.div_pos; lia).
    destruct fuel as [| fuel'].
    + exfalso. change (10 ^ Z.of_nat 1) with 10 in Hn.
      apply Hq. apply Z.div_small. lia.
    + destruct (IH (n / 10) (String (digit_char (n mod 10)) acc)) as (k & Hk & Hval).
      * lia.
      * split; [assumption |].
        apply Z.div_lt_upper_bound; [lia |].
        replace (10 * 10 ^ Z.of_nat (S fuel')) with (10 ^ Z.of_nat (S (S fuel'))); [lia |].
        rewrite (Nat2Z.inj_succ (S fuel')), Z.pow_succ_r by lia. reflexivity.
      * exists (k + 1). split; [lia |]. intros a.
        rewrite Hval, digits_value_digit by assumption.
        f_equal. rewrite Z.pow_add_r by lia. lia.
Qed.

Lemma to_digits_head fuel :
  forall n acc, (0 < fuel)%nat -> 0 <= n ->
  exists d rest, 0 <= d < 10 /\ to_digits fuel n acc = String (digit_char d) rest.
Proof.
  induction fuel as [| fuel IH]; intros n acc Hfuel Hn; [lia |].
  assert (Hmod : 0 <= n mod 10 < 10) by (apply Z.mod_pos_bound; lia).
  simpl. destruct (n / 10 =? 0).
  - eauto.
  - destruct fuel as [| fuel']; [simpl; eauto |].
    apply IH; [lia | apply Z.div_pos; lia].
Qed.

(** A text that starts with a digit is read as an unsigned number. *)
Lemma stoi_unsigned c rest :
  isdigit c = true ->
  stoi (String c rest) =
    if in_int (digits_value 0 (String c rest))
    then Ok (digits_value 0 (String c rest))
    else Throw (out_of_range "stoi").
Proof.
  intros Hc. unfold stoi.
  assert (Hsp : isspace c = false).
  { unfold isdigit, isspace in *. lia. }
  simpl skip_space. rewrite Hsp.
  destruct c as [[] [] [] [] [] [] [] []]; try discriminate Hc;
    simpl front0; rewrite ?Hc; reflexivity.
Qed.

Lemma stoi_negative rest :
  isdigit (front0 rest) = true ->
  stoi (String "-" rest) =
    if in_int (- digits_value 0 rest)
    then Ok (- digits_value 0 rest)
    else Throw (out_of_range "stoi").
Proof.
  intros Hc. unfold stoi. simpl. rewrite Hc. reflexivity.
Qed.

Lemma stoi_to_string n :
  INT_MIN <= n <= INT_MAX -> stoi (to_string n) = Ok n.
Proof.
  intros Hn. unfold INT_MIN, INT_MAX in Hn.
  assert (Hin : in_int n = true).
  { unfold in_int, INT_MIN, INT_MAX. lia. }
  unfold to_string. destruct (n <? 0) eqn:Hsign.
  - apply Z.ltb_lt in Hsign.
    destruct (to_digits_head 10 (- n) "") as (d & rest & Hd & Hhead); [lia | lia |].
    destruct (digits_value_to_digits 10 (- n) "") as (k & _ & Hval); [lia | simpl; lia |].
    rewrite stoi_negative.
    + rewrite Hval. simpl digits_value.
      replace (- (0 * 10 ^ k + - n)) with n by lia.
      rewrite Hin. reflexivity.
    + rewrite Hhead. simpl. apply digit_char_spec. assumption.
  - apply Z.ltb_ge in Hsign.
    destruct (to_digits_head 10 n "") as (d & rest & Hd & Hhead); [lia | lia |].
    destruct (digits_value_to_digits 10 n "") as (k & _ & Hval); [lia | simpl; lia |].
    pose proof (Hval 0) as Hv. rewrite Hhead in *.
    rewrite stoi_unsigned by (apply digit_char_spec; assumption).
    rewrite Hv. simpl digits_value.
    replace (0 * 10 ^ k + n) with n by lia.
    rewrite Hin. reflexivity.
Qed.

End Decimal.

(** ** Sequencing *)

Lemma bind_Ok_inv {A B} (m : outcome A) (f : A -> outcome B) (b : B) :
  m ≫= f = Ok b -> exists a, m = Ok a /\ f a = Ok b.
Proof. destruct m; simpl; intros H; try discriminate H. eauto. Qed.

Lemma bind_Ok_l {A B} (a : A) (f : A -> outcome B) : Ok a ≫= f = f a.
Proof. reflexivity. Qed.

Lemma at_index_Ok {A} (v : list A) i a : at_index v i = Ok a -> v !! i = Some a.
Proof. unfold at_index. destruct (v !! i); intros H; inversion H; reflexivity. Qed.

Tactic Notation "bind_inv" hyp(H) "as" ident(a) ident(Ha) :=
  apply bind_Ok_inv in H; destruct H as (a & Ha & H).

(** ** The input stream: no operation gives back text already read *)

Section Stream.

Lemma skip_space_length s : (String.length (skip_space s) <= String.length s)%nat.
Proof.
  induction s as [| c s IH]; simpl; [lia |].
  destruct (isspace c); simpl; lia.
Qed.

Lemma skip_space_head s c r : skip_space s = String c r -> isspace c = false.
Proof.
  induction s as [| c' s IH]; simpl; [discriminate |].
  destruct (isspace c') eqn:Hc; [exact IH |].
  intros H. inversion H; subst. exact Hc.
Qed.

Lemma take_word_length s :
  (String.length (snd (take_word s)) <= String.length s)%nat.
Proof.
  induction s as [| c s IH]; simpl; [lia |].
  destruct (isspace c); simpl; [lia |].
  destruct (take_word s) as [w r]. simpl in *. lia.
Qed.

Lemma take_word_progress c s :
  isspace c = false ->
  (String.length (snd (take_word (String c s))) < String.length (String c s))%nat.
Proof.
  intros Hc. simpl. rewrite Hc.
  pose proof (take_word_length s) as H.
  destruct (take_word s) as [w r]. simpl in *. lia.
Qed.

Lemma sentry_spec s :
  let '(go, s') := sentry s in
  if go then
    good s = true /\ failbit s' = false /\ eofbit s' = false /\
    exists c r, buf s' = String c r /\ isspace c = false /\
                (String.length (buf s') <= String.length (buf s))%nat
  else failbit s' = true.
Proof.
  unfold sentry. destruct (good s) eqn:Hgood; [| reflexivity].
  pose proof (skip_space_length (buf s)) as Hlen.
  destruct (skip_space (buf s)) as [| c r] eqn:Hskip; [reflexivity |].
  simpl. repeat split; try reflexivity.
  exists c, r. repeat split; [eapply skip_space_head; exact Hskip | exact Hlen].
Qed.

Lemma good_remaining s : good s = true -> remaining s = S (String.length (buf s)).
Proof.
  unfold good, remaining. destruct (failbit s); simpl; [| reflexivity].
  rewrite andb_false_r. discriminate.
Qed.

Lemma read_string_spec str s :
  advances s (snd (read_string str s))
  /\ (failbit (snd (read_string str s)) = true -> fst (read_string str s) = str).
Proof.
  unfold read_string. pose proof (sentry_spec s) as Hs.
  destruct (sentry s) as [[] s1].
  - destruct Hs as (Hgood & Hf & He & c & r & Hbuf & Hc & Hlen).
    pose proof (take_word_progress c r Hc) as Hprog. rewrite <- Hbuf in Hprog.
    destruct (take_word (buf s1)) as [w rest]. simpl in *.
    split; [| discriminate].
    unfold advances. rewrite (good_remaining s Hgood).
    unfold remaining. simpl. split; [lia | right; lia].
  - simpl. split; [| reflexivity].
    unfold advances. replace (remaining s1) with O by (unfold remaining; rewrite Hs; reflexivity).
    split; [lia |]. destruct (remaining s); [left; reflexivity | right; lia].
Qed.

Lemma sentry_raw_spec s :
  let '(go, s') := sentry_raw s in
  if go then good s = true /\ s' = s else failbit s' = true.
Proof. unfold sentry_raw. destruct (good s); simpl; auto. Qed.

Lemma failed_remaining s : failbit s = true -> remaining s = O.
Proof. unfold remaining. intros ->. reflexivity. Qed.

Lemma peek_remaining s : (remaining (snd (peek s)) <= remaining s)%nat.
Proof.
  unfold peek. pose proof (sentry_raw_spec s) as Hs.
  destruct (sentry_raw s) as [[] s1].
  - destruct Hs as [Hgood ->]. pose proof (good_remaining s Hgood) as Hrem.
    destruct (buf s) eqn:Hbuf; simpl in *; [| lia].
    rewrite Hrem. unfold remaining. simpl. lia.
  - simpl. rewrite (failed_remaining s1 Hs). lia.
Qed.

Lemma ignore1_remaining s : (remaining (ignore1 s) <= remaining s)%nat.
Proof.
  unfold ignore1. pose proof (sentry_raw_spec s) as Hs.
  destruct (sentry_raw s) as [[] s1].
  - destruct Hs as [Hgood ->]. rewrite (good_remaining s Hgood).
    destruct (buf s); unfold remaining; simpl; lia.
  - rewrite (failed_remaining s1 Hs). lia.
Qed.

Lemma ws_remaining s : (remaining (ws s) <= remaining s)%nat.
Proof.
  unfold ws. pose proof (sentry_raw_spec s) as Hs.
  destruct (sentry_raw s) as [[] s1].
  - destruct Hs as [Hgood ->]. rewrite (good_remaining s Hgood).
    pose proof (skip_space_length (buf s)). unfold remaining. simpl. lia.
  - rewrite (failed_remaining s1 Hs). lia.
Qed.

Lemma read_char_remaining s : (remaining (snd (read_char s)) <= remaining s)%nat.
Proof.
  unfold read_char. pose proof (sentry_spec s) as Hs.
  destruct (sentry s) as [[] s1].
  - destruct Hs as (Hgood & Hf & He & c & r & Hbuf & Hc & Hlen).
    rewrite Hbuf in *. simpl in *. rewrite (good_remaining s Hgood).
    unfold remaining. simpl. lia.
  - simpl. rewrite (failed_remaining s1 Hs). lia.
Qed.

(** A position taken by [tellg] never lies before the stream's place at
    that moment: seeking back to it cannot add to what was left then. *)
Lemma tellg_seekg s :
  (remaining (snd (tellg s)) <= remaining s)%nat
  /\ forall later, (remaining (seekg (fst (tellg s)) later) <= remaining (snd (tellg s)))%nat.
Proof.
  unfold tellg. pose proof (sentry_raw_spec s) as Hs.
  destruct (sentry_raw s) as [[] s1]; simpl.
  - destruct Hs as [Hgood ->]. split; [lia |]. intros later.
    rewrite (good_remaining s Hgood). unfold seekg, sentry_raw, good. simpl.
    destruct (failbit later); simpl; unfold remaining; simpl; lia.
  - split; [rewrite (failed_remaining s1 Hs); lia |]. intros later.
    unfold seekg, sentry_raw, good. simpl.
    destruct (failbit later); simpl; unfold remaining; simpl; lia.
Qed.

End Stream.

(** ** The input stream: where a read leaves it *)

Section StreamShape.

Lemma remaining_failed s : remaining s = O -> failbit s = true.
Proof. unfold remaining. destruct (failbit s); [reflexivity | discriminate]. Qed.

Lemma ok_failbit s : ok s = negb (failbit s).
Proof. reflexivity. Qed.

Lemma read_string_failed str s :
  failbit s = true -> read_string str s = (str, s).
Proof.
  intros Hf. unfold read_string, sentry, good. rewrite Hf, andb_false_r.
  destruct s as [b e f]. simpl in *. subst f. reflexivity.
Qed.

Lemma read_string_ok str s :
  ok (snd (read_string str s)) = true ->
  ok s = true /\ (remaining (snd (read_string str s)) < remaining s)%nat.
Proof.
  intros Hok. pose proof (read_string_spec str s) as [Hadv _].
  assert (Hpos : remaining (snd (read_string str s)) <> O).
  { intros H0. apply remaining_failed in H0. rewrite ok_failbit, H0 in Hok. discriminate. }
  destruct Hadv as [Hle [H0 | Hlt]]; [lia |]. split; [| exact Hlt].
  rewrite ok_failbit. destruct (failbit s) eqn:Hf; [| reflexivity].
  rewrite (failed_remaining s Hf) in Hlt. lia.
Qed.

Lemma read_string_le str s :
  (remaining (snd (read_string str s)) <= remaining s)%nat.
Proof. pose proof (read_string_spec str s) as [[Hle _] _]. exact Hle. Qed.

Lemma read_string_word str s :
  in_order s ->
  match skip_space (buf s) with
  | EmptyString => ok (snd (read_string str s)) = false
  | r =>
      fst (read_string str s) = fst (take_word r)
      /\ buf (snd (read_string str s)) = snd (take_word r)
      /\ in_order (snd (read_string str s))
  end.
Proof.
  intros [Hf He]. unfold read_string, sentry, good. rewrite Hf.
  destruct (eofbit s) eqn:Heof; cbn [negb andb].
  - rewrite (He eq_refl). reflexivity.
  - destruct (skip_space (buf s)) as [| c r] eqn:Hskip; [reflexivity |].
    cbn [buf]. destruct (take_word (String c r)) as [w rest]. cbn [fst snd buf].
    split; [reflexivity |]. split; [reflexivity |]. split; [reflexivity |].
    cbn [eofbit buf]. destruct rest; [reflexivity | discriminate].
Qed.

Lemma take_word_rest s :
  match snd (take_word s) with
  | EmptyString => True
  | String c _ => isspace c = true
  end.
Proof.
  induction s as [| c s IH]; cbn [take_word]; [exact I |].
  destruct (isspace c) eqn:Hc; [cbn [snd]; exact Hc |].
  destruct (take_word s) as [w r]. exact IH.
Qed.

Lemma failed_at_gap s : failbit s = true -> at_gap s.
Proof. intros H. left. exact H. Qed.

Lemma read_string_at_gap str s : at_gap (snd (read_string str s)).
Proof.
  unfold read_string. pose proof (sentry_spec s) as Hs.
  destruct (sentry s) as [[] s1].
  - pose proof (take_word_rest (buf s1)) as Hrest.
    destruct (take_word (buf s1)) as [w r]. right. exact Hrest.
  - left. exact Hs.
Qed.

Lemma sentry_raw_failed s : failbit s = true -> sentry_raw s = (false, s).
Proof.
  intros Hf. unfold sentry_raw, good. rewrite Hf, andb_false_r.
  destruct s as [b e f]. simpl in *. subst f. reflexivity.
Qed.

(** At a gap, [peek] sees white space or nothing. *)
Lemma peek_at_gap s :
  at_gap s ->
  at_gap (snd (peek s))
  /\ (fst (peek s) = None \/ exists c, fst (peek s) = Some c /\ isspace c = true).
Proof.
  intros Hgap. unfold peek. pose proof (sentry_raw_spec s) as Hs.
  destruct (sentry_raw s) as [[] s1].
  - destruct Hs as [Hgood ->].
    destruct Hgap as [Hf | Hbuf].
    { unfold good in Hgood. rewrite Hf, andb_false_r in Hgood. discriminate Hgood. }
    destruct (buf s) as [| c r] eqn:Hb; cbn [fst snd].
    + split; [right; exact I | left; reflexivity].
    + split; [right; rewrite Hb; exact Hbuf | right; eauto].
  - cbn [fst snd]. split; [left; exact Hs | left; reflexivity].
Qed.

Lemma tellg_at_gap s :
  at_gap s ->
  at_gap (snd (tellg s)) /\ forall later, at_gap (seekg (fst (tellg s)) later).
Proof.
  intros Hgap. unfold tellg. pose proof (sentry_raw_spec s) as Hs.
  destruct (sentry_raw s) as [[] s1]; cbn [fst snd].
  - destruct Hs as [Hgood ->]. split; [exact Hgap |]. intros later.
    destruct Hgap as [Hf | Hbuf].
    { unfold good in Hgood. rewrite Hf, andb_false_r in Hgood. discriminate Hgood. }
    unfold seekg, sentry_raw, good. cbn [eofbit failbit buf negb andb].
    destruct (failbit later); cbn [negb]; [left; reflexivity | right; exact Hbuf].
  - split; [left; exact Hs |]. intros later.
    unfold seekg, sentry_raw, good. cbn [eofbit failbit buf negb andb].
    destruct (failbit later); cbn [negb]; left; reflexivity.
Qed.

Lemma ws_failed s : failbit s = true -> failbit (ws s) = true.
Proof. intros Hf. unfold ws. rewrite (sentry_raw_failed s Hf). exact Hf. Qed.

Lemma ignore1_failed s : failbit s = true -> failbit (ignore1 s) = true.
Proof. intros Hf. unfold ignore1. rewrite (sentry_raw_failed s Hf). exact Hf. Qed.

Lemma read_string_ok_before str s :
  ok (snd (read_string str s)) = true -> ok s = true.
Proof.
  unfold read_string, sentry, good, ok.
  destruct (failbit s); [| reflexivity].
  rewrite andb_false_r. cbn. discriminate.
Qed.

End StreamShape.

(** ** The input stream: the words left to read *)

Section StreamWords.

Lemma words_within_enough f :
  forall g text,
    (String.length text < f)%nat -> (String.length text < g)%nat ->
    words_within f text = words_within g text.
Proof.
  induction f as [| f IH]; intros g text Hf Hg; [lia |].
  destruct g as [| g]; [lia |]. cbn [words_within].
  pose proof (skip_space_length text) as Hlen.
  destruct (skip_space text) as [| c r] eqn:Hskip; [reflexivity |].
  pose proof (take_word_progress c r (skip_space_head _ _ _ Hskip)) as Hprog.
  destruct (take_word (String c r)) as [w rest]. cbn [snd] in Hprog.
  f_equal. apply IH; lia.
Qed.

(** The words of a text: the first one, then those of what follows it. *)
Lemma words_step text :
  words text =
    match skip_space text with
    | EmptyString => []
    | r => fst (take_word r) :: words (snd (take_word r))
    end.
Proof.
  unfold words at 1. cbn [words_within].
  pose proof (skip_space_length text) as Hlen.
  destruct (skip_space text) as [| c r] eqn:Hskip; [reflexivity |].
  pose proof (take_word_progress c r (skip_space_head _ _ _ Hskip)) as Hprog.
  destruct (take_word (String c r)) as [w rest]. cbn [fst snd] in *.
  f_equal. unfold words. apply words_within_enough; simpl in *; lia.
Qed.

Lemma words_space c r : isspace c = true -> words (String c r) = words r.
Proof.
  intros Hc. rewrite (words_step (String c r)), (words_step r).
  cbn [skip_space]. rewrite Hc. reflexivity.
Qed.

(** [in >> str] takes the next pending word; with none left it fails and
    leaves [str] as it was. *)
Lemma read_string_pending str s :
  failbit s = true \/ in_order s ->
  let r := read_string str s in
  match pending s with
  | [] => fst r = str /\ failbit (snd r) = true
  | w :: rest => fst r = w /\ in_order (snd r) /\ pending (snd r) = rest
  end.
Proof.
  intros [Hf | Hs].
  - rewrite (read_string_failed str s Hf). unfold pending. rewrite Hf.
    split; [reflexivity | exact Hf].
  - pose proof (read_string_word str s Hs) as Hread.
    pose proof (read_string_spec str s) as [_ Hkeep].
    unfold pending at 1. rewrite (proj1 Hs), words_step.
    destruct (skip_space (buf s)) as [| c r].
    + cbn zeta. rewrite ok_failbit in Hread.
      destruct (failbit (snd (read_string str s))) eqn:Hf; [| discriminate Hread].
      split; [apply Hkeep; reflexivity | reflexivity].
    + destruct Hread as (Hw & Hbuf & Hs'). cbn zeta.
      split; [exact Hw |]. split; [exact Hs' |].
      unfold pending. rewrite (proj1 Hs'), Hbuf. reflexivity.
Qed.

(** [in.ignore(1)] after a word takes one character of the gap, or fails
    at the end of the text: the pending words stay the same. *)
Lemma ignore1_pending s :
  failbit s = true \/ in_order s -> at_gap s ->
  (failbit (ignore1 s) = true \/ in_order (ignore1 s))
  /\ pending (ignore1 s) = pending s.
Proof.
  intros [Hf | [Hf He]] Hgap.
  - unfold ignore1. rewrite (sentry_raw_failed s Hf). split; [left; exact Hf | reflexivity].
  - unfold ignore1, sentry_raw, good. rewrite Hf. cbn [negb andb].
    destruct (eofbit s) eqn:Heof; cbn [negb andb].
    + split; [left; reflexivity |].
      unfold pending. cbn [setfail failbit]. rewrite Hf, (He eq_refl). reflexivity.
    + destruct Hgap as [Hfail | Hbuf]; [congruence |].
      unfold pending at 2. rewrite Hf.
      destruct (buf s) as [| c r] eqn:Hb.
      * split; [right; split; [reflexivity | reflexivity] | reflexivity].
      * split; [right; split; [reflexivity | discriminate] |].
        unfold pending. cbn [failbit buf]. symmetry. apply words_space. exact Hbuf.
Qed.

End StreamWords.

(** ** The function pipeline *)

Module QuartercProps.
Import Quarterc.

(** *** The parser *)

Example parse_decl :
  parse "val x int 42" =
    Ok (program_of [ASTValDecl "x" "int" (Some (ASTLiteral "42"))]).
Proof. vm_compute. reflexivity. Qed.

Example parse_binary_and_call :
  parse "val y int x + 1 call say ()" =
    Ok (program_of [ ASTValDecl "y" "int" (Some (ASTBinary "x" "+" "1"));
                     ASTCall "say" [] ]).
Proof. vm_compute. reflexivity. Qed.

(** Tokens end at white space only, so the colon stays with the token it
    follows and [as] is read as the type. *)
Example parse_reads_words :
  parse "val a as int: 3" =
    Ok (program_of [ASTValDecl "a" "as" (Some (ASTVar "int:"))]).
Proof. vm_compute. reflexivity. Qed.

(** Source text to output: parse, lower, run. *)
Example pipeline_prints :
  (program ← parse "val x int 42 call say (x"; execMain (lower program) 1)
  = Ok (0, {| callStack := []; cout := [42] |}).
Proof. vm_compute. reflexivity. Qed.

Lemma ok_remaining s : ok s = true -> remaining s <> O.
Proof. unfold ok, remaining. destruct (failbit s); [discriminate | intros _; lia]. Qed.

Lemma advances_strict s s' :
  advances s s' -> remaining s <> O -> (remaining s' < remaining s)%nat.
Proof. intros [_ [H | H]] Hne; [contradiction | exact H]. Qed.

(** [parseExpr] and the argument loop of [parseCall] return, given fuel in
    proportion to what is left of the text. *)
Lemma parseExpr_parseCall_args_return fuel :
  (forall s, (2 * remaining s + 1 <= fuel)%nat ->
     exists e s', parseExpr fuel s = Ok (e, s') /\ advances s s')
  /\ (forall s acc, (2 * remaining s + 2 <= fuel)%nat ->
     exists l s', parseCall_args fuel s acc = Ok (l, s')
                  /\ (remaining s' <= remaining s)%nat).
Proof.
  induction fuel as [| fuel [IHE IHA]]; [split; intros; lia |].
  split.
  - intros s Hfuel. cbn [parseExpr].
    pose proof (read_string_spec "" s) as [Hadv Hfail].
    destruct (read_string "" s) as [token s1]. cbn [fst snd] in Hadv, Hfail.
    destruct (isdigit (front0 token)); [eauto |].
    destruct (isalpha (front0 token)) eqn:Halpha; [| eauto].
    assert (Hok : ok s1 = true).
    { unfold ok. destruct (failbit s1) eqn:Hf; [| reflexivity].
      rewrite (Hfail eq_refl) in Halpha. discriminate Halpha. }
    pose proof (advances_strict _ _ Hadv) as Hlt.
    pose proof (ok_remaining _ Hok) as Hpos.
    assert (Hs1 : (remaining s1 < remaining s)%nat).
    { apply Hlt. destruct Hadv as [Hle _]. lia. }
    pose proof (peek_remaining s1) as Hpeek.
    destruct (peek s1) as [c s2]. cbn [fst snd] in Hpeek.
    destruct (is_char "(" c).
    + pose proof (read_char_remaining s2) as Hrc.
      destruct (IHA (snd (read_char s2)) []) as (l & s3 & Hargs & Hle3); [lia |].
      rewrite Hargs. pose proof (ignore1_remaining s3) as Hig.
      eexists _, _. split; [reflexivity |]. split; [| right]; cbn [fst snd]; lia.
    + pose proof (tellg_seekg s2) as [Htell Hseek].
      destruct (tellg s2) as [oldpos s3]. cbn [fst snd] in Htell, Hseek.
      pose proof (read_string_spec "" s3) as [[Hle4 _] _].
      destruct (read_string "" s3) as [o s4]. cbn [fst snd] in Hle4.
      destruct (ok s4).
      * destruct (is_operator o).
        -- pose proof (read_string_spec "" s4) as [[Hle5 _] _].
           destruct (read_string "" s4) as [rhs s5]. cbn [fst snd] in Hle5.
           eexists _, _. split; [reflexivity |]. split; [| right]; lia.
        -- specialize (Hseek s4).
           eexists _, _. split; [reflexivity |]. split; [| right]; lia.
      * eexists _, _. split; [reflexivity |]. split; [| right]; lia.
  - intros s acc Hfuel. cbn [parseCall_args].
    pose proof (peek_remaining s) as Hpeek.
    destruct (peek s) as [c s1]. cbn [fst snd] in Hpeek.
    destruct (is_char ")" c); [eexists _, _; split; [reflexivity | lia] |].
    pose proof (ws_remaining s1) as Hws.
    destruct (ok (ws s1)) eqn:Hok; [| eexists _, _; split; [reflexivity | lia]].
    destruct (IHE (ws s1)) as (e & s3 & He & Hadv); [lia |].
    rewrite He. rewrite bind_Ok_l. cbn [fst snd].
    pose proof (advances_strict _ _ Hadv (ok_remaining _ Hok)) as Hlt.
    pose proof (peek_remaining s3) as Hpeek3.
    destruct (peek s3) as [c' s4]. cbn [fst snd] in Hpeek3.
    pose proof (ignore1_remaining s4) as Hig.
    destruct (IHA (if is_char "," c' then ignore1 s4 else s4) (acc ++ [e]))
      as (l & s6 & Hl & Hle6).
    { destruct (is_char "," c'); lia. }
    rewrite Hl. eexists _, _. split; [reflexivity |].
    destruct (is_char "," c'); lia.
Qed.

Lemma parseCall_return fuel funcName s :
  (2 * remaining s + 2 <= fuel)%nat ->
  exists e s', parseCall fuel funcName s = Ok (e, s')
               /\ (remaining s' <= remaining s)%nat.
Proof.
  intros Hfuel. unfold parseCall.
  pose proof (read_char_remaining s) as Hrc.
  destruct (proj2 (parseExpr_parseCall_args_return fuel) (snd (read_char s)) [])
    as (l & s1 & Hargs & Hle); [lia |].
  rewrite Hargs. pose proof (ignore1_remaining s1) as Hig.
  eexists _, _. split; [reflexivity |]. cbn [fst snd]. lia.
Qed.

Lemma parseValDecl_return fuel s :
  (2 * remaining s + 1 <= fuel)%nat ->
  exists e s', parseValDecl fuel s = Ok (e, s')
               /\ (remaining s' <= remaining s)%nat.
Proof.
  intros Hfuel. unfold parseValDecl.
  pose proof (read_string_spec "" s) as [[Hle1 _] _].
  destruct (read_string "" s) as [name s1]. cbn [fst snd] in Hle1.
  pose proof (ignore1_remaining s1) as Hle2.
  pose proof (read_string_spec "" (ignore1 s1)) as [[Hle3 _] _].
  destruct (read_string "" (ignore1 s1)) as [type s3]. cbn [fst snd] in Hle3.
  pose proof (ignore1_remaining s3) as Hle4.
  destruct (proj1 (parseExpr_parseCall_args_return fuel) (ignore1 s3))
    as (e & s5 & He & [Hle5 _]); [lia |].
  rewrite He. eexists _, _. split; [reflexivity |]. cbn [fst snd]. lia.
Qed.

Lemma returns_within_le {A} (r : outcome (A * istream)) b b' :
  returns_within b r -> (b <= b')%nat -> returns_within b' r.
Proof. destruct r as [[a s'] | | | |]; simpl; try tauto. lia. Qed.

Lemma parseFunction_params_return fuel :
  forall s param acc,
    (2 * remaining s + 2 <= fuel)%nat ->
    returns_within (remaining s) (parseFunction_params fuel s param acc).
Proof.
  induction fuel as [| fuel IH]; intros s param acc Hfuel; [lia |].
  cbn [parseFunction_params].
  pose proof (peek_remaining s) as Hpeek.
  destruct (peek s) as [c s1]. cbn [fst snd] in Hpeek.
  destruct (is_char ")" c); [simpl; lia |].
  pose proof (ws_remaining s1) as Hws.
  destruct (ok (ws s1)) eqn:Hok; [| simpl; lia].
  pose proof (read_string_spec param (ws s1)) as [Hadv _].
  pose proof (advances_strict _ _ Hadv (ok_remaining _ Hok)) as Hlt.
  destruct (read_string param (ws s1)) as [param' s3]. cbn [fst snd] in Hadv, Hlt.
  destruct (str_back param'); [| exact I].
  eapply returns_within_le; [apply IH |]; lia.
Qed.

Lemma parseFunction_body_return fuel :
  forall s token acc,
    (2 * remaining s + 2 <= fuel)%nat ->
    returns_within (remaining s) (parseFunction_body fuel s token acc).
Proof.
  induction fuel as [| fuel IH]; intros s token acc Hfuel; [lia |].
  cbn [parseFunction_body].
  pose proof (read_string_spec token s) as [Hadv _].
  destruct (read_string token s) as [token' s1]. cbn [fst snd] in Hadv.
  destruct (ok s1) eqn:Hok; [| simpl; destruct Hadv; lia].
  assert (Hs1 : (remaining s1 < remaining s)%nat).
  { apply (advances_strict _ _ Hadv). pose proof (ok_remaining _ Hok).
    destruct Hadv. lia. }
  destruct (negb (bool_decide (token' = "}"))); [| simpl; lia]. cbn [andb].
  destruct (bool_decide (token' = "val")).
  { destruct (parseValDecl_return fuel s1) as (e & s2 & He & Hle); [lia |].
    rewrite He, bind_Ok_l. cbn [fst snd].
    eapply returns_within_le; [apply IH |]; lia. }
  destruct (bool_decide (token' = "call")).
  { pose proof (read_string_spec "" s1) as [[Hle1 _] _].
    destruct (read_string "" s1) as [fname s2]. cbn [fst snd] in Hle1.
    destruct (parseCall_return fuel fname s2) as (e & s3 & He & Hle); [lia |].
    rewrite He, bind_Ok_l. cbn [fst snd].
    eapply returns_within_le; [apply IH |]; lia. }
  eapply returns_within_le; [apply IH |]; lia.
Qed.

Lemma parseFunction_return fuel s :
  (2 * remaining s + 2 <= fuel)%nat ->
  returns_within (remaining s) (parseFunction fuel s).
Proof.
  intros Hfuel. unfold parseFunction.
  pose proof (read_string_spec "" s) as [[Hle1 _] _].
  destruct (read_string "" s) as [name s1]. cbn [fst snd] in Hle1.
  pose proof (read_string_spec "" s1) as [[Hle2 _] _].
  destruct (read_string "" s1) as [param s2]. cbn [fst snd] in Hle2.
  pose proof (parseFunction_params_return fuel s2 param [] ltac:(lia)) as Hps.
  destruct (parseFunction_params fuel s2 param []) as [[ps s3] | | | |];
    simpl in Hps; try contradiction; [| exact I].
  rewrite bind_Ok_l. cbn [fst snd].
  pose proof (ignore1_remaining s3) as Hle4.
  pose proof (read_string_spec "" (ignore1 s3)) as [[Hle5 _] _].
  destruct (read_string "" (ignore1 s3)) as [brace s5]. cbn [fst snd] in Hle5.
  pose proof (parseFunction_body_return fuel s5 "" [] ltac:(lia)) as Hb.
  destruct (parseFunction_body fuel s5 "" []) as [[b s6] | | | |];
    simpl in Hb; try contradiction; [| exact I].
  simpl. lia.
Qed.

Lemma parse_statements_return fuel :
  forall s token program,
    (2 * remaining s + 2 <= fuel)%nat ->
    settles (parse_statements fuel s token program).
Proof.
  induction fuel as [| fuel IH]; intros s token program Hfuel; [lia |].
  cbn [parse_statements].
  pose proof (read_string_spec token s) as [Hadv _].
  destruct (read_string token s) as [token' s1]. cbn [fst snd] in Hadv.
  destruct (ok s1) eqn:Hok; [| exact I].
  assert (Hs1 : (remaining s1 < remaining s)%nat).
  { apply (advances_strict _ _ Hadv). pose proof (ok_remaining _ Hok).
    destruct Hadv. lia. }
  destruct (bool_decide (token' = "val")).
  { destruct (parseValDecl_return fuel s1) as (e & s2 & He & Hle); [lia |].
    rewrite He, bind_Ok_l. cbn [fst snd]. apply IH. lia. }
  destruct (bool_decide (token' = "func")).
  { pose proof (parseFunction_return fuel s1 ltac:(lia)) as Hf.
    destruct (parseFunction fuel s1) as [[f s2] | | | |];
      simpl in Hf; try contradiction; [| exact I].
    rewrite bind_Ok_l. cbn [fst snd]. apply IH. lia. }
  destruct (bool_decide (token' = "call")).
  { pose proof (read_string_spec "" s1) as [[Hle1 _] _].
    destruct (read_string "" s1) as [fname s2]. cbn [fst snd] in Hle1.
    destruct (parseCall_return fuel fname s2) as (e & s3 & He & Hle); [lia |].
    rewrite He, bind_Ok_l. cbn [fst snd]. apply IH. lia. }
  apply IH. lia.
Qed.

(** *** A declaration at the end of the text *)

Lemma not_keyword w :
  w ∉ ["val"; "func"; "call"] -> w <> "val" /\ w <> "func" /\ w <> "call".
Proof.
  intros H. repeat split; intros ->; apply H.
  - apply list_elem_of_here.
  - apply list_elem_of_further, list_elem_of_here.
  - do 2 apply list_elem_of_further. apply list_elem_of_here.
Qed.

Lemma parseExpr_exhausted fuel s :
  failbit s = true \/ in_order s -> pending s = [] ->
  exists s', parseExpr (S fuel) s = Ok (ASTLiteral "", s') /\ failbit s' = true.
Proof.
  intros Hs Hnone. cbn [parseExpr].
  pose proof (read_string_pending "" s Hs) as Hread. rewrite Hnone in Hread.
  destruct (read_string "" s) as [token s1]. cbn [fst snd] in Hread.
  destruct Hread as [-> Hf]. exists s1. split; [reflexivity | exact Hf].
Qed.

(** Each part of a declaration is the next word of the text, and empty
    text when there is none. *)
Lemma parseValDecl_trailing fuel s :
  failbit s = true \/ in_order s -> (length (pending s) <= 2)%nat ->
  exists s',
    parseValDecl (S fuel) s =
      Ok (ASTValDecl (nth 0 (pending s) "") (nth 1 (pending s) "")
            (Some (ASTLiteral "")), s')
    /\ failbit s' = true.
Proof.
  intros Hs Hlen. unfold parseValDecl.
  pose proof (read_string_pending "" s Hs) as Hname.
  pose proof (read_string_at_gap "" s) as Hgap1.
  destruct (read_string "" s) as [name s1]. cbn [fst snd] in Hname, Hgap1.
  assert (H1 : name = nth 0 (pending s) ""
               /\ (failbit s1 = true \/ in_order s1)
               /\ pending s1 = tail (pending s)).
  { destruct (pending s) as [| w rest].
    - destruct Hname as [-> Hf]. split; [reflexivity |]. split; [left; exact Hf |].
      unfold pending. rewrite Hf. reflexivity.
    - destruct Hname as (-> & Hs1 & Hrest). split; [reflexivity |].
      split; [right; exact Hs1 | exact Hrest]. }
  destruct H1 as (-> & Hs1 & Hp1).
  destruct (ignore1_pending s1 Hs1 Hgap1) as [Hs2 Hp2].
  pose proof (read_string_pending "" (ignore1 s1) Hs2) as Htype.
  pose proof (read_string_at_gap "" (ignore1 s1)) as Hgap3.
  destruct (read_string "" (ignore1 s1)) as [type s3]. cbn [fst snd] in Htype, Hgap3.
  rewrite Hp2, Hp1 in Htype.
  assert (H3 : type = nth 1 (pending s) ""
               /\ (failbit s3 = true \/ in_order s3)
               /\ pending s3 = []).
  { destruct (pending s) as [| w [| w' rest]]; cbn [tail] in Htype.
    - destruct Htype as [-> Hf]. split; [reflexivity |]. split; [left; exact Hf |].
      unfold pending. rewrite Hf. reflexivity.
    - destruct Htype as [-> Hf]. split; [reflexivity |]. split; [left; exact Hf |].
      unfold pending. rewrite Hf. reflexivity.
    - destruct Htype as (-> & Hs3 & Hrest). split; [reflexivity |].
      split; [right; exact Hs3 |]. rewrite Hrest.
      destruct rest; [reflexivity | simpl in Hlen; lia]. }
  destruct H3 as (-> & Hs3 & Hp3).
  destruct (ignore1_pending s3 Hs3 Hgap3) as [Hs4 Hp4]. rewrite Hp3 in Hp4.
  destruct (parseExpr_exhausted fuel (ignore1 s3) Hs4 Hp4) as (s5 & He & Hf5).
  rewrite He, bind_Ok_l. exists s5. split; [reflexivity | exact Hf5].
Qed.

Lemma parse_statements_trailing_val fuel :
  forall s token program skipped rest,
    in_order s -> (remaining s <= fuel)%nat ->
    pending s = skipped ++ "val" :: rest ->
    (forall w, w ∈ skipped -> w ∉ ["val"; "func"; "call"]) ->
    (length rest <= 2)%nat ->
    parse_statements fuel s token program =
      Ok {| statements :=
              statements program ++
              [ASTValDecl (nth 0 rest "") (nth 1 rest "") (Some (ASTLiteral ""))];
            ast_functions := ast_functions program |}.
Proof.
  induction fuel as [| fuel IH];
    intros s token program skipped rest Hs Hfuel Hwords Hskipped Hrest.
  { unfold remaining in Hfuel. rewrite (proj1 Hs) in Hfuel. lia. }
  cbn [parse_statements].
  pose proof (read_string_pending token s (or_intror Hs)) as Hread.
  pose proof (read_string_spec token s) as [Hadv _].
  destruct (read_string token s) as [token1 s1]. cbn [fst snd] in Hread, Hadv.
  assert (Hlt : (remaining s1 < remaining s)%nat).
  { apply (advances_strict _ _ Hadv). unfold remaining. rewrite (proj1 Hs). lia. }
  rewrite Hwords in Hread.
  destruct skipped as [| w skipped]; cbn [app] in Hread;
    destruct Hread as (-> & Hs1 & Hp1);
    rewrite ok_failbit, (proj1 Hs1); cbn [negb].
  - rewrite bool_decide_eq_true_2 by reflexivity.
    assert (Hfuel1 : exists fuel', fuel = S fuel').
    { destruct fuel as [| fuel']; [| eauto].
      unfold remaining in Hlt, Hfuel. rewrite (proj1 Hs1) in Hlt. lia. }
    destruct Hfuel1 as [fuel' ->].
    destruct (parseValDecl_trailing fuel' s1 (or_intror Hs1)) as (s' & Hdecl & Hf');
      [rewrite Hp1; exact Hrest |].
    rewrite Hp1 in Hdecl. rewrite Hdecl, bind_Ok_l. cbn [fst snd].
    cbn [parse_statements]. rewrite (read_string_failed _ s' Hf'), ok_failbit, Hf'.
    reflexivity.
  - destruct (not_keyword w) as (Hval & Hfunc & Hcall);
      [apply Hskipped; apply list_elem_of_here |].
    rewrite !bool_decide_eq_false_2 by assumption.
    apply (IH s1 w program skipped rest Hs1); [lia | exact Hp1 | | exact Hrest].
    intros w' Hw'. apply Hskipped. apply list_elem_of_further. exact Hw'.
Qed.

(** C5, amended: [parse] raises no error on any source text.  It
    terminates and comes back with a program, or it runs into the undefined
    [param.back()] of the parameter loop; it throws nothing.  No part of a
    statement is checked for: when the words before a [val] start no
    statement, they are skipped, and when at most two words follow it, the
    program is that one declaration, its name and type the words that
    follow, with empty text where the text has ended, and its initializer
    the literal with empty text. *)
Theorem C5_parse_raises_no_error (src : string) :
  ((exists program, parse src = Ok program) \/ parse src = Undefined)
  /\ (forall skipped rest,
        words src = skipped ++ "val" :: rest ->
        (forall w, w ∈ skipped -> w ∉ ["val"; "func"; "call"]) ->
        (length rest <= 2)%nat ->
        parse src =
          Ok (program_of
                [ASTValDecl (nth 0 rest "") (nth 1 rest "") (Some (ASTLiteral ""))])).
Proof.
  split.
  - pose proof (parse_statements_return (parse_fuel src) (istringstream src) ""
                  {| statements := []; ast_functions := ∅ |}) as H.
    unfold parse. destruct (parse_statements _ _ _ _) as [program | | | |].
    + left. exists program. reflexivity.
    + exfalso. apply H. unfold parse_fuel, remaining. simpl. lia.
    + right. reflexivity.
    + exfalso. apply H. unfold parse_fuel, remaining. simpl. lia.
    + exfalso. apply H. unfold parse_fuel, remaining. simpl. lia.
  - intros skipped rest Hwords Hskipped Hrest. unfold parse.
    rewrite (parse_statements_trailing_val _ _ _ _ skipped rest);
      try assumption; try reflexivity.
    + split; [reflexivity | discriminate].
    + unfold parse_fuel, remaining. simpl. lia.
Qed.

Lemma C5_witness :
  words "loop 0 5 { } val x" = ["loop"; "0"; "5"; "{"; "}"] ++ "val" :: ["x"]
  /\ parse "loop 0 5 { } val x" =
       Ok (program_of [ASTValDecl "x" "" (Some (ASTLiteral ""))]).
Proof.
  assert (Hwords : words "loop 0 5 { } val x"
                   = ["loop"; "0"; "5"; "{"; "}"] ++ "val" :: ["x"])
    by (vm_compute; reflexivity).
  split; [exact Hwords |].
  apply (proj2 (C5_parse_raises_no_error "loop 0 5 { } val x")
           ["loop"; "0"; "5"; "{"; "}"] ["x"] Hwords).
  - intros w Hw Hin.
    repeat (apply elem_of_cons in Hw as [-> | Hw];
            [repeat (apply elem_of_cons in Hin as [Hin | Hin]; [discriminate Hin |]);
             inversion Hin |]).
    inversion Hw.
  - simpl. lia.
Defined.

(** C5, as stated, fails: [val] with nothing after it, and a [loop] with no
    [to], are parsed without any error. *)
Lemma C5_counterexample_missing_parts_parse :
  parse "val" =
    Ok {| statements := [ASTValDecl "" "" (Some (ASTLiteral ""))];
          ast_functions := ∅ |}
  /\ parse "loop 0 5 { }" = Ok {| statements := []; ast_functions := ∅ |}.
Proof. split; vm_compute; reflexivity. Qed.

(** The one way out of [parse] that is not a program: after the lone comma
    is popped off, the next [in >> param] fails at the end of the text and
    [param.back()] is applied to the empty string. *)
Example parse_parameter_loop_undefined : parse "func f ( , " = Undefined.
Proof. vm_compute. reflexivity. Qed.


Lemma call_unfold prog fuel name actual st :
  call prog fuel name actual st =
    r ← call_frame prog fuel name actual st;
    st' ← pop_back (snd r);
    Ok (fst r, st').
Proof.
  unfold call_frame. destruct fuel as [| fuel']; simpl;
    destruct (functions prog !! name) as [fn |]; try reflexivity.
  destruct (bind_params (params fn) actual 0 new_frame); reflexivity.
Qed.

(** C1, amended: for every integer literal [n] in the range of [int],
    lowering [val x as int: n] and interpreting the program leaves [x]
    bound to [n] in the frame [_main] executes in, and [execMain] returns. *)
Theorem C1_literal_roundtrip_in_int_range (x : string) (n : Z) (fuel : nat) :
  INT_MIN <= n <= INT_MAX ->
  let prog := lower (program_of [int_decl x n]) in
  call_frame prog (S fuel) "_main" [] interp0 =
    Ok (0, {| callStack := [ {| vars := {[ x := n ]}; retAddr := -1 |} ]; cout := [] |})
  /\ execMain prog (S fuel) = Ok (0, interp0).
Proof.
  intros Hn prog.
  assert (Hframe : call_frame prog (S fuel) "_main" [] interp0 =
    Ok (0, {| callStack := [ {| vars := {[ x := n ]}; retAddr := -1 |} ]; cout := [] |})).
  { unfold call_frame, prog, lower, program_of, int_decl. simpl.
    rewrite lookup_insert_eq. simpl.
    unfold execFunc. simpl. unfold step. simpl.
    rewrite (stoi_to_string n Hn). simpl.
    unfold assign. simpl. rewrite insert_insert_eq. reflexivity. }
  split; [exact Hframe |].
  unfold execMain. rewrite call_unfold, Hframe. reflexivity.
Qed.

(** C1, as stated, fails beyond [int]: the literal [2147483648] makes
    [std::stoi] throw, and nothing is bound to that number. *)
Lemma C1_counterexample_literal_beyond_int :
  to_string 2147483648 = "2147483648" /\
  call_frame (lower (program_of [int_decl "x" 2147483648])) 1 "_main" [] interp0
    = Throw (out_of_range "stoi") /\
  execMain (lower (program_of [int_decl "x" 2147483648])) 1
    = Throw (out_of_range "stoi").
Proof. repeat split; vm_compute; reflexivity. Qed.

Lemma C1_witness :
  INT_MIN <= -42 <= INT_MAX /\
  call_frame (lower (program_of [int_decl "x" (-42)])) 1 "_main" [] interp0 =
    Ok (0, {| callStack := [ {| vars := {[ "x" := -42 ]}; retAddr := -1 |} ]; cout := [] |})
  /\ execMain (lower (program_of [int_decl "x" (-42)])) 1 = Ok (0, interp0).
Proof.
  assert (H : INT_MIN <= -42 <= INT_MAX) by (unfold INT_MIN, INT_MAX; lia).
  split; [exact H |].
  exact (C1_literal_roundtrip_in_int_range "x" (-42) 0 H).
Defined.

(** *** Operand resolution *)

Lemma find_binding_app l1 l2 name :
  find_binding (l1 ++ l2) name =
    match find_binding l1 name with
    | Some v => Some v
    | None => find_binding l2 name
    end.
Proof.
  induction l1 as [| fr l1 IH]; simpl; [reflexivity |].
  destruct (vars fr !! name); [reflexivity | exact IH].
Qed.

Lemma find_binding_None frames name :
  (forall f, f ∈ frames -> vars f !! name = None) -> find_binding frames name = None.
Proof.
  induction frames as [| fr frames IH]; intros H; simpl; [reflexivity |].
  rewrite (H fr) by (left; reflexivity).
  apply IH. intros f Hf. apply H. right. exact Hf.
Qed.

Lemma valueOf_scan st older fr newer name v :
  callStack st = older ++ fr :: newer ->
  vars fr !! name = Some v ->
  (forall f, f ∈ newer -> vars f !! name = None) ->
  valueOf st name = Ok v.
Proof.
  intros Hcs Hfr Hnewer. unfold valueOf.
  rewrite Hcs, rev_app_distr. simpl. rewrite <- app_assoc. simpl.
  rewrite find_binding_app, find_binding_None.
  - simpl. rewrite Hfr. reflexivity.
  - intros f Hf. apply Hnewer. apply list_elem_of_In. apply in_rev.
    apply list_elem_of_In. exact Hf.
Qed.

Lemma valueOf_unbound st name :
  (forall f, f ∈ callStack st -> vars f !! name = None) ->
  valueOf st name = stoi name.
Proof.
  intros H. unfold valueOf. rewrite find_binding_None; [reflexivity |].
  intros f Hf. apply H. apply list_elem_of_In. apply in_rev.
  apply list_elem_of_In. exact Hf.
Qed.

Lemma valuesOf_each st names :
  forall vs, valuesOf st names = Ok vs ->
             Forall2 (fun name v => valueOf st name = Ok v) names vs.
Proof.
  induction names as [| name names IH]; intros vs H; simpl in H.
  - inversion H; subst. constructor.
  - bind_inv H as v Hv. bind_inv H as vs' Hvs'. inversion H; subst.
    constructor; [exact Hv | apply IH; exact Hvs'].
Qed.

(** C10: where operand names are resolved against the frames, and where
    they are not.  [valueOf] scans the frames from the most recently
    pushed one to the oldest, the first binding found wins, and a name no
    frame binds is read as a literal; [Add] and [Call] read every operand
    this way, so a callee reads a variable that only a caller's frame
    binds.  [Store] reads its operand without any scan: the name [a],
    bound to 5 in the caller's frame, is handed to [std::stoi], which
    throws; so does the program read from [val _y int 5 val x int _y]. *)
Theorem C10_store_operand_skips_the_scan :
  (forall st older fr newer name v,
      callStack st = older ++ fr :: newer ->
      vars fr !! name = Some v ->
      (forall f, f ∈ newer -> vars f !! name = None) ->
      valueOf st name = Ok v)
  /\ (forall st name,
      (forall f, f ∈ callStack st -> vars f !! name = None) ->
      valueOf st name = stoi name)
  /\ (forall call_rec st d a b,
      step call_rec {| op := Add; args := [d; a; b] |} st =
        va ← valueOf st a; vb ← valueOf st b; sum ← int_add va vb; assign d sum st)
  /\ (forall call_rec st f operands st',
      step call_rec {| op := Call; args := f :: operands |} st = Ok st' ->
      exists actual,
        Forall2 (fun name v => valueOf st name = Ok v) operands actual)
  /\ (forall call_rec st d a,
      step call_rec {| op := Store; args := [d; a] |} st = v ← stoi a; assign d v st)
  /\ (let st := {| callStack := [ {| vars := {[ "a" := 5 ]}; retAddr := -1 |};
                                  {| vars := ∅; retAddr := -1 |} ];
                   cout := [] |} in
      valueOf st "a" = Ok 5
      /\ (forall call_rec,
            step call_rec {| op := Add; args := ["y"; "a"; "0"] |} st
              = Ok {| callStack := [ {| vars := {[ "a" := 5 ]}; retAddr := -1 |};
                                     {| vars := {[ "y" := 5 ]}; retAddr := -1 |} ];
                      cout := [] |})
      /\ (forall call_rec,
            step call_rec {| op := Store; args := ["y"; "a"] |} st
              = Throw (invalid_argument "stoi")))
  /\ execMain
       (lower (program_of
          [ ASTFunction "f" []
              [ ASTValDecl "y" "int" (Some (ASTBinary "a" "+" "0"));
                ASTCall "say" [ASTVar "y"] ];
            ASTValDecl "a" "int" (Some (ASTLiteral "5"));
            ASTCall "f" [] ])) 2
     = Ok (0, {| callStack := []; cout := [5] |})
  /\ execMain
       (lower (program_of
          [ ASTFunction "f" []
              [ ASTValDecl "y" "int" (Some (ASTVar "a"));
                ASTCall "say" [ASTVar "y"] ];
            ASTValDecl "a" "int" (Some (ASTLiteral "5"));
            ASTCall "f" [] ])) 2
     = Throw (invalid_argument "stoi")
  /\ (program ← parse "val _y int 5 val x int _y"; execMain (lower program) 1)
     = Throw (invalid_argument "stoi").
Proof.
  split; [exact valueOf_scan |]. split; [exact valueOf_unbound |].
  split; [| split; [| split; [| split; [| split; [| split]]]]].
  - intros call_rec st d a b. unfold step. simpl.
    destruct (valueOf st a) as [va | | | |]; reflexivity.
  - intros call_rec st f operands st' H. unfold step in H. simpl in H.
    bind_inv H as actual Hactual. exists actual.
    apply valuesOf_each. exact Hactual.
  - intros call_rec st d a. unfold step. simpl.
    destruct (stoi a); reflexivity.
  - repeat split; intros; vm_compute; reflexivity.
  - vm_compute. reflexivity.
  - vm_compute. reflexivity.
  - vm_compute. reflexivity.
Qed.

(** C2: what [Store] does with its source operand.  It hands the text to
    [std::stoi] and never looks at a frame, while [Add] on the same state
    resolves the same name through [valueOf]; the IR that lowering emits
    for [val y as int: x] therefore throws. *)
Theorem C2_store_reads_literals_only :
  (forall call_rec a0 a1 st,
      step call_rec {| op := Store; args := [a0; a1] |} st =
        v ← stoi a1; assign a0 v st)
  /\ (let st := {| callStack := [ {| vars := {[ "x" := 7 ]}; retAddr := -1 |} ];
                   cout := [] |} in
      valueOf st "x" = Ok 7 /\
      (forall call_rec,
          step call_rec {| op := Store; args := ["y"; "x"] |} st
            = Throw (invalid_argument "stoi")) /\
      (forall call_rec,
          step call_rec {| op := Add; args := ["y"; "x"; "0"] |} st
            = Ok {| callStack := [ {| vars := <[ "y" := 7 ]> {[ "x" := 7 ]};
                                      retAddr := -1 |} ];
                    cout := [] |}))
  /\ execMain
       (lower (program_of
          [ ASTFunction "f" ["x"] [ ASTValDecl "y" "int" (Some (ASTVar "x")) ];
            ASTCall "f" [ASTLiteral "7"] ])) 2
     = Throw (invalid_argument "stoi").
Proof.
  split; [| split; [| ]].
  - intros call_rec a0 a1 st. unfold step. simpl.
    destruct (stoi a1); reflexivity.
  - repeat split; intros; vm_compute; reflexivity.
  - vm_compute. reflexivity.
Qed.

(** *** Calls *)

Lemma exec_instrs_app call_rec before after st :
  exec_instrs call_rec (before ++ after) st =
    st' ← exec_instrs call_rec before st; exec_instrs call_rec after st'.
Proof.
  revert st. induction before as [| instr before IH]; intros st; simpl; [reflexivity |].
  destruct (step call_rec instr st); simpl; try reflexivity. apply IH.
Qed.

(** C6: a call whose target is absent from the program's function map throws
    [std::runtime_error] with the message ["No such function: " + name];
    the exception leaves [step], the instruction list and the calling
    function unhandled. *)
Theorem C6_undefined_function (prog : IRProgram) (fuel : nat) (name : string)
    (actual : list Z) (st : IRInterpreter) :
  functions prog !! name = None ->
  let err := runtime_error ("No such function: " +:+ name) in
  call prog fuel name actual st = Throw err
  /\ (forall operands,
        name <> "say" -> valuesOf st operands = Ok actual ->
        step (call prog fuel) {| op := Call; args := name :: operands |} st = Throw err)
  /\ (forall operands before after st0,
        name <> "say" -> valuesOf st operands = Ok actual ->
        exec_instrs (call prog fuel) before st0 = Ok st ->
        exec_instrs (call prog fuel)
          (before ++ {| op := Call; args := name :: operands |} :: after) st0 = Throw err)
  /\ (forall caller fn actual' frame st0 e,
        functions prog !! caller = Some fn ->
        bind_params (params fn) actual' 0 new_frame = Ok frame ->
        exec_blocks (call prog fuel) (blocks fn) (push_back frame st0) = Throw e ->
        call prog (S fuel) caller actual' st0 = Throw e).
Proof.
  intros Hmissing err.
  assert (Hcall : call prog fuel name actual st = Throw err).
  { destruct fuel; simpl; rewrite Hmissing; reflexivity. }
  assert (Hstep : forall operands,
             name <> "say" -> valuesOf st operands = Ok actual ->
             step (call prog fuel) {| op := Call; args := name :: operands |} st = Throw err).
  { intros operands Hsay Hvals. unfold step. simpl. rewrite Hvals. simpl.
    destruct (decide (name = "say")) as [Heq | _]; [contradiction |].
    rewrite Hcall. reflexivity. }
  split; [exact Hcall | split; [exact Hstep | split]].
  - intros operands before after st0 Hsay Hvals Hbefore.
    rewrite exec_instrs_app, Hbefore. simpl.
    rewrite (Hstep operands Hsay Hvals). reflexivity.
  - intros caller fn actual' frame st0 e Hfn Hbind Hbody.
    simpl. rewrite Hfn, Hbind. simpl. unfold execFunc. rewrite Hbody. reflexivity.
Qed.

Lemma C6_witness :
  functions (lower (program_of [ASTCall "g" [ASTLiteral "1"]])) !! "g" = None /\
  call (lower (program_of [ASTCall "g" [ASTLiteral "1"]])) 1 "g" [1] interp0
    = Throw (runtime_error "No such function: g").
Proof.
  assert (Hmissing :
    functions (lower (program_of [ASTCall "g" [ASTLiteral "1"]])) !! "g" = None)
    by (vm_compute; reflexivity).
  split; [exact Hmissing |].
  destruct (C6_undefined_function _ 1 "g" [1] interp0 Hmissing) as [Hcall _].
  exact Hcall.
Defined.

(** *** Stack discipline *)

Lemma assign_above below st name v st' :
  one_frame_above below st -> assign name v st = Ok st' -> one_frame_above below st'.
Proof.
  intros [fr Hcs] H. unfold assign in H. rewrite Hcs, last_snoc in H.
  inversion H; subst st'; clear H. simpl.
  rewrite removelast_last. eexists. reflexivity.
Qed.

Lemma pop_back_above below st :
  one_frame_above below st ->
  pop_back st = Ok {| callStack := below; cout := cout st |}.
Proof.
  intros [fr Hfr]. unfold pop_back. rewrite Hfr.
  destruct (below ++ [fr]) eqn:E.
  - destruct below; discriminate E.
  - rewrite <- E, removelast_last. reflexivity.
Qed.

Section StackDiscipline.

Variable call_rec : string -> list Z -> IRInterpreter -> outcome (Z * IRInterpreter).

(** What [step] needs of the calls it makes: a call that returns hands
    the stack back as it received it. *)
Hypothesis call_rec_restores :
  forall name actual st r st',
    call_rec name actual st = Ok (r, st') -> callStack st' = callStack st.

Lemma step_above below instr st st' :
  one_frame_above below st -> step call_rec instr st = Ok st' ->
  one_frame_above below st'.
Proof.
  intros Habove H. unfold step in H.
  destruct (op instr).
  - bind_inv H as a0 Ha0. eapply assign_above; eassumption.
  - bind_inv H as a1 Ha1. bind_inv H as v Hv. bind_inv H as a0 Ha0.
    eapply assign_above; eassumption.
  - inversion H; subst; assumption.
  - bind_inv H as a1 Ha1. bind_inv H as v1 Hv1. bind_inv H as a2 Ha2.
    bind_inv H as v2 Hv2. bind_inv H as sum Hsum. bind_inv H as a0 Ha0.
    eapply assign_above; eassumption.
  - bind_inv H as actual Hactual. bind_inv H as a0 Ha0.
    destruct (decide (a0 = "say")).
    + inversion H; subst st'; clear H. exact Habove.
    + bind_inv H as res Hres. inversion H; subst st'; clear H.
      destruct res as [r st1]. simpl.
      destruct Habove as [fr Hfr]. exists fr.
      rewrite (call_rec_restores _ _ _ _ _ Hres). exact Hfr.
  - inversion H; subst; assumption.
  - inversion H; subst; assumption.
Qed.

Lemma exec_instrs_above below ins :
  forall st st', one_frame_above below st ->
    exec_instrs call_rec ins st = Ok st' -> one_frame_above below st'.
Proof.
  induction ins as [| instr ins IH]; intros st st' Habove H; simpl in H.
  - inversion H; subst; assumption.
  - bind_inv H as st1 Hst1. eapply IH; [| exact H]. eapply step_above; eassumption.
Qed.

Lemma exec_blocks_above below bs :
  forall st st', one_frame_above below st ->
    exec_blocks call_rec bs st = Ok st' -> one_frame_above below st'.
Proof.
  induction bs as [| block bs IH]; intros st st' Habove H; simpl in H.
  - inversion H; subst; assumption.
  - bind_inv H as st1 Hst1. eapply IH; [| exact H]. eapply exec_instrs_above; eassumption.
Qed.

End StackDiscipline.

Lemma call_restores prog fuel :
  forall name actual st r st',
    call prog fuel name actual st = Ok (r, st') -> callStack st' = callStack st.
Proof.
  induction fuel as [| fuel IH]; intros name actual st r st' H; simpl in H;
    destruct (functions prog !! name) as [fn |]; try discriminate H.
  bind_inv H as frame Hframe. bind_inv H as res Hres. bind_inv H as st2 Hst2.
  inversion H; subst; clear H.
  unfold execFunc in Hres. bind_inv Hres as inside Hinside.
  inversion Hres; subst res; clear Hres. simpl in *.
  assert (Habove : one_frame_above (callStack st) inside).
  { eapply (exec_blocks_above (call prog fuel) IH); [| exact Hinside].
    exists frame. reflexivity. }
  rewrite (pop_back_above _ _ Habove) in Hst2.
  inversion Hst2; subst st'; reflexivity.
Qed.

Lemma bind_params_spec ps actual :
  forall idx frame0 frame,
    bind_params ps actual idx frame0 = Ok frame ->
    (forall i p, ps !! i = Some p -> p ∉ drop (S i) ps ->
                 vars frame !! p = actual !! (idx + i)%nat)
    /\ (forall y, y ∉ ps -> vars frame !! y = vars frame0 !! y).
Proof.
  induction ps as [| p0 ps IH]; intros idx frame0 frame H; simpl in H.
  - inversion H; subst. split; [intros i p Hi; discriminate Hi | reflexivity].
  - bind_inv H as v Hv. apply at_index_Ok in Hv.
    destruct (IH _ _ _ H) as [Hpos Hother]. split.
    + intros [| i] p Hi Hlast; simpl in Hi, Hlast.
      * inversion Hi; subst p0. rewrite Hother by exact Hlast. simpl.
        rewrite lookup_insert_eq, Nat.add_0_r. symmetry. exact Hv.
      * rewrite (Hpos i p Hi Hlast). f_equal. lia.
    + intros y Hy. rewrite Hother.
      * simpl. apply lookup_insert_ne. intros ->. apply Hy. left.
      * intros Hin. apply Hy. right. exact Hin.
Qed.

(** C7: a call that returns has pushed one fresh frame holding the
    positional argument bindings, run the callee with the caller's frames
    untouched below it, and popped it again: the stack after the call is
    the stack before it. *)
Theorem C7_frame_isolation (prog : IRProgram) (fuel : nat) (name : string)
    (actual : list Z) (st : IRInterpreter) (r : Z) (st' : IRInterpreter) :
  call prog fuel name actual st = Ok (r, st') ->
  callStack st' = callStack st
  /\ (forall x, valueOf st' x = valueOf st x)
  /\ exists fn frame inside,
       functions prog !! name = Some fn
       /\ bind_params (params fn) actual 0 new_frame = Ok frame
       /\ (forall i p, params fn !! i = Some p -> p ∉ drop (S i) (params fn) ->
                       vars frame !! p = actual !! i)
       /\ (forall y, y ∉ params fn -> vars frame !! y = None)
       /\ call_frame prog fuel name actual st = Ok (r, inside)
       /\ one_frame_above (callStack st) inside.
Proof.
  intros Hcall.
  assert (Hcs : callStack st' = callStack st) by (eapply call_restores; exact Hcall).
  split; [exact Hcs |]. split.
  { intros x. unfold valueOf. rewrite Hcs. reflexivity. }
  rewrite call_unfold in Hcall.
  bind_inv Hcall as res Hres. bind_inv Hcall as st2 Hst2.
  inversion Hcall; subst; clear Hcall. destruct res as [r inside]. simpl in *.
  pose proof Hres as Hframe. unfold call_frame in Hframe.
  destruct (functions prog !! name) as [fn |]; [| discriminate Hframe].
  destruct fuel as [| fuel]; [discriminate Hframe |].
  bind_inv Hframe as frame Hbind.
  destruct (bind_params_spec _ _ _ _ _ Hbind) as [Hpos Hother].
  exists fn, frame, inside.
  split; [reflexivity |]. split; [exact Hbind |].
  split; [intros i p Hi Hlast; exact (Hpos i p Hi Hlast) |].
  split; [intros y Hy; rewrite (Hother y Hy); reflexivity |].
  split; [exact Hres |].
  - unfold execFunc in Hframe. bind_inv Hframe as inside' Hinside.
    inversion Hframe; subst; clear Hframe.
    eapply (exec_blocks_above (call prog fuel) (call_restores prog fuel)); [| exact Hinside].
    exists frame. reflexivity.
Qed.

Lemma C7_witness :
  let prog := lower (program_of
                [ ASTFunction "f" ["x"]
                    [ ASTValDecl "y" "int" (Some (ASTBinary "x" "+" "1"));
                      ASTCall "say" [ASTVar "y"] ] ]) in
  let caller := {| callStack := [ {| vars := {[ "a" := 1 ]}; retAddr := -1 |} ];
                   cout := [] |} in
  let after := {| callStack := [ {| vars := {[ "a" := 1 ]}; retAddr := -1 |} ];
                  cout := [8] |} in
  call prog 1 "f" [7] caller = Ok (0, after) /\
  callStack after = callStack caller /\
  (forall x, valueOf after x = valueOf caller x) /\
  call_frame prog 1 "f" [7] caller =
    Ok (0, {| callStack := [ {| vars := {[ "a" := 1 ]}; retAddr := -1 |};
                             {| vars := <[ "y" := 8 ]> {[ "x" := 7 ]}; retAddr := -1 |} ];
              cout := [8] |}).
Proof.
  intros prog caller after.
  assert (Hcall : call prog 1 "f" [7] caller = Ok (0, after))
    by (vm_compute; reflexivity).
  destruct (C7_frame_isolation prog 1 "f" [7] caller 0 after Hcall)
    as (Hstack & Hvalues & _).
  split; [exact Hcall |]. split; [exact Hstack |]. split; [exact Hvalues |].
  vm_compute. reflexivity.
Defined.

(** *** Stack slots *)

Lemma slots_of_nil : slots_of [] ∅.
Proof.
  split; [intros i x Hi; discriminate Hi | intros x _; apply lookup_empty].
Qed.

Lemma slots_of_snoc names m x :
  slots_of names m ->
  slots_of (names ++ [x]) (<[x := Z.of_nat (length names)]> m).
Proof.
  intros [Hpos Hnone]. split.
  - intros i y Hi Hlast.
    destruct (decide (i < length names)%nat) as [Hlt | Hge].
    + rewrite lookup_app_l in Hi by exact Hlt.
      rewrite drop_app_le in Hlast by lia.
      apply not_elem_of_app in Hlast as [Hlast Hneq].
      rewrite lookup_insert_ne.
      * apply Hpos; assumption.
      * intros ->. apply Hneq. left.
    + rewrite lookup_app_r in Hi by lia.
      destruct (i - length names)%nat as [| k] eqn:Hk; simpl in Hi; [| discriminate Hi].
      inversion Hi; subst y.
      replace i with (length names) by lia. apply lookup_insert_eq.
  - intros y Hy. apply not_elem_of_app in Hy as [Hy Hneq].
    rewrite lookup_insert_ne.
    + apply Hnone. exact Hy.
    + intros ->. apply Hneq. left.
Qed.

Lemma param_offsets_spec ps :
  forall seen m,
    slots_of seen m ->
    slots_of (seen ++ ps) (fst (param_offsets ps (Z.of_nat (length seen)) m))
    /\ snd (param_offsets ps (Z.of_nat (length seen)) m)
       = Z.of_nat (length (seen ++ ps)).
Proof.
  induction ps as [| p ps IH]; intros seen m Hseen; simpl.
  - rewrite app_nil_r. split; [exact Hseen | reflexivity].
  - pose proof (IH (seen ++ [p]) _ (slots_of_snoc seen m p Hseen)) as Hrec.
    rewrite length_app in Hrec. simpl in Hrec.
    replace (Z.of_nat (length seen + 1)) with (Z.of_nat (length seen) + 1) in Hrec by lia.
    rewrite <- app_assoc in Hrec. exact Hrec.
Qed.

Lemma alloc_names_app ins1 ins2 :
  alloc_names (ins1 ++ ins2) = alloc_names ins1 ++ alloc_names ins2.
Proof.
  induction ins1 as [| [[] [| a l]] ins1 IH]; simpl; rewrite ?IH; reflexivity.
Qed.

Lemma alloc_slots_app ins1 ins2 :
  alloc_slots (ins1 ++ ins2) = alloc_slots ins1 ++ alloc_slots ins2.
Proof.
  induction ins1 as [| [[] [| a [| b l]]] ins1 IH]; simpl; rewrite ?IH; reflexivity.
Qed.

(** Declaring [name] takes the next slot; [rest] is what follows the
    [Alloc] in the entry block and allocates nothing. *)
Lemma building_alloc ps fn entry name rest :
  building ps (fn, entry) ->
  alloc_names rest = [] -> alloc_slots rest = [] ->
  building ps
    (snd (allocateVar fn name),
     (entry ++ [ {| op := Alloc; args := [name; to_string (fst (allocateVar fn name))] |} ])
       ++ rest).
Proof.
  intros (Hps & Hbs & Hslots & Hsize & Halloc) Hrest1 Hrest2. unfold building. simpl.
  rewrite !alloc_names_app, !alloc_slots_app, Hrest1, Hrest2, !app_nil_r. simpl.
  split; [exact Hps |]. split; [exact Hbs |]. split; [| split].
  - rewrite Hsize, app_assoc. apply slots_of_snoc. exact Hslots.
  - rewrite Hsize, !length_app. simpl. lia.
  - rewrite Halloc, length_app. simpl. rewrite seq_app, map_app. simpl.
    rewrite Hsize, length_app. reflexivity.
Qed.

Lemma building_call ps fn entry instr :
  building ps (fn, entry) -> op instr = Call ->
  building ps (fn, entry ++ [instr]).
Proof.
  intros (Hps & Hbs & Hslots & Hsize & Halloc) Hop. unfold building.
  destruct instr as [o a]. simpl in Hop. subst o.
  rewrite alloc_names_app, alloc_slots_app. simpl. rewrite !app_nil_r.
  split; [exact Hps |]. split; [exact Hbs |]. split; [exact Hslots |].
  split; [exact Hsize | exact Halloc].
Qed.

Lemma building_alloc_only ps fn entry name :
  building ps (fn, entry) ->
  building ps
    (snd (allocateVar fn name),
     entry ++ [ {| op := Alloc; args := [name; to_string (fst (allocateVar fn name))] |} ]).
Proof.
  intros Hacc. rewrite <- (app_nil_r (entry ++ _)).
  apply building_alloc; [exact Hacc | reflexivity | reflexivity].
Qed.

Lemma lowerFunction_stmt_building ps acc stmt :
  building ps acc -> building ps (lowerFunction_stmt acc stmt).
Proof.
  destruct acc as [fn entry]. intros Hacc.
  destruct stmt as [v | v | l o r | name type init | f a | f qs b]; try exact Hacc.
  - destruct init as [[v | v | l o r | n t i | f a | f qs b] |];
      first [ exact (building_alloc_only ps fn entry name Hacc)
            | refine (building_alloc ps fn entry name [_] Hacc _ _); reflexivity ].
  - apply (building_call ps fn entry); [exact Hacc | reflexivity].
Qed.

Lemma lower_stmt_building acc stmt :
  building [] acc -> building [] (lower_stmt acc stmt).
Proof.
  destruct acc as [fn entry]. intros Hacc.
  destruct stmt as [v | v | l o r | name type init | f a | f qs b]; try exact Hacc.
  - destruct init as [[v | v | l o r | n t i | f a | f qs b] |];
      first [ exact (building_alloc_only [] fn entry name Hacc)
            | refine (building_alloc [] fn entry name [_] Hacc _ _); reflexivity ].
  - apply (building_call [] fn entry); [exact Hacc | reflexivity].
Qed.

Lemma fold_left_building ps (f : IRFunction * list IRInstr -> ASTExpr -> _) stmts :
  (forall acc stmt, building ps acc -> building ps (f acc stmt)) ->
  forall acc, building ps acc -> building ps (fold_left f stmts acc).
Proof.
  intros Hf. induction stmts as [| stmt stmts IH]; intros acc Hacc; simpl.
  - exact Hacc.
  - apply IH, Hf, Hacc.
Qed.

(** Closing the function: the entry block becomes its only block. *)
Lemma building_laid_out ps fn entry label :
  building ps (fn, entry) ->
  laid_out {| fn_name := fn_name fn; params := params fn;
              blocks := blocks fn ++ [ {| bb_name := label; instrs := entry |} ];
              varOffsets := varOffsets fn; stackSize := stackSize fn |}.
Proof.
  intros (Hps & Hbs & Hslots & Hsize & Halloc).
  unfold laid_out, slot_names, all_instrs. simpl.
  rewrite Hbs, Hps. simpl. rewrite app_nil_r.
  split; [exact Hslots |]. split; [exact Hsize | exact Halloc].
Qed.

Lemma lowerFunction_lookup name ps body irprog other :
  functions (lowerFunction name ps body irprog) !! other =
    if decide (other = name) then lowered_function name ps body
    else functions irprog !! other.
Proof.
  unfold lowered_function, lowerFunction.
  destruct (param_offsets ps 0 ∅) as [offsets argIdx].
  destruct (fold_left lowerFunction_stmt body _) as [fn entry]. cbn [functions].
  destruct (decide (other = name)) as [-> | Hne].
  - rewrite !lookup_insert_eq. reflexivity.
  - rewrite lookup_insert_ne by congruence. reflexivity.
Qed.

Lemma lowerFunction_stmt_declares acc stmt :
  alloc_names (snd (lowerFunction_stmt acc stmt)) =
    alloc_names (snd acc) ++ declared [stmt].
Proof.
  destruct acc as [fn entry].
  destruct stmt as [v | v | l o r | name type init | f a | f qs b];
    cbn [lowerFunction_stmt snd declared flat_map app];
    rewrite ?app_nil_r; try reflexivity.
  - destruct init as [[v | v | l o r | n t i | f a | f qs b] |];
      cbn [allocateVar snd]; rewrite !alloc_names_app; cbn [alloc_names];
      rewrite ?app_nil_r; reflexivity.
  - rewrite alloc_names_app. cbn [alloc_names]. rewrite app_nil_r. reflexivity.
Qed.

Lemma lower_stmt_declares acc stmt :
  alloc_names (snd (lower_stmt acc stmt)) =
    alloc_names (snd acc) ++ declared [stmt].
Proof.
  destruct acc as [fn entry].
  destruct stmt as [v | v | l o r | name type init | f a | f qs b];
    cbn [lower_stmt snd declared flat_map app];
    rewrite ?app_nil_r; try reflexivity.
  - destruct init as [[v | v | l o r | n t i | f a | f qs b] |];
      cbn [allocateVar snd]; rewrite !alloc_names_app; cbn [alloc_names];
      rewrite ?app_nil_r; reflexivity.
  - rewrite alloc_names_app. cbn [alloc_names]. rewrite app_nil_r. reflexivity.
Qed.

Lemma fold_left_declares (f : IRFunction * list IRInstr -> ASTExpr -> _) stmts :
  (forall acc stmt,
      alloc_names (snd (f acc stmt)) = alloc_names (snd acc) ++ declared [stmt]) ->
  forall acc,
    alloc_names (snd (fold_left f stmts acc)) = alloc_names (snd acc) ++ declared stmts.
Proof.
  intros Hf. induction stmts as [| stmt stmts IH]; intros acc; cbn [fold_left].
  - cbn. rewrite app_nil_r. reflexivity.
  - rewrite IH, Hf, <- app_assoc. f_equal.
    unfold declared. cbn [flat_map]. rewrite app_nil_r. reflexivity.
Qed.

(** What [lowerFunction] builds for a definition: the parameters are the
    source's, the slots allocated are those of the body's declarations,
    and the layout is in order. *)
Lemma lowered_function_layout name ps body fn :
  lowered_function name ps body = Some fn ->
  params fn = ps
  /\ alloc_names (all_instrs fn) = declared body
  /\ laid_out fn.
Proof.
  unfold lowered_function, lowerFunction.
  destruct (param_offsets_spec ps [] ∅ slots_of_nil) as [Hslots Hsize].
  simpl in Hslots, Hsize. change (Z.of_nat 0) with 0 in Hslots, Hsize.
  destruct (param_offsets ps 0 ∅) as [offsets argIdx]. simpl in Hslots, Hsize.
  pose proof (fold_left_building ps lowerFunction_stmt body
                (lowerFunction_stmt_building ps)
                ({| fn_name := name; params := ps; blocks := [];
                    varOffsets := offsets; stackSize := argIdx |}, [])) as Hfold.
  pose proof (fold_left_declares lowerFunction_stmt body lowerFunction_stmt_declares
                ({| fn_name := name; params := ps; blocks := [];
                    varOffsets := offsets; stackSize := argIdx |}, [])) as Hdecl.
  destruct (fold_left lowerFunction_stmt body _) as [fn' entry].
  cbn [functions snd alloc_names app] in *. rewrite lookup_insert_eq.
  intros Hfn. inversion Hfn; subst fn; clear Hfn.
  assert (Hb : building ps (fn', entry)).
  { apply Hfold. unfold building. simpl. rewrite app_nil_r.
    split; [reflexivity |]. split; [reflexivity |]. split; [exact Hslots |].
    split; [exact Hsize | reflexivity]. }
  split; [exact (proj1 Hb) |]. split.
  - unfold all_instrs. cbn [blocks]. destruct Hb as (_ & -> & _).
    cbn. rewrite app_nil_r. exact Hdecl.
  - apply (building_laid_out ps), Hb.
Qed.

(** A function of the lowered program other than [_main] is the lowering
    of one of the definitions among the statements. *)
Lemma lower_functions_origin name fn stmts :
  forall irprog,
    functions (fold_left lower_functions stmts irprog) !! name = Some fn ->
    functions irprog !! name = Some fn
    \/ exists ps body,
         ASTFunction name ps body ∈ stmts /\ lowered_function name ps body = Some fn.
Proof.
  induction stmts as [| stmt stmts IH]; intros irprog H; cbn [fold_left] in H.
  - left. exact H.
  - destruct (IH _ H) as [Hhere | (ps & body & Hin & Hfn)].
    + destruct stmt as [v | v | l o r | x t i | f a | f ps b];
        cbn [lower_functions] in Hhere; try (left; exact Hhere).
      rewrite lowerFunction_lookup in Hhere.
      destruct (decide (name = f)) as [-> | Hne]; [| left; exact Hhere].
      right. exists ps, b. split; [apply list_elem_of_here | exact Hhere].
    + right. exists ps, body. split; [apply list_elem_of_further; exact Hin | exact Hfn].
Qed.

Lemma lower_functions_defined name ps body stmts :
  ASTFunction name ps body ∈ stmts ->
  forall irprog, is_Some (functions (fold_left lower_functions stmts irprog) !! name).
Proof.
  intros Hin.
  assert (Hkeep : forall stmts irprog,
             is_Some (functions irprog !! name) ->
             is_Some (functions (fold_left lower_functions stmts irprog) !! name)).
  { clear. induction stmts as [| stmt stmts IH]; intros irprog H; cbn [fold_left];
      [exact H |].
    apply IH. destruct stmt as [v | v | l o r | x t i | f a | f ps b];
      cbn [lower_functions]; try exact H.
    rewrite lowerFunction_lookup. destruct (decide (name = f)) as [-> | Hne]; [| exact H].
    unfold lowered_function, lowerFunction.
    destruct (param_offsets ps 0 ∅) as [offsets argIdx].
    destruct (fold_left lowerFunction_stmt b _) as [fn' entry].
    cbn [functions]. rewrite lookup_insert_eq. eauto. }
  induction stmts as [| stmt stmts IH]; intros irprog; [inversion Hin |].
  apply elem_of_cons in Hin as [<- | Hin]; cbn [fold_left].
  - apply Hkeep. cbn [lower_functions]. rewrite lowerFunction_lookup.
    destruct (decide (name = name)); [| contradiction].
    unfold lowered_function, lowerFunction.
    destruct (param_offsets ps 0 ∅) as [offsets argIdx].
    destruct (fold_left lowerFunction_stmt body _) as [fn' entry].
    cbn [functions]. rewrite lookup_insert_eq. eauto.
  - apply IH. exact Hin.
Qed.

(** [_main] holds the top-level statements. *)
Lemma lower_main_layout program :
  exists mainFn,
    functions (lower program) !! "_main" = Some mainFn
    /\ params mainFn = []
    /\ alloc_names (all_instrs mainFn) = declared (statements program)
    /\ laid_out mainFn.
Proof.
  unfold lower.
  pose proof (fold_left_building [] lower_stmt (statements program)
                lower_stmt_building
                ({| fn_name := "_main"; params := []; blocks := [];
                    varOffsets := ∅; stackSize := 0 |}, [])) as Hfold.
  pose proof (fold_left_declares lower_stmt (statements program) lower_stmt_declares
                ({| fn_name := "_main"; params := []; blocks := [];
                    varOffsets := ∅; stackSize := 0 |}, [])) as Hdecl.
  destruct (fold_left lower_stmt _ _) as [mainFn entry].
  cbn [functions snd alloc_names app] in *. rewrite lookup_insert_eq.
  eexists. split; [reflexivity |].
  assert (Hb : building [] (mainFn, entry)).
  { apply Hfold. unfold building. simpl.
    split; [reflexivity |]. split; [reflexivity |]. split; [exact slots_of_nil |].
    split; reflexivity. }
  split; [exact (proj1 Hb) |]. split.
  - unfold all_instrs. cbn [blocks]. destruct Hb as (_ & -> & _).
    cbn. rewrite app_nil_r. exact Hdecl.
  - apply (building_laid_out []), Hb.
Qed.

(** C8, amended: every IR function that lowering produces stands for the
    top-level statements ([_main]) or for a function definition of the
    program, and its slots are handed out in increasing order from 0, to
    the parameters of the definition in order and then to the names its
    body declares, in declaration order: each [Alloc] carries its slot and
    [stackSize] is their number.  [varOffsets] keeps for every name the
    slot of its last declaration, so names that are pairwise distinct sit
    at their positions.  [_main], and every function the program defines,
    is in the lowered program.  Lowering [val a as int: 3] and
    [val b as int: 4] puts [a] at 0 and [b] at 1 in [_main]. *)
Theorem C8_slots_increase_from_zero :
  (forall program name fn,
      functions (lower program) !! name = Some fn ->
      exists ps body,
        (name = "_main" /\ ps = [] /\ body = statements program
         \/ name <> "_main" /\ ASTFunction name ps body ∈ statements program)
        /\ params fn = ps
        /\ alloc_names (all_instrs fn) = declared body
        /\ (forall i x, (ps ++ declared body) !! i = Some x ->
                        x ∉ drop (S i) (ps ++ declared body) ->
                        varOffsets fn !! x = Some (Z.of_nat i))
        /\ (NoDup (ps ++ declared body) ->
            forall i x, (ps ++ declared body) !! i = Some x ->
                        varOffsets fn !! x = Some (Z.of_nat i))
        /\ (forall x, x ∉ ps ++ declared body -> varOffsets fn !! x = None)
        /\ stackSize fn = Z.of_nat (length (ps ++ declared body))
        /\ alloc_slots (all_instrs fn) =
             map (fun j => to_string (Z.of_nat (length ps + j)))
                 (seq 0 (length (declared body))))
  /\ (forall program,
        is_Some (functions (lower program) !! "_main")
        /\ forall name ps body,
             ASTFunction name ps body ∈ statements program ->
             is_Some (functions (lower program) !! name))
  /\ (exists mainFn,
        functions (lower (program_of [int_decl "a" 3; int_decl "b" 4])) !! "_main"
          = Some mainFn
        /\ varOffsets mainFn !! "a" = Some 0
        /\ varOffsets mainFn !! "b" = Some 1
        /\ all_instrs mainFn =
             [ {| op := Alloc; args := ["a"; "0"] |};
               {| op := Store; args := ["a"; "3"] |};
               {| op := Alloc; args := ["b"; "1"] |};
               {| op := Store; args := ["b"; "4"] |} ]).
Proof.
  split; [| split].
  - intros program name fn Hfn.
    assert (Hshape : exists ps body,
               (name = "_main" /\ ps = [] /\ body = statements program
                \/ name <> "_main" /\ ASTFunction name ps body ∈ statements program)
               /\ params fn = ps
               /\ alloc_names (all_instrs fn) = declared body
               /\ laid_out fn).
    { destruct (decide (name = "_main")) as [-> | Hne].
      - destruct (lower_main_layout program) as (mainFn & Hmain & Hps & Hdecl & Hlaid).
        rewrite Hmain in Hfn. inversion Hfn; subst mainFn.
        exists [], (statements program). split; [left; repeat split |].
        split; [exact Hps |]. split; [exact Hdecl | exact Hlaid].
      - unfold lower in Hfn.
        destruct (fold_left lower_stmt _ _) as [mainFn entry]. cbn [functions] in Hfn.
        rewrite lookup_insert_ne in Hfn by congruence.
        destruct (lower_functions_origin _ _ _ _ Hfn) as [Hempty | (ps & body & Hin & Hlow)].
        { cbn [functions] in Hempty. rewrite lookup_empty in Hempty. discriminate Hempty. }
        destruct (lowered_function_layout _ _ _ _ Hlow) as (Hps & Hdecl & Hlaid).
        exists ps, body. split; [right; split; assumption |].
        split; [exact Hps |]. split; [exact Hdecl | exact Hlaid]. }
    destruct Hshape as (ps & body & Hwhere & Hps & Hdecl & [Hpos Hnone] & Hsize & Halloc).
    unfold slot_names in Hpos, Hnone, Hsize. rewrite Hps, Hdecl in *.
    exists ps, body. split; [exact Hwhere |]. split; [reflexivity |].
    split; [reflexivity |]. split; [exact Hpos |].
    split; [| split; [exact Hnone |]; split; [exact Hsize | exact Halloc]].
    intros Hnodup i x Hi. apply Hpos; [exact Hi |].
    intros Hin. apply list_elem_of_lookup in Hin as [j Hj].
    rewrite lookup_drop in Hj.
    pose proof (NoDup_lookup _ _ _ _ Hnodup Hi Hj). lia.
  - intros program. split.
    + destruct (lower_main_layout program) as (mainFn & Hmain & _). eauto.
    + intros name ps body Hin.
      destruct (decide (name = "_main")) as [-> | Hne].
      * destruct (lower_main_layout program) as (mainFn & Hmain & _). eauto.
      * unfold lower. destruct (fold_left lower_stmt _ _) as [mainFn entry].
        cbn [functions]. rewrite lookup_insert_ne by congruence.
        apply (lower_functions_defined name ps body). exact Hin.
  - eexists. split; [vm_compute; reflexivity |].
    repeat split; vm_compute; reflexivity.
Qed.

(** C8, as stated, fails for a name declared twice: [varOffsets] has one
    entry per name, the second [val a] overwrites the slot of the first,
    and no name is left at offset 0. *)
Lemma C8_counterexample_redeclared_name :
  exists mainFn,
    functions (lower (program_of [int_decl "a" 3; int_decl "a" 4])) !! "_main"
      = Some mainFn
    /\ slot_names mainFn = ["a"; "a"]
    /\ alloc_slots (all_instrs mainFn) = ["0"; "1"]
    /\ varOffsets mainFn = {[ "a" := 1 ]}
    /\ stackSize mainFn = 2.
Proof.
  eexists. split; [vm_compute; reflexivity |].
  repeat split; vm_compute; reflexivity.
Qed.


(** *** Lowered functions *)

Lemma lowered_intro o a :
  o ∈ [Alloc; Store; Add; Call] -> (operands_read o <= length a)%nat ->
  lowered_instr {| op := o; args := a |}.
Proof. intros H1 H2. split; assumption. Qed.

Ltac lowered :=
  apply lowered_intro;
  [ repeat first [apply list_elem_of_here | apply list_elem_of_further] | simpl; lia ].

Lemma accumulating_push name ps fn entry ins :
  accumulating name ps (fn, entry) -> Forall lowered_instr ins ->
  accumulating name ps (fn, entry ++ ins).
Proof.
  intros (Hn & Hp & Hb & He) Hins. repeat split; try assumption.
  cbn [snd]. apply Forall_app. split; assumption.
Qed.

Lemma accumulating_alloc name ps fn entry x :
  accumulating name ps (fn, entry) ->
  accumulating name ps (snd (allocateVar fn x), entry).
Proof. intros (Hn & Hp & Hb & He). repeat split; assumption. Qed.

Lemma lowerFunction_stmt_accumulating name ps acc stmt :
  accumulating name ps acc -> accumulating name ps (lowerFunction_stmt acc stmt).
Proof.
  destruct acc as [fn entry]. intros Hacc.
  destruct stmt as [v | v | l o r | x type init | f a | f qs b]; try exact Hacc.
  - cbn [lowerFunction_stmt].
    pose proof (accumulating_alloc name ps fn entry x Hacc) as Halloc.
    destruct (allocateVar fn x) as [ofs fn'] eqn:Hfn. cbn [snd] in Halloc.
    assert (H1 : accumulating name ps
                   (fn', entry ++ [ {| op := Alloc; args := [x; to_string ofs] |} ])).
    { apply accumulating_push; [exact Halloc | constructor; [lowered | constructor]]. }
    destruct init as [[v | v | l o r | n t i | f a | f qs b] |]; try exact H1;
      (apply accumulating_push; [exact H1 | constructor; [lowered | constructor]]).
  - cbn [lowerFunction_stmt].
    apply accumulating_push; [exact Hacc | constructor; [lowered | constructor]].
Qed.

Lemma lower_stmt_accumulating acc stmt :
  accumulating_main acc -> accumulating_main (lower_stmt acc stmt).
Proof.
  destruct acc as [fn entry]. intros [Hacc Hno].
  destruct stmt as [v | v | l o r | x type init | f a | f qs b]; try (split; assumption).
  - cbn [lower_stmt].
    pose proof (accumulating_alloc "_main" [] fn entry x Hacc) as Halloc.
    destruct (allocateVar fn x) as [ofs fn'] eqn:Hfn. cbn [snd] in Halloc.
    assert (H1 : accumulating_main
                   (fn', entry ++ [ {| op := Alloc; args := [x; to_string ofs] |} ])).
    { split; [apply accumulating_push; [exact Halloc | constructor; [lowered | constructor]] |].
      cbn [snd]. apply Forall_app. split; [exact Hno | constructor; [discriminate | constructor]]. }
    destruct init as [[v | v | l o r | n t i | f a | f qs b] |]; try exact H1.
    destruct H1 as [H1 H1no].
    split; [apply accumulating_push; [exact H1 | constructor; [lowered | constructor]] |].
    cbn [snd] in *. apply Forall_app.
    split; [exact H1no | constructor; [discriminate | constructor]].
  - cbn [lower_stmt].
    split; [apply accumulating_push; [exact Hacc | constructor; [lowered | constructor]] |].
    cbn [snd]. apply Forall_app. split; [exact Hno | constructor; [discriminate | constructor]].
Qed.

Lemma fold_left_invariant {A B} (P : A -> Prop) (f : A -> B -> A) l :
  (forall a b, P a -> P (f a b)) -> forall a, P a -> P (fold_left f l a).
Proof.
  intros Hf. induction l as [| b l IH]; intros a Ha; simpl; [exact Ha |].
  apply IH, Hf, Ha.
Qed.

Lemma lowerFunction_entry name ps body irprog :
  map_Forall entry_of (functions irprog) ->
  map_Forall entry_of (functions (lowerFunction name ps body irprog)).
Proof.
  intros Hall. unfold lowerFunction.
  destruct (param_offsets ps 0 ∅) as [offsets argIdx].
  pose proof (fold_left_invariant (accumulating name ps) lowerFunction_stmt body
                (lowerFunction_stmt_accumulating name ps)
                ({| fn_name := name; params := ps; blocks := [];
                    varOffsets := offsets; stackSize := argIdx |}, [])) as Hfold.
  destruct (fold_left lowerFunction_stmt body _) as [fn entry].
  destruct Hfold as (Hn & Hp & Hb & He); [repeat split; constructor |].
  cbn [fst snd] in *. simpl. apply map_Forall_insert_2; [| exact Hall].
  split; [exact Hn |]. exists entry. cbn [blocks]. rewrite Hb. split; [reflexivity | exact He].
Qed.

Lemma lower_functions_entry stmts :
  forall irprog,
    map_Forall entry_of (functions irprog) ->
    map_Forall entry_of (functions (fold_left lower_functions stmts irprog)).
Proof.
  induction stmts as [| stmt stmts IH]; intros irprog Hall; simpl; [exact Hall |].
  apply IH. destruct stmt; simpl; try exact Hall.
  apply lowerFunction_entry, Hall.
Qed.

(** X1: every function of a lowered program carries the name it is stored
    under and consists of one block, named [entry] for [_main] and
    [<name>_entry] otherwise.  Its instructions are [Alloc], [Store], [Add]
    and [Call] only, each with at least the operands the interpreter reads
    of it.  [_main] is always the top-level code, whatever the source
    defines under that name: it has no parameters and no [Add]. *)
Theorem X1_lowered_functions (program : ASTProgram) (name : string) (fn : IRFunction) :
  functions (lower program) !! name = Some fn ->
  fn_name fn = name
  /\ (exists entry,
        blocks fn = [ {| bb_name := entry_name name; instrs := entry |} ]
        /\ Forall lowered_instr entry
        /\ (name = "_main" -> Forall (fun instr => op instr <> Add) entry))
  /\ (name = "_main" -> params fn = []).
Proof.
  unfold lower.
  pose proof (lower_functions_entry (statements program) {| functions := ∅ |}) as Hfns.
  pose proof (fold_left_invariant accumulating_main lower_stmt (statements program)
                lower_stmt_accumulating
                ({| fn_name := "_main"; params := []; blocks := [];
                    varOffsets := ∅; stackSize := 0 |}, [])) as Hmain.
  destruct (fold_left lower_stmt (statements program) _) as [mainFn entry].
  destruct Hmain as [(Hn & Hp & Hb & He) Hno].
  { split; [repeat split |]; constructor. }
  cbn [fst snd functions] in *. intros Hlook.
  destruct (decide (name = "_main")) as [-> | Hne].
  - rewrite lookup_insert_eq in Hlook. inversion Hlook; subst fn; clear Hlook.
    cbn [fn_name blocks params]. split; [exact Hn |]. split; [| intros _; exact Hp].
    exists entry. rewrite Hb. split; [reflexivity |]. split; [exact He | intros _; exact Hno].
  - rewrite lookup_insert_ne in Hlook by congruence.
    destruct (Hfns (map_Forall_empty _) name fn Hlook) as (Hname & e & Hblocks & Hwf).
    split; [exact Hname |]. split; [| intros Heq; contradiction].
    exists e. unfold entry_name. rewrite bool_decide_eq_false_2 by exact Hne.
    split; [exact Hblocks |]. split; [exact Hwf | intros Heq; contradiction].
Qed.

Lemma X1_witness :
  exists fn entry,
    functions
      (lower (program_of
         [ ASTFunction "f" ["x"] [ ASTValDecl "y" "int" (Some (ASTBinary "x" "+" "1")) ] ]))
      !! "f" = Some fn
    /\ fn_name fn = "f"
    /\ blocks fn = [ {| bb_name := "f_entry"; instrs := entry |} ]
    /\ Forall lowered_instr entry.
Proof.
  pose (program := program_of
          [ ASTFunction "f" ["x"] [ ASTValDecl "y" "int" (Some (ASTBinary "x" "+" "1")) ] ]).
  destruct (functions (lower program) !! "f") as [fn |] eqn:Hfn;
    [| vm_compute in Hfn; discriminate Hfn].
  destruct (X1_lowered_functions program "f" fn Hfn) as (Hname & (entry & Hb & Hwf & _) & _).
  exists fn, entry. split; [exact Hfn |]. split; [exact Hname |].
  split; [exact Hb | exact Hwf].
Defined.

(** *** What a call leaves behind *)

Section Output.

Variable call_rec : string -> list Z -> IRInterpreter -> outcome (Z * IRInterpreter).

Hypothesis call_rec_extends :
  forall name actual st r st',
    call_rec name actual st = Ok (r, st') -> exists out, cout st' = cout st ++ out.

Lemma assign_cout name v st st' : assign name v st = Ok st' -> cout st' = cout st.
Proof.
  unfold assign. destruct (last (callStack st)); intros H; inversion H; reflexivity.
Qed.

Lemma step_extends instr st st' :
  step call_rec instr st = Ok st' -> exists out, cout st' = cout st ++ out.
Proof.
  unfold step. intros H.
  destruct (op instr).
  - bind_inv H as a0 Ha0. exists []. rewrite (assign_cout _ _ _ _ H), app_nil_r. reflexivity.
  - bind_inv H as a1 Ha1. bind_inv H as v Hv. bind_inv H as a0 Ha0.
    exists []. rewrite (assign_cout _ _ _ _ H), app_nil_r. reflexivity.
  - inversion H; subst. exists []. rewrite app_nil_r. reflexivity.
  - bind_inv H as a1 Ha1. bind_inv H as v1 Hv1. bind_inv H as a2 Ha2.
    bind_inv H as v2 Hv2. bind_inv H as sum Hsum. bind_inv H as a0 Ha0.
    exists []. rewrite (assign_cout _ _ _ _ H), app_nil_r. reflexivity.
  - bind_inv H as actual Hactual. bind_inv H as a0 Ha0.
    destruct (decide (a0 = "say")).
    + inversion H; subst. exists actual. reflexivity.
    + bind_inv H as r Hr. inversion H; subst. destruct r as [r st2].
      exact (call_rec_extends _ _ _ _ _ Hr).
  - inversion H; subst. exists []. rewrite app_nil_r. reflexivity.
  - inversion H; subst. exists []. rewrite app_nil_r. reflexivity.
Qed.

Lemma exec_instrs_extends ins :
  forall st st', exec_instrs call_rec ins st = Ok st' -> exists out, cout st' = cout st ++ out.
Proof.
  induction ins as [| instr ins IH]; intros st st' H; cbn [exec_instrs] in H.
  - inversion H; subst. exists []. rewrite app_nil_r. reflexivity.
  - bind_inv H as st1 Hst1.
    destruct (step_extends _ _ _ Hst1) as [out1 H1].
    destruct (IH _ _ H) as [out2 H2].
    exists (out1 ++ out2). rewrite H2, H1, app_assoc. reflexivity.
Qed.

Lemma exec_blocks_extends bs :
  forall st st', exec_blocks call_rec bs st = Ok st' -> exists out, cout st' = cout st ++ out.
Proof.
  induction bs as [| b bs IH]; intros st st' H; cbn [exec_blocks] in H.
  - inversion H; subst. exists []. rewrite app_nil_r. reflexivity.
  - bind_inv H as st1 Hst1.
    destruct (exec_instrs_extends _ _ _ Hst1) as [out1 H1].
    destruct (IH _ _ H) as [out2 H2].
    exists (out1 ++ out2). rewrite H2, H1, app_assoc. reflexivity.
Qed.

End Output.

(** X2: a call that returns, returns 0 and leaves on [std::cout] what was
    there before, followed by what was printed during the call: nothing
    already printed is ever changed or taken back. *)
Theorem X2_call_returns_zero_and_only_adds_output (prog : IRProgram) (fuel : nat)
    (name : string) (actual : list Z) (st : IRInterpreter) (r : Z) (st' : IRInterpreter) :
  call prog fuel name actual st = Ok (r, st') ->
  r = 0 /\ exists out, cout st' = cout st ++ out.
Proof.
  revert name actual st r st'.
  induction fuel as [| fuel IH]; intros name actual st r st' H; simpl in H;
    destruct (functions prog !! name) as [fn |]; try discriminate H.
  bind_inv H as frame Hframe. bind_inv H as res Hres. bind_inv H as st2 Hst2.
  inversion H; subst; clear H.
  unfold execFunc in Hres. bind_inv Hres as inside Hinside.
  inversion Hres; subst res; clear Hres. cbn [fst snd] in *.
  split; [reflexivity |].
  destruct (exec_blocks_extends (call prog fuel)
              (fun n a s r0 s' H => proj2 (IH n a s r0 s' H)) _ _ _ Hinside) as [out Hout].
  exists out. unfold pop_back in Hst2.
  destruct (callStack inside); inversion Hst2; subst; exact Hout.
Qed.

Lemma X2_witness :
  execMain (lower (program_of [ASTCall "say" [ASTLiteral "7"]])) 1
    = Ok (0, {| callStack := []; cout := [7] |})
  /\ exists out, [7] = cout interp0 ++ out.
Proof.
  split; [vm_compute; reflexivity |].
  refine (proj2 (X2_call_returns_zero_and_only_adds_output
                   (lower (program_of [ASTCall "say" [ASTLiteral "7"]])) 1 "_main" []
                   interp0 0 {| callStack := []; cout := [7] |} _)).
  vm_compute. reflexivity.
Defined.

(** *** Variables of the current frame *)

Lemma last_split {A} (l : list A) x : last l = Some x -> l = removelast l ++ [x].
Proof.
  intros H. apply last_Some in H as [l' ->]. rewrite removelast_last. reflexivity.
Qed.

Lemma valueOf_back older fr out name :
  valueOf {| callStack := older ++ [fr]; cout := out |} name =
    match vars fr !! name with
    | Some v => Ok v
    | None => valueOf {| callStack := older; cout := out |} name
    end.
Proof.
  unfold valueOf. cbn [callStack]. rewrite rev_app_distr. cbn [rev app find_binding].
  destruct (vars fr !! name); reflexivity.
Qed.

Lemma assign_valueOf name v st st' :
  assign name v st = Ok st' ->
  valueOf st' name = Ok v
  /\ (forall other, other <> name -> valueOf st' other = valueOf st other).
Proof.
  unfold assign. destruct (last (callStack st)) as [fr |] eqn:Hlast; [| discriminate].
  intros H. inversion H; subst; clear H.
  pose proof (last_split _ _ Hlast) as Hcs.
  split.
  - rewrite valueOf_back. cbn [vars]. rewrite lookup_insert_eq. reflexivity.
  - intros other Hne. rewrite valueOf_back. cbn [vars].
    rewrite lookup_insert_ne by congruence.
    destruct st as [cs out]. cbn [callStack cout] in *.
    transitivity (valueOf {| callStack := removelast cs ++ [fr]; cout := out |} other);
      [| rewrite <- Hcs; reflexivity].
    rewrite valueOf_back. reflexivity.
Qed.

(** X3: what an instruction writes to a variable is what the variable
    reads afterwards.  After [Alloc x] the name [x] reads 0, even when an
    older frame binds it; after [Store x text] it reads the number that
    [std::stoi] finds in [text]; after [Add x a b] it reads the sum of what
    [a] and [b] read before.  No other name reads differently after any of
    the three. *)
Theorem X3_written_variable_reads_back
    (call_rec : string -> list Z -> IRInterpreter -> outcome (Z * IRInterpreter))
    (x : string) (st st' : IRInterpreter) :
  (forall slot,
      step call_rec {| op := Alloc; args := [x; slot] |} st = Ok st' ->
      valueOf st' x = Ok 0)
  /\ (forall text,
      step call_rec {| op := Store; args := [x; text] |} st = Ok st' ->
      exists v, stoi text = Ok v /\ valueOf st' x = Ok v)
  /\ (forall a b,
      step call_rec {| op := Add; args := [x; a; b] |} st = Ok st' ->
      exists va vb, valueOf st a = Ok va /\ valueOf st b = Ok vb
                    /\ valueOf st' x = Ok (va + vb))
  /\ (forall o rest other,
      o ∈ [Alloc; Store; Add] ->
      step call_rec {| op := o; args := x :: rest |} st = Ok st' ->
      other <> x -> valueOf st' other = valueOf st other).
Proof.
  split; [| split; [| split]].
  - intros slot H. cbn in H. exact (proj1 (assign_valueOf _ _ _ _ H)).
  - intros text H. unfold step in H. cbn [op args at_index] in H. cbn in H.
    bind_inv H as v Hv. exists v. split; [exact Hv |].
    exact (proj1 (assign_valueOf _ _ _ _ H)).
  - intros a b H. unfold step in H. cbn in H.
    bind_inv H as va Hva. bind_inv H as vb Hvb. bind_inv H as sum Hsum.
    exists va, vb. split; [exact Hva |]. split; [exact Hvb |].
    unfold int_add in Hsum. destruct (in_int (va + vb)); inversion Hsum; subst.
    exact (proj1 (assign_valueOf _ _ _ _ H)).
  - intros o rest other Ho H Hne. unfold step in H. cbn [op args] in H.
    apply elem_of_cons in Ho as [-> | Ho].
    { cbn in H. exact (proj2 (assign_valueOf _ _ _ _ H) other Hne). }
    apply elem_of_cons in Ho as [-> | Ho].
    { bind_inv H as a1 Ha1. bind_inv H as v Hv. cbn in H.
      exact (proj2 (assign_valueOf _ _ _ _ H) other Hne). }
    apply list_elem_of_singleton in Ho as ->.
    bind_inv H as a1 Ha1. bind_inv H as v1 Hv1. bind_inv H as a2 Ha2.
    bind_inv H as v2 Hv2. bind_inv H as sum Hsum. cbn in H.
    exact (proj2 (assign_valueOf _ _ _ _ H) other Hne).
Qed.

(** *** What can go wrong *)

Lemma raises_only_bind {A B} prog (m : outcome A) (f : A -> outcome B) :
  raises_only prog m -> (forall a, m = Ok a -> raises_only prog (f a)) ->
  raises_only prog (m ≫= f).
Proof. destruct m; simpl; auto. Qed.

Lemma at_index_raises {A} prog (v : list A) i : raises_only prog (at_index v i).
Proof. unfold at_index. destruct (v !! i); exact I. Qed.

Lemma stoi_raises prog str : raises_only prog (stoi str).
Proof.
  unfold stoi. destruct (skip_space str) as [| c r]; simpl.
  - left. reflexivity.
  - repeat match goal with
           | |- context [if ?b then _ else _] => destruct b; simpl
           | |- context [let '(_, _) := ?p in _] => destruct p; simpl
           | |- context [match ?c with Ascii _ _ _ _ _ _ _ _ => _ end] => destruct c; simpl
           end; try exact I; try (left; reflexivity); right; left; reflexivity.
Qed.

Lemma assign_raises prog name v st : raises_only prog (assign name v st).
Proof. unfold assign. destruct (last (callStack st)); exact I. Qed.

Lemma int_add_raises prog a b : raises_only prog (int_add a b).
Proof. unfold int_add. destruct (in_int (a + b)); exact I. Qed.

Lemma pop_back_raises prog st : raises_only prog (pop_back st).
Proof. unfold pop_back. destruct (callStack st); exact I. Qed.

Lemma valueOf_raises prog st name : raises_only prog (valueOf st name).
Proof.
  unfold valueOf. destruct (find_binding _ _); [exact I | apply stoi_raises].
Qed.

Lemma valuesOf_raises prog st names : raises_only prog (valuesOf st names).
Proof.
  induction names as [| n names IH]; cbn [valuesOf]; [exact I |].
  apply raises_only_bind; [apply valueOf_raises | intros v _].
  apply raises_only_bind; [exact IH | intros vs _; exact I].
Qed.

Lemma bind_params_raises prog ps actual :
  forall idx frame, raises_only prog (bind_params ps actual idx frame).
Proof.
  induction ps as [| p ps IH]; intros idx frame; cbn [bind_params]; [exact I |].
  apply raises_only_bind; [apply at_index_raises | intros v _; apply IH].
Qed.

Section Raises.

Variable prog : IRProgram.
Variable call_rec : string -> list Z -> IRInterpreter -> outcome (Z * IRInterpreter).

Hypothesis call_rec_raises :
  forall name actual st, raises_only prog (call_rec name actual st).

Lemma step_raises instr st : raises_only prog (step call_rec instr st).
Proof.
  unfold step. destruct (op instr); try exact I;
    repeat first
      [ apply assign_raises
      | apply raises_only_bind;
        [ first [ apply at_index_raises | apply stoi_raises | apply valueOf_raises
                | apply int_add_raises | apply valuesOf_raises | apply call_rec_raises ]
        | intros ? _ ] ].
  destruct (decide (_ = "say")); [exact I |].
  apply raises_only_bind; [apply call_rec_raises | intros r _; exact I].
Qed.

Lemma exec_instrs_raises ins : forall st, raises_only prog (exec_instrs call_rec ins st).
Proof.
  induction ins as [| instr ins IH]; intros st; cbn [exec_instrs]; [exact I |].
  apply raises_only_bind; [apply step_raises | intros st' _; apply IH].
Qed.

Lemma exec_blocks_raises bs : forall st, raises_only prog (exec_blocks call_rec bs st).
Proof.
  induction bs as [| b bs IH]; intros st; cbn [exec_blocks]; [exact I |].
  apply raises_only_bind; [apply exec_instrs_raises | intros st' _; apply IH].
Qed.

End Raises.

Lemma call_raises prog fuel :
  forall name actual st, raises_only prog (call prog fuel name actual st).
Proof.
  induction fuel as [| fuel IH]; intros name actual st; cbn [call];
    destruct (functions prog !! name) as [fn |] eqn:Hfn;
    try exact I; try (right; right; exists name; split; [exact Hfn | reflexivity]).
  apply raises_only_bind; [apply bind_params_raises | intros frame _].
  apply raises_only_bind.
  - unfold execFunc. apply raises_only_bind; [| intros st' _; exact I].
    apply exec_blocks_raises. exact IH.
  - intros r _. apply raises_only_bind; [apply pop_back_raises | intros st' _; exact I].
Qed.

(** X4: the only exceptions that leave a call are the two of [std::stoi]
    ([invalid_argument] and [out_of_range], both with the message [stoi])
    and [runtime_error] with [No such function: f] for a name [f] that the
    program does not define; and a call never ends the process with
    [exit]. *)
Theorem X4_exceptions_of_a_call (prog : IRProgram) (fuel : nat) (name : string)
    (actual : list Z) (st : IRInterpreter) :
  (forall e,
      call prog fuel name actual st = Throw e ->
      e = invalid_argument "stoi" \/ e = out_of_range "stoi"
      \/ exists callee, functions prog !! callee = None
                        /\ e = runtime_error ("No such function: " +:+ callee))
  /\ (forall status message, call prog fuel name actual st <> Exit status message).
Proof.
  pose proof (call_raises prog fuel name actual st) as H. split.
  - intros e He. rewrite He in H. exact H.
  - intros status message He. rewrite He in H. exact H.
Qed.

(** *** The debugger *)

Lemma debug_instrs_executed prog fuel below ins :
  forall cin st shown,
    "q" ∉ cin -> one_frame_above below st ->
    (r ← debug_instrs (call prog fuel) ins cin st shown; Ok (snd (fst r)))
    = exec_instrs (call prog fuel) (executed ins cin) st
    /\ forall r, debug_instrs (call prog fuel) ins cin st shown = Ok r -> fst (fst r) = false.
Proof.
  induction ins as [| instr ins IH]; intros cin st shown Hq Habove;
    cbn [debug_instrs executed]; [split; [reflexivity | intros r H; inversion H; reflexivity] |].
  assert (Hcmd : fst (getline cin) <> "q" /\ "q" ∉ snd (getline cin)).
  { destruct cin as [| line rest]; cbn; [split; [discriminate | apply not_elem_of_nil] |].
    apply not_elem_of_cons in Hq as [Hne Hrest]. split; [congruence | exact Hrest]. }
  destruct (getline cin) as [cmd cin']. cbn [fst snd] in Hcmd. destruct Hcmd as [Hne Hq'].
  rewrite (bool_decide_eq_false_2 _ Hne).
  destruct (bool_decide (cmd = "v")).
  - destruct Habove as [frame Hframe]. rewrite Hframe, last_snoc.
    apply IH; [exact Hq' | exists frame; exact Hframe].
  - cbn [exec_instrs].
    destruct (step (call prog fuel) instr st) as [st' | | | |] eqn:Hstep;
      try (split; [reflexivity | intros r H; discriminate H]).
    rewrite !bind_Ok_l. apply IH; [exact Hq' |].
    eapply (step_above (call prog fuel) (call_restores prog fuel)); eassumption.
Qed.

(** X5: in the debugger, the command [v] shows the variables and drops
    the pending instruction; every other line, and the end of the input,
    executes it.  Unless [q] is entered, the debugger leaves the
    interpreter as it is after running, in a fresh frame, the instructions
    of [_main] that were not answered with [v], and popping that frame. *)
Theorem X5_debugger_executes_unless_shown (prog : IRProgram) (fuel : nat)
    (cin : list string) (st : IRInterpreter) (fn : IRFunction) :
  functions prog !! "_main" = Some fn ->
  "q" ∉ cin ->
  (r ← debugMain prog fuel cin st; Ok (fst r))
  = (st' ← exec_instrs (call prog fuel) (executed (all_instrs fn) cin)
             (push_back new_frame st);
     pop_back st').
Proof.
  intros Hfn Hq. unfold debugMain. rewrite Hfn.
  destruct (debug_instrs_executed prog fuel (callStack st) (all_instrs fn) cin
              (push_back new_frame st) [Banner] Hq) as [Heq Hquit].
  { exists new_frame. reflexivity. }
  rewrite <- Heq.
  destruct (debug_instrs (call prog fuel) (all_instrs fn) cin (push_back new_frame st) [Banner])
    as [[[quit st1] shown] | | | |] eqn:Hdbg; try reflexivity.
  specialize (Hquit _ eq_refl). cbn [fst snd] in *. subst quit.
  rewrite !bind_Ok_l. cbn [fst snd].
  destruct (pop_back st1); reflexivity.
Qed.

Lemma X5_witness :
  let prog := lower (program_of [int_decl "a" 5; ASTCall "say" [ASTVar "a"]]) in
  exists fn,
    functions prog !! "_main" = Some fn
    /\ executed (all_instrs fn) [""; "v"; ""] =
         [ {| op := Alloc; args := ["a"; "0"] |}; {| op := Call; args := ["say"; "a"] |} ]
    /\ (r ← debugMain prog 1 [""; "v"; ""] interp0; Ok (fst r))
       = Ok {| callStack := []; cout := [0] |}.
Proof.
  intros prog.
  destruct (functions prog !! "_main") as [fn |] eqn:Hfn;
    [| vm_compute in Hfn; discriminate Hfn].
  exists fn. split; [reflexivity |].
  assert (Hq : "q" ∉ [""; "v"; ""]).
  { intros Hin. repeat (apply elem_of_cons in Hin as [Hin | Hin]; [discriminate Hin |]).
    inversion Hin. }
  pose proof (X5_debugger_executes_unless_shown prog 1 [""; "v"; ""] interp0 fn Hfn Hq)
    as Hrun.
  vm_compute in Hfn. inversion Hfn; subst fn; clear Hfn.
  split; [vm_compute; reflexivity |].
  rewrite Hrun. vm_compute. reflexivity.
Defined.

Lemma executed_all ins :
  forall cin, "v" ∉ cin -> executed ins cin = ins.
Proof.
  induction ins as [| instr ins IH]; intros cin Hv; cbn [executed]; [reflexivity |].
  destruct cin as [| line rest]; cbn [getline].
  - rewrite bool_decide_eq_false_2 by discriminate. rewrite IH; [reflexivity | exact Hv].
  - apply not_elem_of_cons in Hv as [Hne Hrest].
    rewrite bool_decide_eq_false_2 by congruence. rewrite IH; [reflexivity | exact Hrest].
Qed.

Lemma exec_blocks_concat call_rec bs :
  forall st, exec_blocks call_rec bs st = exec_instrs call_rec (concat (map instrs bs)) st.
Proof.
  induction bs as [| b bs IH]; intros st; cbn [exec_blocks map concat]; [reflexivity |].
  rewrite exec_instrs_app. destruct (exec_instrs call_rec (instrs b) st); try reflexivity.
  rewrite !bind_Ok_l. apply IH.
Qed.

(** X6: stepping through the whole of [_main] with neither [q] nor [v]
    ends with the same interpreter, or in the same failure, as [execMain]:
    the same numbers printed, the call stack empty again. *)
Theorem X6_stepping_through_is_execMain (prog : IRProgram) (fuel : nat)
    (cin : list string) (fn : IRFunction) :
  functions prog !! "_main" = Some fn ->
  params fn = [] ->
  "q" ∉ cin -> "v" ∉ cin ->
  (r ← debugMain prog fuel cin interp0; Ok (fst r))
  = (r ← execMain prog (S fuel); Ok (snd r)).
Proof.
  intros Hfn Hps Hq Hv. unfold debugMain, execMain. cbn [call]. rewrite Hfn, Hps.
  cbn [bind_params]. rewrite bind_Ok_l. unfold execFunc.
  destruct (debug_instrs_executed prog fuel [] (all_instrs fn) cin
              (push_back new_frame interp0) [Banner] Hq) as [Heq Hquit].
  { exists new_frame. reflexivity. }
  rewrite (executed_all _ _ Hv) in Heq.
  rewrite (exec_blocks_concat (call prog fuel) (blocks fn)).
  change (concat (map instrs (blocks fn))) with (all_instrs fn). rewrite <- Heq.
  destruct (debug_instrs (call prog fuel) (all_instrs fn) cin (push_back new_frame interp0)
              [Banner]) as [[[quit st1] shown] | | | |] eqn:Hdbg; try reflexivity.
  specialize (Hquit _ eq_refl). cbn [fst snd] in Hquit. subst quit.
  rewrite !bind_Ok_l. cbn [fst snd].
  destruct (pop_back st1); reflexivity.
Qed.

Lemma X6_witness :
  let prog := lower (program_of [int_decl "a" 5; ASTCall "say" [ASTVar "a"]]) in
  (r ← debugMain prog 1 [""; "step"] interp0; Ok (fst r))
    = Ok {| callStack := []; cout := [5] |}
  /\ (r ← execMain prog 2; Ok (snd r)) = Ok {| callStack := []; cout := [5] |}.
Proof.
  intros prog. split; [| vm_compute; reflexivity].
  destruct (functions prog !! "_main") as [fn |] eqn:Hfn;
    [| vm_compute in Hfn; discriminate Hfn].
  rewrite (X6_stepping_through_is_execMain prog 1 [""; "step"] fn Hfn).
  - vm_compute. reflexivity.
  - vm_compute in Hfn. inversion Hfn; subst fn. reflexivity.
  - intros Hin. repeat (apply elem_of_cons in Hin as [Hin | Hin]; [discriminate Hin |]).
    inversion Hin.
  - intros Hin. repeat (apply elem_of_cons in Hin as [Hin | Hin]; [discriminate Hin |]).
    inversion Hin.
Defined.

(** *** Top-level declarations *)

Lemma lower_main program :
  functions (lower program) !! "_main" =
    Some (let '(mainFn, entry) :=
            fold_left lower_stmt (statements program)
              ({| fn_name := "_main"; params := []; blocks := [];
                  varOffsets := ∅; stackSize := 0 |}, []) in
          {| fn_name := fn_name mainFn; params := params mainFn;
             blocks := blocks mainFn ++ [ {| bb_name := "entry"; instrs := entry |} ];
             varOffsets := varOffsets mainFn; stackSize := stackSize mainFn |}).
Proof.
  unfold lower. destruct (fold_left lower_stmt _ _) as [mainFn entry].
  cbn [functions]. apply lookup_insert_eq.
Qed.

(** X7: at top level only a literal initializer is lowered.  A
    declaration whose initializer is a variable, a binary expression, a
    call or missing is lowered to its [Alloc] alone, so when [_main] has
    run the variable reads 0, whatever the initializer says. *)
Theorem X7_top_level_initializer_must_be_literal (stmts : list ASTExpr)
    (x type : string) (init : option ASTExpr) (fuel : nat) (st : IRInterpreter) :
  (forall v, init <> Some (ASTLiteral v)) ->
  call_frame (lower (program_of (stmts ++ [ASTValDecl x type init]))) (S fuel)
    "_main" [] interp0 = Ok (0, st) ->
  valueOf st x = Ok 0.
Proof.
  intros Hinit. unfold call_frame. rewrite lower_main. cbn [statements program_of].
  rewrite fold_left_app. cbn [fold_left].
  pose proof (fold_left_invariant accumulating_main lower_stmt stmts
                lower_stmt_accumulating
                ({| fn_name := "_main"; params := []; blocks := [];
                    varOffsets := ∅; stackSize := 0 |}, [])) as Hmain.
  destruct (fold_left lower_stmt stmts _) as [mainFn entry].
  destruct Hmain as [(Hn & Hp & Hb & He) Hno]; [split; [repeat split |]; constructor |].
  cbn [fst snd] in *.
  assert (Hstmt : lower_stmt (mainFn, entry) (ASTValDecl x type init)
                  = (snd (allocateVar mainFn x),
                     entry ++ [ {| op := Alloc;
                                   args := [x; to_string (stackSize mainFn)] |} ])).
  { cbn [lower_stmt allocateVar fst snd]. destruct init as [[v | | | | |] |]; try reflexivity.
    destruct (Hinit v eq_refl). }
  rewrite Hstmt. cbn [allocateVar snd fn_name params blocks]. rewrite Hp, Hb.
  cbn [bind_params]. rewrite bind_Ok_l. unfold execFunc. cbn [blocks app exec_blocks instrs].
  intros H. bind_inv H as st1 Hst1. inversion H; subst st; clear H.
  bind_inv Hst1 as st2 Hst2. inversion Hst1; subst st1; clear Hst1.
  rewrite exec_instrs_app in Hst2. bind_inv Hst2 as st3 Hst3.
  cbn in Hst2. bind_inv Hst2 as st4 Hst4. inversion Hst2; subst st4; clear Hst2.
  exact (proj1 (assign_valueOf _ _ _ _ Hst4)).
Qed.

Lemma X7_witness :
  call_frame
    (lower (program_of
       ([int_decl "a" 5] ++ [ASTValDecl "y" "int" (Some (ASTBinary "a" "+" "1"))])))
    1 "_main" [] interp0
  = Ok (0, {| callStack := [ {| vars := <[ "y" := 0 ]> {[ "a" := 5 ]}; retAddr := -1 |} ];
              cout := [] |})
  /\ valueOf {| callStack := [ {| vars := <[ "y" := 0 ]> {[ "a" := 5 ]}; retAddr := -1 |} ];
                cout := [] |} "y" = Ok 0.
Proof.
  split; [vm_compute; reflexivity |].
  apply (X7_top_level_initializer_must_be_literal [int_decl "a" 5] "y" "int"
           (Some (ASTBinary "a" "+" "1")) 0).
  - intros v. discriminate.
  - vm_compute. reflexivity.
Defined.

(** *** Words that start no statement *)

Lemma parse_statements_skips fuel :
  forall s token program f,
    in_order s ->
    (String.length (buf s) < fuel)%nat -> (String.length (buf s) < f)%nat ->
    (forall w, w ∈ words_within f (buf s) -> w ∉ ["val"; "func"; "call"]) ->
    parse_statements fuel s token program = Ok program.
Proof.
  induction fuel as [| fuel IH]; intros s token program f Hs Hfuel Hf Hwords; [lia |].
  cbn [parse_statements].
  pose proof (read_string_word token s Hs) as Hread.
  pose proof (skip_space_length (buf s)) as Hlen.
  destruct f as [| f]; [lia |]. cbn [words_within] in Hwords.
  destruct (skip_space (buf s)) as [| c r] eqn:Hskip.
  { destruct (read_string token s) as [token1 s1]. cbn [snd] in Hread.
    rewrite Hread. reflexivity. }
  pose proof (take_word_progress c r (skip_space_head _ _ _ Hskip)) as Hprog.
  lazy beta iota zeta in Hread.
  destruct (take_word (String c r)) as [w rest].
  destruct (read_string token s) as [token1 s1]. cbn [fst snd] in Hread, Hprog.
  destruct Hread as (-> & Hbuf & Hs1).
  assert (Hok : ok s1 = true) by (unfold ok; rewrite (proj1 Hs1); reflexivity).
  rewrite Hok.
  destruct (not_keyword w) as (Hval & Hfunc & Hcall);
    [apply Hwords; apply list_elem_of_here |].
  rewrite !bool_decide_eq_false_2 by assumption.
  apply (IH s1 w program f Hs1); rewrite ?Hbuf; try lia.
  intros w' Hw'. apply Hwords. apply list_elem_of_further. exact Hw'.
Qed.

(** X8: the parser reports nothing it does not understand.  A text in
    which no word is [val], [func] or [call] parses, without any error, to
    the empty program: every word of it is read and dropped. *)
Theorem X8_unknown_words_are_skipped (src : string) :
  (forall w, w ∈ words src -> w ∉ ["val"; "func"; "call"]) ->
  parse src = Ok {| statements := []; ast_functions := ∅ |}.
Proof.
  intros Hwords. unfold parse.
  apply (parse_statements_skips _ _ _ _ (S (String.length src))); try exact Hwords.
  - split; [reflexivity | discriminate].
  - unfold parse_fuel. simpl. lia.
  - simpl. lia.
Qed.

Lemma X8_witness :
  words "loop 0 to 5 { say }" = ["loop"; "0"; "to"; "5"; "{"; "say"; "}"]
  /\ parse "loop 0 to 5 { say }" = Ok {| statements := []; ast_functions := ∅ |}.
Proof.
  split; [vm_compute; reflexivity |].
  apply X8_unknown_words_are_skipped.
  apply Forall_forall. vm_compute words.
  repeat (constructor;
          [intros Hin;
           repeat (apply elem_of_cons in Hin as [Hin | Hin]; [discriminate Hin |]);
           inversion Hin |]).
  constructor.
Defined.

(** *** Arguments in the text *)

Lemma is_char_space c o :
  isspace c = false ->
  (o = None \/ exists c', o = Some c' /\ isspace c' = true) ->
  is_char c o = false.
Proof.
  intros Hc Ho. unfold is_char. apply bool_decide_eq_false_2.
  intros ->. destruct Ho as [Ho | (c' & Ho & Hc')]; [discriminate Ho |].
  inversion Ho; subst. congruence.
Qed.

(** [parseExpr] never takes its call branch: after a word the next
    character is never an opening parenthesis. *)
Lemma parseExpr_at_gap fuel s e s' :
  parseExpr fuel s = Ok (e, s') -> at_gap s' /\ operand_node e.
Proof.
  destruct fuel as [| fuel]; [discriminate |]. cbn [parseExpr].
  pose proof (read_string_at_gap "" s) as H1.
  destruct (read_string "" s) as [token s1]. cbn [snd] in H1.
  destruct (isdigit (front0 token)); [intros H; inversion H; subst; split; [exact H1 | exact I] |].
  destruct (isalpha (front0 token)); [| intros H; inversion H; subst; split; [exact H1 | exact I]].
  destruct (peek_at_gap s1 H1) as [H2 Hc].
  destruct (peek s1) as [c s2]. cbn [fst snd] in H2, Hc.
  rewrite (is_char_space "(" c eq_refl Hc).
  destruct (tellg_at_gap s2 H2) as [H3 Hseek].
  destruct (tellg s2) as [oldpos s3]. cbn [fst snd] in H3, Hseek.
  pose proof (read_string_at_gap "" s3) as H4.
  destruct (read_string "" s3) as [o s4]. cbn [snd] in H4.
  destruct (ok s4); [| intros H; inversion H; subst; split; [exact H4 | exact I]].
  destruct (is_operator o); [| intros H; inversion H; subst; split; [apply Hseek | exact I]].
  pose proof (read_string_at_gap "" s4) as H5.
  destruct (read_string "" s4) as [rhs s5]. cbn [snd] in H5.
  intros H; inversion H; subst; split; [exact H5 | exact I].
Qed.

(** X9: an initializer or an argument is never parsed as a call.  The
    parser reads whole words, so the character after a name is white space
    or the end of the text, never the opening parenthesis its call branch
    looks for: [parseExpr] gives a literal, a variable or a binary node and
    nothing else. *)
Theorem X9_parseExpr_gives_no_call (fuel : nat) (s : istream) (e : ASTExpr)
    (s' : istream) :
  parseExpr fuel s = Ok (e, s') -> operand_node e.
Proof. intros H. exact (proj2 (parseExpr_at_gap fuel s e s' H)). Qed.

Lemma X9_witness :
  parseExpr 1 (istringstream "f(1) + 2")
    = Ok (ASTBinary "f(1)" "+" "2", {| buf := ""; eofbit := true; failbit := false |})
  /\ operand_node (ASTBinary "f(1)" "+" "2").
Proof.
  split; [vm_compute; reflexivity |].
  apply (X9_parseExpr_gives_no_call 1 (istringstream "f(1) + 2")
           (ASTBinary "f(1)" "+" "2") {| buf := ""; eofbit := true; failbit := false |}).
  vm_compute. reflexivity.
Defined.

(** From a gap on, the argument loop of [parseCall] never sees its closing
    parenthesis: it runs until the stream fails. *)
Lemma parseCall_args_runs_out fuel :
  forall s acc l s',
    at_gap s -> parseCall_args fuel s acc = Ok (l, s') -> failbit s' = true.
Proof.
  induction fuel as [| fuel IH]; intros s acc l s' Hgap H; [discriminate H |].
  cbn [parseCall_args] in H.
  destruct (peek_at_gap s Hgap) as [H1 Hc].
  destruct (peek s) as [c s1]. cbn [fst snd] in H1, Hc.
  rewrite (is_char_space ")" c eq_refl Hc) in H.
  destruct (ok (ws s1)) eqn:Hok.
  - bind_inv H as r Hr. destruct r as [e s2]. cbn [fst snd] in H.
    pose proof (proj1 (parseExpr_at_gap _ _ _ _ Hr)) as H2.
    destruct (peek_at_gap s2 H2) as [H3 Hc3].
    destruct (peek s2) as [c3 s3]. cbn [fst snd] in H3, Hc3.
    rewrite (is_char_space "," c3 eq_refl Hc3) in H.
    exact (IH _ _ _ _ H3 H).
  - inversion H; subst. unfold ok in Hok. destruct (failbit (ws s1)); [reflexivity | discriminate].
Qed.

Lemma parseCall_args_first fuel s l s' :
  parseCall_args fuel s [] = Ok (l, s') -> l = [] \/ failbit s' = true.
Proof.
  destruct fuel as [| fuel]; [discriminate |]. cbn [parseCall_args].
  destruct (peek s) as [c s1].
  destruct (is_char ")" c); [intros H; inversion H; subst; left; reflexivity |].
  destruct (ok (ws s1)) eqn:Hok.
  - intros H. bind_inv H as r Hr. destruct r as [e s2]. cbn [fst snd] in H.
    pose proof (proj1 (parseExpr_at_gap _ _ _ _ Hr)) as H2.
    destruct (peek_at_gap s2 H2) as [H3 Hc3].
    destruct (peek s2) as [c3 s3]. cbn [fst snd] in H3, Hc3.
    rewrite (is_char_space "," c3 eq_refl Hc3) in H.
    right. exact (parseCall_args_runs_out _ _ _ _ _ H3 H).
  - intros H. inversion H; subst. left. reflexivity.
Qed.

Lemma parseCall_closed fuel funcName s e s' :
  parseCall fuel funcName s = Ok (e, s') ->
  without_arguments e \/ failbit s' = true.
Proof.
  unfold parseCall. intros H. bind_inv H as r Hr. destruct r as [l s1].
  cbn [fst snd] in H. inversion H; subst; clear H.
  destruct (parseCall_args_first _ _ _ _ Hr) as [-> | Hf];
    [left; exact I | right; apply ignore1_failed; exact Hf].
Qed.

Lemma parseFunction_params_runs_out fuel :
  forall s param acc l s',
    at_gap s -> parseFunction_params fuel s param acc = Ok (l, s') -> failbit s' = true.
Proof.
  induction fuel as [| fuel IH]; intros s param acc l s' Hgap H; [discriminate H |].
  cbn [parseFunction_params] in H.
  destruct (peek_at_gap s Hgap) as [H1 Hc].
  destruct (peek s) as [c s1]. cbn [fst snd] in H1, Hc.
  rewrite (is_char_space ")" c eq_refl Hc) in H.
  destruct (ok (ws s1)) eqn:Hok.
  - pose proof (read_string_at_gap param (ws s1)) as H2.
    destruct (read_string param (ws s1)) as [param1 s2]. cbn [snd] in H2.
    destruct (str_back param1); [| discriminate H].
    exact (IH _ _ _ _ _ H2 H).
  - inversion H; subst. unfold ok in Hok. destruct (failbit (ws s1)); [reflexivity | discriminate].
Qed.

Lemma parseFunction_body_failed fuel s token acc b s' :
  failbit s = true ->
  parseFunction_body fuel s token acc = Ok (b, s') -> b = acc /\ failbit s' = true.
Proof.
  intros Hf. destruct fuel as [| fuel]; [discriminate |]. cbn [parseFunction_body].
  rewrite (read_string_failed token s Hf). unfold ok. rewrite Hf. cbn [negb andb].
  intros H. inversion H; subst. split; [reflexivity | exact Hf].
Qed.

(** A function definition reads the rest of the text as its parameters
    and finds no body. *)
Lemma parseFunction_closed fuel s e s' :
  parseFunction fuel s = Ok (e, s') ->
  failbit s' = true /\ exists name ps, e = ASTFunction name ps [].
Proof.
  unfold parseFunction.
  destruct (read_string "" s) as [name s1].
  pose proof (read_string_at_gap "" s1) as H2.
  destruct (read_string "" s1) as [param s2]. cbn [snd] in H2.
  intros H. bind_inv H as ps Hps. destruct ps as [ps s3]. cbn [fst snd] in H.
  pose proof (parseFunction_params_runs_out _ _ _ _ _ _ H2 Hps) as Hf3.
  pose proof (ignore1_failed s3 Hf3) as Hf4.
  rewrite (read_string_failed "" _ Hf4) in H.
  bind_inv H as b Hb. destruct b as [b s5]. cbn [fst snd] in H.
  inversion H; subst; clear H.
  destruct (parseFunction_body_failed _ _ _ _ _ _ Hf4 Hb) as [-> Hf5].
  split; [exact Hf5 | eauto].
Qed.

Lemma closed_push quiet program s stmt s' fns :
  closed quiet program s -> ok s = true ->
  quiet stmt \/ failbit s' = true ->
  closed quiet {| statements := statements program ++ [stmt]; ast_functions := fns |} s'.
Proof.
  intros [_ Hall] Hok Hstmt. specialize (Hall Hok). split; cbn [statements].
  - intros init last Heq. apply app_inj_tail in Heq as [<- <-]. exact Hall.
  - intros Hok'. destruct Hstmt as [H | Hf].
    + apply Forall_app. split; [exact Hall | constructor; [exact H | constructor]].
    + unfold ok in Hok'. rewrite Hf in Hok'. discriminate Hok'.
Qed.

Section Shape.

(** [always] holds of every statement that [parse] pushes, and [quiet] of
    every statement after which the stream is still in order. *)
Variables always quiet : ASTExpr -> Prop.

Hypothesis declaration_shape :
  forall name type init,
    always (ASTValDecl name type init) /\ quiet (ASTValDecl name type init).

Hypothesis function_shape :
  forall fuel s e s',
    parseFunction fuel s = Ok (e, s') -> always e /\ (quiet e \/ failbit s' = true).

Hypothesis call_shape :
  forall fuel funcName s e s',
    parseCall fuel funcName s = Ok (e, s') -> always e /\ (quiet e \/ failbit s' = true).

Lemma parse_statements_closed fuel :
  forall s token program result,
    closed quiet program s -> Forall always (statements program) ->
    parse_statements fuel s token program = Ok result ->
    Forall always (statements result)
    /\ forall init last, statements result = init ++ [last] -> Forall quiet init.
Proof.
  induction fuel as [| fuel IH]; intros s token program result Hinv Hall H; [discriminate H |].
  cbn [parse_statements] in H.
  pose proof (read_string_ok_before token s) as Hbefore.
  destruct (read_string token s) as [token1 s1]. cbn [snd] in Hbefore.
  destruct (ok s1) eqn:Hok1; [| inversion H; subst; split; [exact Hall | exact (proj1 Hinv)]].
  assert (Hskip : closed quiet program s1).
  { split; [exact (proj1 Hinv) | intros _; exact (proj2 Hinv (Hbefore eq_refl))]. }
  assert (Hpush : forall stmt, always stmt ->
            Forall always (statements program ++ [stmt])).
  { intros stmt Hstmt. apply Forall_app.
    split; [exact Hall | constructor; [exact Hstmt | constructor]]. }
  destruct (bool_decide (token1 = "val")).
  { bind_inv H as r Hr.
    assert (Hstmt : always (fst r) /\ (quiet (fst r) \/ failbit (snd r) = true)).
    { unfold parseValDecl in Hr.
      destruct (read_string "" s1) as [name s2].
      destruct (read_string "" (ignore1 s2)) as [type s3].
      bind_inv Hr as e He. inversion Hr; subst. cbn [fst].
      destruct (declaration_shape name type (Some (fst e))) as [Ha Hq]. auto. }
    exact (IH _ _ _ _ (closed_push _ _ _ _ _ _ Hskip Hok1 (proj2 Hstmt))
             (Hpush _ (proj1 Hstmt)) H). }
  destruct (bool_decide (token1 = "func")).
  { bind_inv H as r Hr. destruct r as [e s2]. cbn [fst snd] in H.
    destruct (function_shape _ _ _ _ Hr) as [Ha Hq].
    exact (IH _ _ _ _ (closed_push _ _ _ _ _ _ Hskip Hok1 Hq) (Hpush _ Ha) H). }
  destruct (bool_decide (token1 = "call")); [| exact (IH _ _ _ _ Hskip Hall H)].
  destruct (read_string "" s1) as [fname s2].
  bind_inv H as r Hr. destruct r as [e s3]. cbn [fst snd] in H.
  destruct (call_shape _ _ _ _ _ Hr) as [Ha Hq].
  exact (IH _ _ _ _ (closed_push _ _ _ _ _ _ Hskip Hok1 Hq) (Hpush _ Ha) H).
Qed.

Lemma parse_closed src program :
  parse src = Ok program ->
  Forall always (statements program)
  /\ forall init last, statements program = init ++ [last] -> Forall quiet init.
Proof.
  unfold parse. apply parse_statements_closed; [| constructor].
  split; cbn [statements].
  - intros init last Heq. destruct init; discriminate Heq.
  - intros _. constructor.
Qed.

(** A statement that is followed by another one is [quiet]. *)
Lemma parse_followed src program i stmt :
  parse src = Ok program ->
  statements program !! i = Some stmt ->
  (S i < length (statements program))%nat ->
  quiet stmt.
Proof.
  intros Hparse Hi Hlen.
  destruct (exists_last (l := statements program)) as (init & last & Hst).
  { intros Hnil. rewrite Hnil in Hi. discriminate Hi. }
  pose proof (proj2 (parse_closed src program Hparse) init last Hst) as Hinit.
  rewrite Hst in Hi, Hlen. rewrite length_app in Hlen. simpl in Hlen.
  rewrite lookup_app_l in Hi by lia.
  rewrite Forall_forall in Hinit.
  exact (Hinit _ (list_elem_of_lookup_2 _ _ _ Hi)).
Qed.

End Shape.

(** X10: a call that is given arguments takes the rest of the text as
    its arguments.  After an argument the parser stands at white space, so
    it never sees the closing parenthesis and goes on reading words until
    the text ends.  In a parsed program, therefore, every call that is
    followed by another statement has no arguments. *)
Theorem X10_call_with_arguments_ends_the_program (src : string) (program : ASTProgram)
    (i : nat) (funcName : string) (args : list ASTExpr) :
  parse src = Ok program ->
  statements program !! i = Some (ASTCall funcName args) ->
  (S i < length (statements program))%nat ->
  args = [].
Proof.
  intros Hparse Hi Hlen.
  assert (Hquiet : without_arguments (ASTCall funcName args)).
  { apply (parse_followed (fun _ => True) without_arguments) with (src := src)
      (program := program) (i := i); try assumption.
    - intros name type init. split; exact I.
    - intros fuel s e s' H. split; [exact I |].
      destruct (parseFunction_closed _ _ _ _ H) as [Hf _]. right. exact Hf.
    - intros fuel f s e s' H. split; [exact I |]. exact (parseCall_closed _ _ _ _ _ H). }
  destruct args; [reflexivity | contradiction].
Qed.

Lemma X10_witness :
  parse "call f () call g (1) val x int 2" =
    Ok (program_of [ ASTCall "f" [];
                     ASTCall "g" [ ASTLiteral "1)"; ASTVar "val"; ASTVar "x";
                                   ASTVar "int"; ASTLiteral "2" ] ])
  /\ @nil ASTExpr = [].
Proof.
  split; [vm_compute; reflexivity |].
  apply (X10_call_with_arguments_ends_the_program "call f () call g (1) val x int 2"
           (program_of [ ASTCall "f" [];
                         ASTCall "g" [ ASTLiteral "1)"; ASTVar "val"; ASTVar "x";
                                       ASTVar "int"; ASTLiteral "2" ] ]) 0 "f" []).
  - vm_compute. reflexivity.
  - reflexivity.
  - simpl. lia.
Defined.

(** X11: a function definition takes the rest of the text as its
    parameter list.  After the word that follows the name the parser
    stands at white space, so the closing parenthesis is never seen, every
    further word becomes a parameter and none is left for the body.  In a
    parsed program, therefore, a function definition is the last statement
    and has an empty body. *)
Theorem X11_function_definition_ends_the_program (src : string)
    (program : ASTProgram) (i : nat) (name : string) (ps : list string)
    (body : list ASTExpr) :
  parse src = Ok program ->
  statements program !! i = Some (ASTFunction name ps body) ->
  body = [] /\ S i = length (statements program).
Proof.
  intros Hparse Hi.
  assert (Hshape :
    forall fuel s e s', parseFunction fuel s = Ok (e, s') ->
      without_body e /\ (no_definition e \/ failbit s' = true)).
  { intros fuel s e s' H.
    destruct (parseFunction_closed _ _ _ _ H) as [Hf (n & p & ->)].
    split; [exact I | right; exact Hf]. }
  assert (Hcall :
    forall fuel f s e s', parseCall fuel f s = Ok (e, s') ->
      without_body e /\ (no_definition e \/ failbit s' = true)).
  { intros fuel f s e s' H. unfold parseCall in H. bind_inv H as r Hr.
    inversion H; subst. split; [exact I | left; exact I]. }
  assert (Hdecl : forall n t init,
            without_body (ASTValDecl n t init) /\ no_definition (ASTValDecl n t init)).
  { intros n t init. split; exact I. }
  split.
  - pose proof (proj1 (parse_closed without_body no_definition Hdecl Hshape Hcall
                         src program Hparse)) as Hall.
    rewrite Forall_forall in Hall.
    specialize (Hall _ (list_elem_of_lookup_2 _ _ _ Hi)).
    destruct body; [reflexivity | contradiction].
  - pose proof (lookup_lt_Some _ _ _ Hi) as Hlt.
    destruct (Nat.eq_dec (S i) (length (statements program))) as [Heq | Hne]; [exact Heq |].
    destruct (parse_followed without_body no_definition Hdecl Hshape Hcall
                src program i _ Hparse Hi).
    lia.
Qed.

Lemma X11_witness :
  let ps := ["x"; ")"; "{"; "call"; "say"; "("; "x"; ")"; "}"; "call"; "f"; "("; "7"; ")"] in
  parse "func f ( x ) { call say ( x ) } call f ( 7 )" =
    Ok {| statements := [ASTFunction "f" ps []];
          ast_functions := {[ "f" := ASTFunction "f" ps [] ]} |}
  /\ @nil ASTExpr = [] /\ 1%nat = 1%nat.
Proof.
  intros ps. split; [vm_compute; reflexivity |].
  apply (X11_function_definition_ends_the_program
           "func f ( x ) { call say ( x ) } call f ( 7 )"
           {| statements := [ASTFunction "f" ps []];
              ast_functions := {[ "f" := ASTFunction "f" ps [] ]} |}
           0 "f" ps []).
  - vm_compute. reflexivity.
  - reflexivity.
Defined.

(** *** Several definitions of one function *)

Lemma lower_functions_other name stmts :
  Forall (fun stmt => ~ defines name stmt) stmts ->
  forall irprog,
    functions (fold_left lower_functions stmts irprog) !! name = functions irprog !! name.
Proof.
  induction 1 as [| stmt stmts Hstmt _ IH]; intros irprog; [reflexivity |].
  cbn [fold_left]. rewrite IH.
  destruct stmt as [v | v | l o r | x t i | f a | f ps b]; try reflexivity.
  cbn [lower_functions]. rewrite lowerFunction_lookup.
  destruct (decide (name = f)) as [-> | Hne]; [| reflexivity].
  destruct Hstmt. reflexivity.
Qed.

(** X12: of several definitions of one function the last one wins.  The
    function that a name (other than [_main]) stands for in the lowered
    program is the lowering of its last definition in the text, and
    nothing is kept of the earlier ones. *)
Theorem X12_last_definition_wins (before after : list ASTExpr) (name : string)
    (ps : list string) (body : list ASTExpr) :
  name <> "_main" ->
  Forall (fun stmt => ~ defines name stmt) after ->
  functions (lower (program_of (before ++ ASTFunction name ps body :: after))) !! name
  = lowered_function name ps body.
Proof.
  intros Hmain Hafter. unfold lower. cbn [statements program_of].
  destruct (fold_left lower_stmt _ _) as [mainFn entry]. cbn [functions].
  rewrite lookup_insert_ne by congruence.
  rewrite fold_left_app. cbn [fold_left lower_functions].
  rewrite (lower_functions_other name after Hafter), lowerFunction_lookup.
  destruct (decide (name = name)); [reflexivity | contradiction].
Qed.

Lemma X12_witness :
  exists fn,
    functions
      (lower (program_of
         ([ASTFunction "f" ["x"] [ASTCall "say" [ASTLiteral "1"]]]
          ++ ASTFunction "f" [] [ASTCall "say" [ASTLiteral "2"]]
          :: [ASTCall "f" []]))) !! "f" = Some fn
    /\ params fn = []
    /\ all_instrs fn = [ {| op := Call; args := ["say"; "2"] |} ].
Proof.
  eexists. split.
  - rewrite (X12_last_definition_wins
               [ASTFunction "f" ["x"] [ASTCall "say" [ASTLiteral "1"]]]
               [ASTCall "f" []] "f" [] [ASTCall "say" [ASTLiteral "2"]]).
    + vm_compute. reflexivity.
    + discriminate.
    + repeat constructor. intros H. exact H.
  - split; reflexivity.
Defined.

(** *** Arguments of a call *)

Lemma bind_params_short ps actual :
  forall idx frame,
    (idx <= length actual < idx + length ps)%nat ->
    bind_params ps actual idx frame = Undefined.
Proof.
  induction ps as [| p ps IH]; intros idx frame Hlen; cbn [bind_params length] in *.
  - lia.
  - unfold at_index. destruct (actual !! idx) as [v |] eqn:Hv; [| reflexivity].
    rewrite bind_Ok_l. apply IH. apply lookup_lt_Some in Hv. lia.
Qed.

Lemma bind_params_more ps actual more :
  forall idx frame,
    (idx + length ps <= length actual)%nat ->
    bind_params ps (actual ++ more) idx frame = bind_params ps actual idx frame.
Proof.
  induction ps as [| p ps IH]; intros idx frame Hlen; cbn [bind_params length] in *;
    [reflexivity |].
  unfold at_index. rewrite lookup_app_l by lia.
  destruct (actual !! idx) as [v |]; [| reflexivity].
  rewrite !bind_Ok_l. apply IH. lia.
Qed.

(** X13: how a call treats its arguments.  Called with fewer arguments
    than it has parameters, a function reads past the end of the argument
    vector, which is undefined behaviour; arguments beyond the parameters
    are ignored. *)
Theorem X13_arguments_of_a_call (prog : IRProgram) (fuel : nat) (name : string)
    (fn : IRFunction) (actual : list Z) (st : IRInterpreter) :
  functions prog !! name = Some fn ->
  ((length actual < length (params fn))%nat ->
     call prog (S fuel) name actual st = Undefined)
  /\ ((length (params fn) <= length actual)%nat ->
      forall more,
        call prog (S fuel) name (actual ++ more) st = call prog (S fuel) name actual st).
Proof.
  intros Hfn. cbn [call]. rewrite Hfn. split.
  - intros Hlen. rewrite bind_params_short by (simpl; lia). reflexivity.
  - intros Hlen more. rewrite bind_params_more by (simpl; lia). reflexivity.
Qed.

Lemma X13_witness :
  let prog := lower (program_of [ ASTFunction "f" ["x"] [ASTCall "say" [ASTVar "x"]];
                                  ASTCall "f" [] ]) in
  execMain prog 2 = Undefined
  /\ call prog 1 "f" [] interp0 = Undefined
  /\ call prog 1 "f" [7; 8] interp0 = call prog 1 "f" [7] interp0.
Proof.
  intros prog. split; [vm_compute; reflexivity |].
  destruct (functions prog !! "f") as [fn |] eqn:Hfn;
    [| vm_compute in Hfn; discriminate Hfn].
  assert (Hps : params fn = ["x"]).
  { vm_compute in Hfn. inversion Hfn; subst fn. reflexivity. }
  split.
  - apply (proj1 (X13_arguments_of_a_call prog 0 "f" fn [] interp0 Hfn)).
    rewrite Hps. simpl. lia.
  - apply (proj2 (X13_arguments_of_a_call prog 0 "f" fn [7] interp0 Hfn)). rewrite Hps. simpl. lia.
Defined.

End QuartercProps.

(** ** The loop pipeline *)

Module MinimalProps.
Import Minimal.

Lemma lower_stmts_app before after acc :
  lower_stmts (before ++ after) acc =
    acc' ← lower_stmts before acc; lower_stmts after acc'.
Proof.
  revert acc. induction before as [| stmt before IH]; intros acc; simpl; [reflexivity |].
  destruct (lower_stmt acc stmt); simpl; try reflexivity. apply IH.
Qed.

Lemma lower_stmts_cons stmt rest acc :
  lower_stmts (stmt :: rest) acc = acc' ← lower_stmt acc stmt; lower_stmts rest acc'.
Proof. reflexivity. Qed.

(** C4, amended: in the loop pipeline a top-level declaration whose
    declared type is not [int] makes lowering fatal.  Once the statements
    before it are lowered, lowering prints the type error and exits with
    status 1, whatever follows; and in no case is an IR function
    returned. *)
Theorem C4_type_error_aborts_lowering (before after : list ASTExpr)
    (name type : string) (init : option ASTExpr) :
  type <> "int" ->
  (forall acc,
      lower_stmts before ([], []) = Ok acc ->
      lower {| statements := before ++ ASTValDecl name type init :: after |}
        = Exit 1 ("Type error: Only 'int' is supported." +:+ newline))
  /\ (forall fn,
        lower {| statements := before ++ ASTValDecl name type init :: after |}
          <> Ok fn).
Proof.
  intros Htype.
  assert (Hexit : forall acc,
             lower_stmts before ([], []) = Ok acc ->
             lower {| statements := before ++ ASTValDecl name type init :: after |}
               = Exit 1 ("Type error: Only 'int' is supported." +:+ newline)).
  { intros acc Hbefore. unfold lower. simpl statements.
    rewrite lower_stmts_app, Hbefore, bind_Ok_l, lower_stmts_cons.
    destruct acc as [entry fn_blocks]. unfold lower_stmt.
    rewrite bool_decide_eq_false_2 by exact Htype. reflexivity. }
  split; [exact Hexit |].
  intros fn Hfn.
  destruct (lower_stmts before ([], [])) as [acc | e | | c msg |] eqn:Hbefore.
  - rewrite (Hexit acc eq_refl) in Hfn. discriminate Hfn.
  - unfold lower in Hfn. simpl statements in Hfn.
    rewrite lower_stmts_app, Hbefore in Hfn. discriminate Hfn.
  - unfold lower in Hfn. simpl statements in Hfn.
    rewrite lower_stmts_app, Hbefore in Hfn. discriminate Hfn.
  - unfold lower in Hfn. simpl statements in Hfn.
    rewrite lower_stmts_app, Hbefore in Hfn. discriminate Hfn.
  - unfold lower in Hfn. simpl statements in Hfn.
    rewrite lower_stmts_app, Hbefore in Hfn. discriminate Hfn.
Qed.

Lemma C4_witness :
  "float" <> "int" /\
  lower {| statements := [ ASTValDecl "a" "int" (Some (ASTLiteral "1"));
                           ASTValDecl "b" "float" (Some (ASTLiteral "2"));
                           ASTValDecl "c" "int" (Some (ASTLiteral "3")) ] |}
    = Exit 1 ("Type error: Only 'int' is supported." +:+ newline).
Proof.
  assert (Htype : "float" <> "int") by discriminate.
  split; [exact Htype |].
  exact (proj1 (C4_type_error_aborts_lowering
                  [ASTValDecl "a" "int" (Some (ASTLiteral "1"))]
                  [ASTValDecl "c" "int" (Some (ASTLiteral "3"))]
                  "b" "float" (Some (ASTLiteral "2")) Htype)
           _ eq_refl).
Defined.

(** A declaration inside a loop body is lowered without a look at its
    declared type. *)
Example loop_body_declaration_lowered :
  lower {| statements :=
             [ ASTLoop (Some (ASTLiteral "0")) (Some (ASTLiteral "5"))
                 [ ASTValDecl "t" "float" (Some (ASTLiteral "1")) ] ] |}
  = Ok {| fn_name := "_main";
          blocks :=
            [ {| bb_name := "loop_cond";
                 instrs := [ {| op := CondJump; args := ["i"; "5"; "loop_end"] |};
                             {| op := Jump; args := ["loop_body"] |} ] |};
              {| bb_name := "loop_body";
                 instrs := [ {| op := Alloc; args := ["t"] |};
                             {| op := Store; args := ["t"; "1"] |};
                             {| op := Add; args := ["i"; "1"] |};
                             {| op := Jump; args := ["loop_cond"] |} ] |};
              {| bb_name := "loop_end"; instrs := [] |};
              {| bb_name := "entry";
                 instrs := [ {| op := Alloc; args := ["i"] |};
                             {| op := Store; args := ["i"; "0"] |};
                             {| op := Jump; args := ["loop_cond"] |} ] |} ] |}.
Proof. reflexivity. Qed.

(** *** Running the lowered loop *)

Lemma resolve_literal k c st v n :
  counting k c st -> stoi v = Ok n -> resolve st v = Ok n.
Proof.
  intros (_ & Hkeys & _) Hv. unfold resolve.
  destruct (values st !! v) as [x |] eqn:Hx; [| exact Hv].
  rewrite (Hkeys v x Hx) in Hv. discriminate Hv.
Qed.

Lemma increments_log instr st :
  increments (log instr st) =
    (increments st + if is_increment instr then 1 else 0)%nat.
Proof.
  unfold increments, log. cbn [executed]. rewrite List.filter_app, length_app.
  cbn [List.filter]. destruct (is_increment instr); reflexivity.
Qed.

Lemma resolve_log instr st x : resolve (log instr st) x = resolve st x.
Proof. reflexivity. Qed.

Lemma counting_log k c st instr :
  counting k c st ->
  counting k (c + if is_increment instr then 1 else 0) (log instr st).
Proof.
  intros (Hi & Hkeys & Hc). unfold counting.
  split; [exact Hi |]. split; [exact Hkeys |].
  rewrite increments_log, Hc. reflexivity.
Qed.

Lemma counting_bind_other k c st name v :
  counting k c st ->
  stoi name = Throw (invalid_argument "stoi") -> name <> "i" ->
  counting k c (bind name v st).
Proof.
  intros (Hi & Hkeys & Hc) Hname Hne. unfold counting, bind. cbn [values].
  split; [rewrite lookup_insert_ne by congruence; exact Hi |]. split.
  - intros key x Hx. destruct (decide (key = name)) as [-> | Hkey]; [exact Hname |].
    rewrite lookup_insert_ne in Hx by congruence. exact (Hkeys key x Hx).
  - exact Hc.
Qed.

Lemma counting_bind_i k c st v :
  counting k c st -> counting v c (bind "i" v st).
Proof.
  intros (Hi & Hkeys & Hc). unfold counting, bind. cbn [values].
  split; [apply lookup_insert_eq |]. split.
  - intros key x Hx. destruct (decide (key = "i")) as [-> | Hkey]; [reflexivity |].
    rewrite lookup_insert_ne in Hx by congruence. exact (Hkeys key x Hx).
  - exact Hc.
Qed.

Lemma counting_same k c c' st : counting k c st -> c = c' -> counting k c' st.
Proof. intros H <-. exact H. Qed.

(** What a block does, by its first instruction. *)
Lemma exec_block_Alloc x rest st :
  exec_block ({| op := Alloc; args := [x] |} :: rest) st =
    exec_block rest (bind x 0 (log {| op := Alloc; args := [x] |} st)).
Proof. reflexivity. Qed.

Lemma exec_block_Store x v n rest st :
  resolve st v = Ok n ->
  exec_block ({| op := Store; args := [x; v] |} :: rest) st =
    exec_block rest (bind x n (log {| op := Store; args := [x; v] |} st)).
Proof.
  intros Hv. cbn [exec_block]. unfold exec_instr. cbn [op args].
  rewrite resolve_log, Hv. reflexivity.
Qed.

Lemma exec_block_Add x v a n rest st :
  resolve st x = Ok a -> resolve st v = Ok n -> INT_MIN <= a + n <= INT_MAX ->
  exec_block ({| op := Add; args := [x; v] |} :: rest) st =
    exec_block rest (bind x (a + n) (log {| op := Add; args := [x; v] |} st)).
Proof.
  intros Hx Hv Hsum. cbn [exec_block]. unfold exec_instr. cbn [op args].
  rewrite !resolve_log, Hx, Hv. cbn [mbind outcome_bind]. unfold int_add.
  replace (in_int (a + n)) with true
    by (symmetry; unfold in_int; apply andb_true_intro; split; lia).
  reflexivity.
Qed.

Lemma exec_block_Jump l rest st :
  exec_block ({| op := Jump; args := [l] |} :: rest) st =
    Ok (Some l, log {| op := Jump; args := [l] |} st).
Proof. reflexivity. Qed.

Lemma exec_block_CondJump x bound l a b rest st :
  resolve st x = Ok a -> resolve st bound = Ok b ->
  exec_block ({| op := CondJump; args := [x; bound; l] |} :: rest) st =
    if a =? b then Ok (Some l, log {| op := CondJump; args := [x; bound; l] |} st)
    else exec_block rest (log {| op := CondJump; args := [x; bound; l] |} st).
Proof.
  intros Hx Hb. cbn [exec_block]. unfold exec_instr. cbn [op args].
  rewrite !resolve_log, Hx, Hb. cbn [mbind outcome_bind].
  destruct (a =? b); reflexivity.
Qed.

Lemma exec_body code :
  Forall body_instr code ->
  forall rest k c st,
    counting k c st ->
    exists st', exec_block (code ++ rest) st = exec_block rest st' /\ counting k c st'.
Proof.
  induction 1 as [| instr code Hinstr _ IH]; intros rest k c st Hst.
  - exists st. split; [reflexivity | exact Hst].
  - destruct Hinstr as (name & Hname & Hne & [-> | (v & n & Hv & ->)]).
    + pose proof (counting_log k c st {| op := Alloc; args := [name] |} Hst) as H1.
      cbn [is_increment op args] in H1. rewrite Nat.add_0_r in H1.
      destruct (IH rest k c _ (counting_bind_other k c _ name 0 H1 Hname Hne))
        as (st' & Hrun & Hst').
      exists st'. split; [| exact Hst'].
      cbn [app]. rewrite exec_block_Alloc. exact Hrun.
    + pose proof (counting_log k c st {| op := Store; args := [name; v] |} Hst) as H1.
      cbn [is_increment op args] in H1. rewrite Nat.add_0_r in H1.
      destruct (IH rest k c _ (counting_bind_other k c _ name n H1 Hname Hne))
        as (st' & Hrun & Hst').
      exists st'. split; [| exact Hst'].
      cbn [app]. rewrite (exec_block_Store name v n) by exact (resolve_literal k c st v n Hst Hv).
      exact Hrun.
Qed.

Lemma lower_body_apart body :
  Forall apart body ->
  forall acc, exists code, lower_body body acc = Ok (acc ++ code) /\ Forall body_instr code.
Proof.
  induction 1 as [| inner body Hinner _ IH]; intros acc.
  - exists []. rewrite app_nil_r. split; [reflexivity | constructor].
  - cbn [lower_body].
    destruct inner as [v | l o r | name type init | s e b]; cbn [lower_inner].
    1, 2, 4: destruct (IH acc) as (code & Hcode & Hall); exists code;
      rewrite bind_Ok_l; split; assumption.
    destruct Hinner as (Hname & Hne & v & n & -> & Hv). cbn [literal_value].
    rewrite !bind_Ok_l.
    destruct (IH (acc ++ [ {| op := Alloc; args := [name] |};
                            {| op := Store; args := [name; v] |} ]))
      as (code & Hcode & Hall).
    exists ({| op := Alloc; args := [name] |} :: {| op := Store; args := [name; v] |} :: code).
    split.
    + rewrite Hcode, <- app_assoc. reflexivity.
    + constructor; [exists name; auto |].
      constructor; [exists name; eauto 8 | exact Hall].
Qed.

Lemma lower_loop a b body :
  Forall apart body ->
  exists code,
    lower (loop_from_to a b body) =
      Ok {| fn_name := "_main"; blocks := loop_blocks (to_string a) (to_string b) code |}
    /\ Forall body_instr code.
Proof.
  intros Hbody. destruct (lower_body_apart body Hbody []) as (code & Hcode & Hall).
  exists code. split; [| exact Hall].
  unfold lower, loop_from_to. cbn [statements lower_stmts lower_stmt literal_value].
  rewrite !bind_Ok_l, Hcode. reflexivity.
Qed.

Lemma resolve_i k c st : counting k c st -> resolve st "i" = Ok k.
Proof. intros (Hi & _). unfold resolve. rewrite Hi. reflexivity. Qed.

Lemma counting_start :
  counting 0 0 (bind "i" 0 (log {| op := Alloc; args := ["i"] |}
                              {| values := ∅; executed := [] |})).
Proof.
  unfold counting, bind, log. cbn [values executed]. split; [apply lookup_insert_eq |].
  split; [| reflexivity].
  intros key v Hv. destruct (decide (key = "i")) as [-> | Hne]; [reflexivity |].
  rewrite lookup_insert_ne, lookup_empty in Hv by congruence. discriminate Hv.
Qed.

Section Loop.

Variables (from bound : string) (a b : Z) (code : list IRInstr).
Hypothesis from_value : stoi from = Ok a.
Hypothesis bound_value : stoi bound = Ok b.
Hypothesis code_apart : Forall body_instr code.

Let fn : IRFunction := {| fn_name := "_main"; blocks := loop_blocks from bound code |}.

Lemma entry_step :
  exists st, block_step fn at_entry = Ok (Some "loop_cond", st) /\ counting a 0 st.
Proof.
  pose proof counting_start as H0.
  pose proof (counting_log _ _ _ {| op := Store; args := ["i"; from] |} H0) as H1.
  cbn [is_increment op args] in H1.
  pose proof (counting_log _ _ _ {| op := Jump; args := ["loop_cond"] |}
                (counting_bind_i _ _ _ a H1)) as H2.
  cbn [is_increment op args] in H2.
  eexists. split; [| exact H2].
  unfold block_step, at_entry, fn. cbn [fst snd blocks].
  change (find_block (loop_blocks from bound code) "entry")
    with (Some {| bb_name := "entry";
                  instrs := [ {| op := Alloc; args := ["i"] |};
                              {| op := Store; args := ["i"; from] |};
                              {| op := Jump; args := ["loop_cond"] |} ] |}).
  cbn [instrs]. rewrite exec_block_Alloc.
  rewrite (exec_block_Store "i" from a) by exact (resolve_literal _ _ _ from a H0 from_value).
  rewrite exec_block_Jump. reflexivity.
Qed.

Lemma cond_step k c st :
  counting k c st ->
  exists st',
    block_step fn (Some "loop_cond", st) =
      Ok (Some (if k =? b then "loop_end" else "loop_body"), st')
    /\ counting k c st'.
Proof.
  intros Hst.
  pose proof (counting_log k c st {| op := CondJump; args := ["i"; bound; "loop_end"] |}
                Hst) as H1.
  cbn [is_increment op args] in H1. rewrite Nat.add_0_r in H1.
  pose proof (counting_log k c _ {| op := Jump; args := ["loop_body"] |} H1) as H2.
  cbn [is_increment op args] in H2. rewrite Nat.add_0_r in H2.
  unfold block_step, fn. cbn [fst snd blocks].
  change (find_block (loop_blocks from bound code) "loop_cond")
    with (Some {| bb_name := "loop_cond";
                  instrs := [ {| op := CondJump; args := ["i"; bound; "loop_end"] |};
                              {| op := Jump; args := ["loop_body"] |} ] |}).
  cbn [instrs].
  rewrite (exec_block_CondJump "i" bound "loop_end" k b)
    by first [exact (resolve_i _ _ _ Hst) | exact (resolve_literal _ _ _ bound b Hst bound_value)].
  destruct (k =? b).
  - eexists. split; [reflexivity | exact H1].
  - rewrite exec_block_Jump. eexists. split; [reflexivity | exact H2].
Qed.

Lemma body_step k c st :
  counting k c st -> INT_MIN <= k + 1 <= INT_MAX ->
  exists st',
    block_step fn (Some "loop_body", st) = Ok (Some "loop_cond", st')
    /\ counting (k + 1) (S c) st'.
Proof.
  intros Hst Hk.
  unfold block_step, fn. cbn [fst snd blocks].
  change (find_block (loop_blocks from bound code) "loop_body")
    with (Some {| bb_name := "loop_body";
                  instrs := code ++ [ {| op := Add; args := ["i"; "1"] |};
                                      {| op := Jump; args := ["loop_cond"] |} ] |}).
  cbn [instrs].
  destruct (exec_body code code_apart
              [ {| op := Add; args := ["i"; "1"] |}; {| op := Jump; args := ["loop_cond"] |} ]
              k c st Hst) as (st1 & Hrun & H1).
  rewrite Hrun.
  pose proof (counting_log k c st1 {| op := Add; args := ["i"; "1"] |} H1) as H2.
  cbn [is_increment op args] in H2. rewrite bool_decide_eq_true_2 in H2 by reflexivity.
  pose proof (counting_log _ _ _ {| op := Jump; args := ["loop_cond"] |}
                (counting_bind_i _ _ _ (k + 1) H2)) as H3.
  cbn [is_increment op args] in H3.
  rewrite (exec_block_Add "i" "1" k 1)
    by first [exact (resolve_i _ _ _ H1) | exact (resolve_literal _ _ _ "1" 1 H1 eq_refl)
             | exact Hk].
  rewrite exec_block_Jump.
  eexists. split; [reflexivity |].
  apply (counting_same _ _ _ _ H3). lia.
Qed.

Lemma end_step st : block_step fn (Some "loop_end", st) = Ok (None, st).
Proof. reflexivity. Qed.

(** From the head of [loop_cond] with [n] to go. *)
Lemma loop_runs n :
  forall k c st,
    b - k = Z.of_nat n -> INT_MIN <= k -> b <= INT_MAX ->
    counting k c st ->
    exists final,
      run (2 * n + 2) fn (Some "loop_cond", st) = Ok (None, final)
      /\ counting b (c + n) final.
Proof.
  induction n as [| n IH]; intros k c st Hn Hlo Hhi Hst.
  - assert (k = b) by lia. subst k.
    destruct (cond_step b c st Hst) as (st1 & Hcond & H1).
    rewrite Z.eqb_refl in Hcond.
    exists st1. cbn [Nat.mul Nat.add run]. rewrite Hcond, bind_Ok_l, end_step.
    split; [reflexivity |]. rewrite Nat.add_0_r. exact H1.
  - destruct (cond_step k c st Hst) as (st1 & Hcond & H1).
    replace (k =? b) with false in Hcond by (symmetry; apply Z.eqb_neq; lia).
    destruct (body_step k c st1 H1) as (st2 & Hbody & H2); [lia |].
    destruct (IH (k + 1) (S c) st2) as (final & Hrun & Hfinal); try lia; [exact H2 |].
    exists final. split.
    + replace (2 * S n + 2)%nat with (S (S (2 * n + 2))) by lia.
      cbn [run]. rewrite Hcond, bind_Ok_l, Hbody, bind_Ok_l. exact Hrun.
    + replace (c + S n)%nat with (S c + n)%nat by lia. exact Hfinal.
Qed.

End Loop.

Lemma run_over fuel fn st : run fuel fn (None, st) = Ok (None, st).
Proof. induction fuel as [| fuel IH]; [reflexivity | exact IH]. Qed.

Lemma run_add m k fn c : run (m + k) fn c = c' ← run m fn c; run k fn c'.
Proof.
  revert c. induction m as [| m IH]; intros c; [reflexivity |].
  cbn [Nat.add run]. destruct (block_step fn c); try reflexivity.
  rewrite !bind_Ok_l. apply IH.
Qed.





(** *** The parser of the loop pipeline *)

Lemma parseExpr_failed s : failbit s = true -> parseExpr s = (ASTLiteral "", s).
Proof.
  intros Hf. unfold parseExpr. rewrite !(read_string_failed _ s Hf).
  rewrite ok_failbit, Hf. reflexivity.
Qed.

(** [parseExpr] gives a binary node and a stream still in order, or a
    literal and a failed stream. *)
Lemma parseExpr_spec s :
  (remaining (snd (parseExpr s)) <= remaining s)%nat
  /\ ((exists l o r, fst (parseExpr s) = ASTBinary l o r
                     /\ ok (snd (parseExpr s)) = true)
      \/ (exists v, fst (parseExpr s) = ASTLiteral v
                    /\ failbit (snd (parseExpr s)) = true)).
Proof.
  unfold parseExpr.
  pose proof (read_string_le "" s) as H1.
  destruct (read_string "" s) as [lhs s1]. cbn [snd] in H1.
  pose proof (read_string_le "" s1) as H2.
  destruct (read_string "" s1) as [o s2]. cbn [snd] in H2.
  rewrite ok_failbit, negb_involutive.
  destruct (failbit s2) eqn:Hf2; cbn [fst snd].
  - split; [lia | right; eauto].
  - pose proof (read_string_le "" s2) as H3.
    destruct (read_string "" s2) as [rhs s3]. cbn [snd] in H3.
    rewrite ok_failbit, negb_involutive.
    destruct (failbit s3) eqn:Hf3; cbn [fst snd].
    + split; [lia | right; eauto].
    + split; [lia | left]. exists lhs, o, rhs. rewrite ok_failbit, Hf3. split; reflexivity.
Qed.

Lemma parseValDecl_spec s :
  (remaining (snd (parseValDecl s)) <= remaining s)%nat
  /\ ((three_words (fst (parseValDecl s)) /\ ok (snd (parseValDecl s)) = true)
      \/ (cut_short (fst (parseValDecl s)) /\ failbit (snd (parseValDecl s)) = true)).
Proof.
  unfold parseValDecl.
  pose proof (read_string_le "" s) as H1.
  destruct (read_string "" s) as [name s1]. cbn [snd] in H1.
  pose proof (ignore1_remaining s1) as H2.
  pose proof (read_string_le "" (ignore1 s1)) as H3.
  destruct (read_string "" (ignore1 s1)) as [type s3]. cbn [snd] in H3.
  pose proof (ignore1_remaining s3) as H4.
  pose proof (parseExpr_spec (ignore1 s3)) as [H5 Hshape].
  destruct (parseExpr (ignore1 s3)) as [init s5]. cbn [fst snd] in *.
  split; [lia |].
  destruct Hshape as [(l & o & r & -> & Hok) | (v & -> & Hf)]; [left | right];
    (split; [exact I | assumption]).
Qed.

Lemma parseLoop_body_return fuel :
  forall s token body,
    (remaining s + 1 <= fuel)%nat ->
    exists body' s' token',
      parseLoop_body fuel s token body = Ok (body', s', token')
      /\ (remaining s' <= remaining s)%nat
      /\ (failbit s = true -> body' = body /\ failbit s' = true).
Proof.
  induction fuel as [| fuel IH]; intros s token body Hfuel; [lia |].
  cbn [parseLoop_body].
  pose proof (read_string_ok token s) as Hread.
  pose proof (read_string_le token s) as Hle.
  pose proof (read_string_failed token s) as Hfail.
  destruct (read_string token s) as [token1 s1]. cbn [snd] in Hread, Hle.
  destruct (ok s1) eqn:Hok1; cbn [andb].
  - destruct (Hread eq_refl) as [Hok Hlt].
    assert (Hnf : failbit s = true -> False).
    { intros Hf. rewrite ok_failbit, Hf in Hok. discriminate. }
    destruct (negb (bool_decide (token1 = "}"))).
    + destruct (bool_decide (token1 = "val")).
      * pose proof (parseValDecl_spec s1) as [Hd _].
        destruct (parseValDecl s1) as [decl s2]. cbn [snd] in Hd.
        destruct (IH s2 token1 (body ++ [decl])) as (b' & s' & t' & Heq & Hle' & _); [lia |].
        exists b', s', t'. split; [exact Heq |]. split; [lia | intros Hf; destruct (Hnf Hf)].
      * destruct (IH s1 token1 body) as (b' & s' & t' & Heq & Hle' & _); [lia |].
        exists b', s', t'. split; [exact Heq |]. split; [lia | intros Hf; destruct (Hnf Hf)].
    + exists body, s1, token1. split; [reflexivity |].
      split; [lia | intros Hf; destruct (Hnf Hf)].
  - exists body, s1, token1. split; [reflexivity |]. split; [lia |].
    intros Hf. specialize (Hfail Hf). inversion Hfail; subst. split; [reflexivity | exact Hf].
Qed.

Lemma shaped_push program s stmt s' :
  shaped program s -> ok s = true ->
  three_words stmt \/ (cut_short stmt /\ failbit s' = true) ->
  shaped (program ++ [stmt]) s'.
Proof.
  intros [_ Hall] Hok Hstmt. specialize (Hall Hok). split.
  - intros init last Heq. apply app_inj_tail in Heq as [<- <-].
    split; [exact Hall |]. destruct Hstmt as [H | [H _]]; auto.
  - intros Hok'. destruct Hstmt as [H | [_ Hf]].
    + apply Forall_app. split; [exact Hall | constructor; [exact H | constructor]].
    + rewrite ok_failbit, Hf in Hok'. discriminate.
Qed.

Lemma shaped_skip program s s' :
  shaped program s -> ok s = true -> shaped program s'.
Proof.
  intros [Hlast Hall] Hok. split; [exact Hlast | intros _; exact (Hall Hok)].
Qed.

Lemma parse_statements_shaped fuel :
  forall s token program,
    (remaining s + 1 <= fuel)%nat ->
    shaped program s ->
    exists stmts s',
      parse_statements fuel s token program = Ok stmts /\ shaped stmts s'.
Proof.
  induction fuel as [| fuel IH]; intros s token program Hfuel Hshape; [lia |].
  cbn [parse_statements].
  pose proof (read_string_ok token s) as Hread.
  destruct (read_string token s) as [token1 s1]. cbn [snd] in Hread.
  destruct (ok s1) eqn:Hok1; [| exists program, s; split; [reflexivity | exact Hshape]].
  destruct (Hread eq_refl) as [Hok Hlt].
  destruct (bool_decide (token1 = "val")).
  { pose proof (parseValDecl_spec s1) as [Hd Hdecl].
    destruct (parseValDecl s1) as [decl s2]. cbn [fst snd] in Hd, Hdecl.
    apply IH; [lia |]. eapply shaped_push; [exact Hshape | exact Hok |].
    destruct Hdecl as [[H _] | H]; auto. }
  destruct (bool_decide (token1 = "loop")); [| apply IH; [lia | eapply shaped_skip; eassumption]].
  pose proof (parseExpr_spec s1) as [H2 Hstart].
  pose proof (parseExpr_failed s1) as Hstart0.
  destruct (parseExpr s1) as [start s2]. cbn [fst snd] in H2, Hstart.
  pose proof (read_string_le "" s2) as H3.
  pose proof (read_string_failed "" s2) as Hto0.
  destruct (read_string "" s2) as [to s3]. cbn [snd] in H3.
  pose proof (parseExpr_spec s3) as [H4 Hend].
  pose proof (parseExpr_failed s3) as Hend0.
  destruct (parseExpr s3) as [end_ s4]. cbn [fst snd] in H4, Hend.
  pose proof (read_string_le "" s4) as H5.
  pose proof (read_string_failed "" s4) as Hbrace0.
  destruct (read_string "" s4) as [brace s5]. cbn [snd] in H5.
  destruct (parseLoop_body_return fuel s5 token1 []) as (body & s6 & token6 & -> & H6 & Hbody0);
    [lia |].
  rewrite bind_Ok_l. apply IH; [lia |].
  eapply shaped_push; [exact Hshape | exact Hok |].
  destruct Hstart as [(l & o & r & -> & Hok2) | (v & -> & Hf2)].
  - destruct Hend as [(l' & o' & r' & -> & Hok4) | (v' & -> & Hf4)].
    + left. exact I.
    + right. specialize (Hbrace0 Hf4). inversion Hbrace0; subst.
      destruct (Hbody0 Hf4) as [-> Hf6]. split; [exact I | exact Hf6].
  - right. specialize (Hto0 Hf2). inversion Hto0; subst.
    specialize (Hend0 Hf2). inversion Hend0; subst.
    specialize (Hbrace0 Hf2). inversion Hbrace0; subst.
    destruct (Hbody0 Hf2) as [-> Hf6]. split; [exact I | exact Hf6].
Qed.

Lemma parse_shaped src program :
  parse src = Ok program ->
  forall init last, statements program = init ++ [last] ->
    Forall three_words init /\ (three_words last \/ cut_short last).
Proof.
  unfold parse. intros Hparse.
  destruct (parse_statements_shaped (parse_fuel src) (istringstream src) "" [])
    as (stmts & s' & Heq & [Hshape _]).
  - unfold parse_fuel, remaining. simpl. lia.
  - split; [| intros _; constructor].
    intros init last Heq. destruct init; discriminate Heq.
  - rewrite Heq in Hparse. inversion Hparse; subst. exact Hshape.
Qed.

Lemma parse_total src : exists program, parse src = Ok program.
Proof.
  unfold parse.
  destruct (parse_statements_shaped (parse_fuel src) (istringstream src) "" [])
    as (stmts & s' & Heq & _).
  - unfold parse_fuel, remaining. simpl. lia.
  - split; [| intros _; constructor].
    intros init last Heq. destruct init; discriminate Heq.
  - rewrite Heq. eexists. reflexivity.
Qed.

(** X14: the parser of the loop pipeline returns a program for every
    text: it raises no error, reads nothing out of bounds and comes to an
    end, whatever it is given. *)
Theorem X14_parse_returns_a_program (src : string) :
  exists program, parse src = Ok program.
Proof. exact (parse_total src). Qed.

(** X15: an initializer, and each bound of a loop, is the next three
    words of the text whenever three are left, whatever they are.  So in a
    parsed program every statement that is followed by another one is a
    declaration with a binary initializer or a loop with two binary
    bounds; a literal can only come out of the statement on which the text
    ran out. *)
Theorem X15_followed_statement_took_three_words (src : string) (program : ASTProgram)
    (i : nat) (stmt : ASTExpr) :
  parse src = Ok program ->
  statements program !! i = Some stmt ->
  (S i < length (statements program))%nat ->
  three_words stmt.
Proof.
  intros Hparse Hi Hlen.
  destruct (exists_last (l := statements program)) as (init & last & Hst).
  { intros Hnil. rewrite Hnil in Hi. discriminate Hi. }
  destruct (parse_shaped src program Hparse init last Hst) as [Hall _].
  rewrite Hst in Hi, Hlen. rewrite length_app in Hlen. simpl in Hlen.
  rewrite lookup_app_l in Hi by lia.
  rewrite Forall_forall in Hall. apply Hall. eapply list_elem_of_lookup_2. exact Hi.
Qed.

Lemma X15_witness :
  parse "val a int 1 + 2 val b int 3" =
    Ok {| statements := [ ASTValDecl "a" "int" (Some (ASTBinary "1" "+" "2"));
                          ASTValDecl "b" "int" (Some (ASTLiteral "3")) ] |}
  /\ three_words (ASTValDecl "a" "int" (Some (ASTBinary "1" "+" "2"))).
Proof.
  split; [vm_compute; reflexivity |].
  apply (X15_followed_statement_took_three_words "val a int 1 + 2 val b int 3"
           {| statements := [ ASTValDecl "a" "int" (Some (ASTBinary "1" "+" "2"));
                              ASTValDecl "b" "int" (Some (ASTLiteral "3")) ] |} 0).
  - vm_compute. reflexivity.
  - reflexivity.
  - simpl. lia.
Defined.

Lemma parse_each src program stmt :
  parse src = Ok program -> stmt ∈ statements program ->
  three_words stmt \/ cut_short stmt.
Proof.
  intros Hparse Hin.
  destruct (exists_last (l := statements program)) as (init & last & Hst).
  { intros Hnil. rewrite Hnil in Hin. inversion Hin. }
  destruct (parse_shaped src program Hparse init last Hst) as [Hall Hlast].
  rewrite Hst in Hin. apply elem_of_app in Hin as [Hin | Hin].
  - left. rewrite Forall_forall in Hall. exact (Hall _ Hin).
  - apply list_elem_of_singleton in Hin as ->. exact Hlast.
Qed.

Lemma lower_stmts_each stmts :
  forall acc r stmt,
    lower_stmts stmts acc = Ok r -> stmt ∈ stmts ->
    exists a a', lower_stmt a stmt = Ok a'.
Proof.
  induction stmts as [| s0 rest IH]; intros acc r stmt Hlow Hin; [inversion Hin |].
  cbn [lower_stmts] in Hlow. bind_inv Hlow as acc1 Hacc1.
  apply elem_of_cons in Hin as [-> | Hin]; eauto.
Qed.

(** X16: no loop written in a source text is lowered with its bound.
    Lowering needs both bounds to be literals, and the parser yields a
    literal start only when the text ends within it; so whenever a parsed
    program is lowered at all, each of its loops has the empty text as its
    end bound and no body.  ([loop 0 to 5 { }] itself is parsed with the
    start [0 to 5], on which lowering is undefined.) *)
Theorem X16_lowered_loop_has_no_bound (src : string) (program : ASTProgram)
    (fn : IRFunction) (start end_ : option ASTExpr) (body : list ASTExpr) :
  parse src = Ok program ->
  lower program = Ok fn ->
  ASTLoop start end_ body ∈ statements program ->
  (exists v, start = Some (ASTLiteral v)) /\ end_ = Some (ASTLiteral "") /\ body = [].
Proof.
  intros Hparse Hlower Hin.
  unfold lower in Hlower. bind_inv Hlower as r Hr.
  destruct (lower_stmts_each _ _ _ _ Hr Hin) as ([entry bs] & a' & Hstmt).
  destruct (parse_each src program _ Hparse Hin) as [H3 | Hcut].
  - destruct start as [[] |]; try contradiction. discriminate Hstmt.
  - destruct start as [[v | l o r0 | |] |]; try contradiction.
    + destruct end_ as [[v' | | |] |]; try contradiction.
      destruct v'; [| contradiction]. destruct body; [| contradiction]. eauto.
    + discriminate Hstmt.
Qed.

Lemma X16_witness :
  (p ← parse "loop 0 to 5 { }"; lower p) = Undefined
  /\ parse "loop 0" =
       Ok {| statements := [ASTLoop (Some (ASTLiteral "0")) (Some (ASTLiteral "")) []] |}
  /\ (exists fn,
        lower {| statements := [ASTLoop (Some (ASTLiteral "0")) (Some (ASTLiteral "")) []] |}
          = Ok fn)
  /\ (exists v, Some (ASTLiteral "0") = Some (ASTLiteral v))
  /\ Some (ASTLiteral "") = Some (ASTLiteral "")
  /\ @nil ASTExpr = [].
Proof.
  split; [vm_compute; reflexivity |].
  split; [vm_compute; reflexivity |]. split; [eexists; vm_compute; reflexivity |].
  eapply (X16_lowered_loop_has_no_bound "loop 0").
  - vm_compute. reflexivity.
  - vm_compute. reflexivity.
  - cbn. apply list_elem_of_here.
Defined.

Lemma at_index_lt {A} (v : list A) i :
  (i < length v)%nat -> exists a, at_index v i = Ok a.
Proof.
  intros Hi. unfold at_index.
  destruct (lookup_lt_is_Some_2 v i Hi) as [a ->]. eauto.
Qed.

Lemma emitInstr_plain instr l : emitInstr instr = Ok l -> Forall plain l.
Proof.
  unfold emitInstr. intros H.
  destruct (op instr);
    repeat (let a := fresh "a" in let Ha := fresh "Ha" in bind_inv H as a Ha);
    inversion H; subst; repeat constructor.
Qed.

Lemma emitInstr_enough instr : enough instr -> exists l, emitInstr instr = Ok l.
Proof.
  unfold enough, emitInstr. intros H.
  destruct (op instr); simpl in H;
    repeat match goal with
    | |- context [at_index (args instr) ?i] =>
        let a := fresh "a" in
        destruct (at_index_lt (args instr) i) as [a ->]; [lia |]; rewrite bind_Ok_l
    end; eauto.
Qed.

Lemma emitInstrs_enough ins :
  Forall enough ins ->
  exists l, emitInstrs ins = Ok l /\ Forall plain l.
Proof.
  induction 1 as [| instr ins Hinstr _ (ls & Hls & Hplain)];
    [exists []; split; [reflexivity | constructor] |].
  destruct (emitInstr_enough instr Hinstr) as [l Hl].
  exists (l ++ ls). cbn [emitInstrs]. rewrite Hl, bind_Ok_l, Hls, bind_Ok_l.
  split; [reflexivity |]. apply Forall_app.
  split; [eapply emitInstr_plain; exact Hl | exact Hplain].
Qed.

Lemma labels_plain l : Forall plain l -> labels l = [].
Proof.
  induction 1 as [| x l Hx _ IH]; [reflexivity |].
  destruct x; try contradiction; exact IH.
Qed.

Lemma labels_app l1 l2 : labels (l1 ++ l2) = labels l1 ++ labels l2.
Proof.
  induction l1 as [| x l1 IH]; [reflexivity |].
  destruct x; simpl; rewrite IH; reflexivity.
Qed.

Lemma plain_not_placeholder l : Forall plain l -> x_unimplemented ∉ l.
Proof.
  intros H Hin. rewrite Forall_forall in H. exact (H _ Hin).
Qed.

Lemma emitBlocks_enough bs :
  Forall (fun b => Forall enough (instrs b)) bs ->
  exists l, emitBlocks bs = Ok l /\ (x_unimplemented ∉ l) /\ labels l = map bb_name bs.
Proof.
  induction 1 as [| b bs Hb _ (ls & Hls & Hno & Hlab)];
    [exists []; split; [reflexivity | split; [apply not_elem_of_nil | reflexivity]] |].
  destruct (emitInstrs_enough _ Hb) as (l & Hl & Hplain).
  exists (x_label (bb_name b) :: l ++ ls). cbn [emitBlocks].
  rewrite Hl, bind_Ok_l, Hls, bind_Ok_l. split; [reflexivity |]. split.
  - intros Hin. apply elem_of_cons in Hin as [Heq | Hin]; [discriminate Heq |].
    apply elem_of_app in Hin as [Hin | Hin]; [| exact (Hno Hin)].
    exact (plain_not_placeholder _ Hplain Hin).
  - cbn [labels map]. rewrite labels_app, (labels_plain _ Hplain), Hlab. reflexivity.
Qed.

Lemma lower_body_enough body :
  forall loopBody r,
    lower_body body loopBody = Ok r -> Forall enough loopBody -> Forall enough r.
Proof.
  induction body as [| inner body IH]; intros loopBody r H Hb; cbn [lower_body] in H.
  - inversion H; subst. exact Hb.
  - bind_inv H as b Hinner. apply (IH _ _ H).
    destruct inner; cbn [lower_inner] in Hinner; try (inversion Hinner; subst; exact Hb).
    bind_inv Hinner as value Hvalue. inversion Hinner; subst.
    apply Forall_app. split; [exact Hb |].
    repeat constructor.
Qed.

Lemma binary_op_reads o : operands_read (binary_op o) = 2%nat.
Proof. unfold binary_op. repeat case_bool_decide; reflexivity. Qed.

Lemma lower_stmt_enough acc stmt acc' :
  lower_stmt acc stmt = Ok acc' -> enough_blocks acc -> enough_blocks acc'.
Proof.
  destruct acc as [entry bs]. intros H [He Hb]. cbn [fst snd] in He, Hb.
  destruct stmt as [v | l o r | name type init | start end_ body]; cbn [lower_stmt] in H.
  - inversion H; subst. split; assumption.
  - inversion H; subst. split; assumption.
  - destruct (bool_decide (type = "int")); [| discriminate H].
    assert (Halloc : Forall enough (entry ++ [ {| op := Alloc; args := [name] |} ])).
    { apply Forall_app. split; [exact He | repeat constructor]. }
    destruct init as [[v | l o r | |] |]; cbn in H; try discriminate H;
      inversion H; subst; (split; [| exact Hb]); cbn [fst];
      (apply Forall_app; split; [exact Halloc |]).
    + repeat constructor.
    + constructor; [unfold enough; simpl; lia |].
      constructor; [| constructor]. unfold enough. cbn [op args].
      rewrite binary_op_reads. simpl. lia.
  - bind_inv H as from Hfrom. bind_inv H as bound Hbound. bind_inv H as loopBody Hbody.
    inversion H; subst. split; cbn [fst snd].
    + repeat (apply Forall_app; split); try exact He; repeat constructor.
    + apply Forall_app. split; [exact Hb |].
      constructor; [repeat constructor; unfold enough; simpl; lia |].
      constructor; [| repeat constructor].
      cbn [instrs]. apply Forall_app. split; [| repeat constructor; unfold enough; simpl; lia].
      eapply lower_body_enough; [exact Hbody | constructor].
Qed.

Lemma lower_stmts_enough stmts :
  forall acc acc', lower_stmts stmts acc = Ok acc' -> enough_blocks acc -> enough_blocks acc'.
Proof.
  induction stmts as [| stmt stmts IH]; intros acc acc' H Hacc; cbn [lower_stmts] in H.
  - inversion H; subst. exact Hacc.
  - bind_inv H as acc1 Hacc1. eapply IH; [exact H |]. eapply lower_stmt_enough; eassumption.
Qed.

Lemma generate_lowered (program : ASTProgram) (fn : IRFunction) :
  lower program = Ok fn ->
  exists body,
    generate fn = Ok (emitPrologue ++ body ++ emitEpilogue)
    /\ (x_unimplemented ∉ body)
    /\ labels body = map bb_name (blocks fn).
Proof.
  unfold lower. intros H. bind_inv H as r Hr. inversion H; subst. clear H.
  destruct (lower_stmts_enough _ _ _ Hr) as [He Hb]; [split; constructor |].
  destruct (emitBlocks_enough (snd r ++ [ {| bb_name := "entry"; instrs := fst r |} ]))
    as (body & Hbody & Hno & Hlab).
  { apply Forall_app. split; [exact Hb | repeat constructor; exact He]. }
  exists body. unfold generate. cbn [blocks]. rewrite Hbody. repeat split; assumption.
Qed.

Lemma at_index_nth (v : list string) i :
  (i < length v)%nat -> at_index v i = Ok (nth i v "").
Proof.
  intros Hi. unfold at_index.
  destruct (lookup_lt_is_Some_2 v i Hi) as [a Ha]. rewrite Ha.
  f_equal. symmetry. apply nth_lookup_Some with (d := "") in Ha. exact Ha.
Qed.

Lemma emitInstr_lines instr : enough instr -> emitInstr instr = Ok (lines_of instr).
Proof.
  unfold enough, emitInstr, lines_of. intros H.
  destruct (op instr); simpl in H;
    rewrite ?(at_index_nth (args instr) 0), ?(at_index_nth (args instr) 1),
            ?(at_index_nth (args instr) 2) by lia;
    reflexivity.
Qed.

Lemma emitInstrs_lines ins :
  Forall enough ins -> emitInstrs ins = Ok (flat_map lines_of ins).
Proof.
  induction 1 as [| instr ins Hinstr _ IH]; [reflexivity |].
  cbn [emitInstrs flat_map]. rewrite (emitInstr_lines instr Hinstr), bind_Ok_l, IH.
  reflexivity.
Qed.

Lemma emitBlocks_lines bs :
  Forall (fun b => Forall enough (instrs b)) bs ->
  emitBlocks bs = Ok (flat_map block_lines bs).
Proof.
  induction 1 as [| b bs Hb _ IH]; [reflexivity |].
  cbn [emitBlocks flat_map]. rewrite (emitInstrs_lines _ Hb), bind_Ok_l, IH.
  reflexivity.
Qed.

Lemma lines_of_plain instr : Forall plain (lines_of instr).
Proof. unfold lines_of. destruct (op instr); repeat constructor. Qed.

Lemma flat_map_lines_plain ins : Forall plain (flat_map lines_of ins).
Proof.
  induction ins as [| instr ins IH]; [constructor |].
  cbn [flat_map]. apply Forall_app. split; [apply lines_of_plain | exact IH].
Qed.

Lemma blocks_lines_shape bs :
  (x_unimplemented ∉ flat_map block_lines bs)
  /\ labels (flat_map block_lines bs) = map bb_name bs.
Proof.
  induction bs as [| b bs [Hno Hlab]]; [split; [apply not_elem_of_nil | reflexivity] |].
  cbn [flat_map]. unfold block_lines at 1 3. cbn [app]. split.
  - intros Hin.
    apply elem_of_cons in Hin as [Heq | Hin]; [discriminate Heq |].
    apply elem_of_app in Hin as [Hin | Hin]; [| exact (Hno Hin)].
    exact (plain_not_placeholder _ (flat_map_lines_plain _) Hin).
  - cbn [labels map].
    rewrite labels_app, (labels_plain _ (flat_map_lines_plain _)), Hlab. reflexivity.
Qed.

(** X17: the emitter accepts whatever lowering produces, and what it
    prints is the listing of the function.  For a lowered function it reads
    no operand that an instruction lacks, and prints the prologue, then for
    each block in order its label followed by the lines of its
    instructions in order, then the epilogue; the labels are the block
    names in order, and the placeholder for an unimplemented opcode never
    appears. *)
Theorem X17_generate_accepts_lowered (program : ASTProgram) (fn : IRFunction) :
  lower program = Ok fn ->
  generate fn = Ok (listing fn)
  /\ (x_unimplemented ∉ listing fn)
  /\ labels (listing fn) = map bb_name (blocks fn).
Proof.
  unfold lower. intros H. bind_inv H as r Hr. inversion H; subst. clear H.
  destruct (lower_stmts_enough _ _ _ Hr) as [He Hb]; [split; constructor |].
  destruct (blocks_lines_shape (snd r ++ [ {| bb_name := "entry"; instrs := fst r |} ]))
    as [Hno Hlab].
  unfold generate, listing. cbn [blocks]. rewrite emitBlocks_lines.
  - split; [reflexivity |]. split.
    + intros Hin. apply elem_of_app in Hin as [Hin | Hin].
      { repeat (apply elem_of_cons in Hin as [Hin | Hin]; [discriminate Hin |]).
        inversion Hin. }
      apply elem_of_app in Hin as [Hin | Hin]; [exact (Hno Hin) |].
      repeat (apply elem_of_cons in Hin as [Hin | Hin]; [discriminate Hin |]).
      inversion Hin.
    + rewrite !labels_app, Hlab. cbn. rewrite app_nil_r. reflexivity.
  - apply Forall_app. split; [exact Hb | repeat constructor; exact He].
Qed.

Lemma X17_witness :
  exists fn,
    lower loop_0_to_5 = Ok fn
    /\ generate fn = Ok loop_0_to_5_asm.
Proof.
  destruct (lower loop_0_to_5) as [fn | | | |] eqn:Hfn;
    try (vm_compute in Hfn; discriminate Hfn).
  destruct (X17_generate_accepts_lowered loop_0_to_5 fn Hfn) as (Hgen & _ & _).
  exists fn. split; [reflexivity |]. rewrite Hgen.
  vm_compute in Hfn. inversion Hfn; subst fn. reflexivity.
Defined.

Lemma lower_stmt_names acc stmt acc' :
  lower_stmt acc stmt = Ok acc' ->
  map bb_name (snd acc') = map bb_name (snd acc) ++ loop_labels stmt.
Proof.
  destruct acc as [entry bs]. intros H.
  destruct stmt as [v | l o r | name type init | start end_ body]; cbn [lower_stmt] in H.
  - inversion H; subst. cbn. rewrite app_nil_r. reflexivity.
  - inversion H; subst. cbn. rewrite app_nil_r. reflexivity.
  - destruct (bool_decide (type = "int")); [| discriminate H].
    destruct init as [[v | l o r | |] |]; cbn in H; try discriminate H;
      inversion H; subst; cbn; rewrite app_nil_r; reflexivity.
  - bind_inv H as from Hfrom. bind_inv H as bound Hbound. bind_inv H as loopBody Hbody.
    inversion H; subst. cbn [snd loop_labels]. rewrite map_app. reflexivity.
Qed.

Lemma lower_stmts_names stmts :
  forall acc acc', lower_stmts stmts acc = Ok acc' ->
    map bb_name (snd acc') = map bb_name (snd acc) ++ concat (map loop_labels stmts).
Proof.
  induction stmts as [| stmt stmts IH]; intros acc acc' H; cbn [lower_stmts] in H.
  - inversion H; subst. cbn. rewrite app_nil_r. reflexivity.
  - bind_inv H as acc1 Hacc1. rewrite (IH _ _ H), (lower_stmt_names _ _ _ Hacc1).
    cbn [map concat]. rewrite app_assoc. reflexivity.
Qed.

(** X18: lowering pushes the three blocks [loop_cond], [loop_body] and
    [loop_end] for every loop, in the order of the loops, and the block
    [entry] last of all.  A program with two loops therefore has each of
    the three names on two blocks, and every jump to one of them is
    ambiguous. *)
Theorem X18_block_names (program : ASTProgram) (fn : IRFunction) :
  lower program = Ok fn ->
  map bb_name (blocks fn) = concat (map loop_labels (statements program)) ++ ["entry"]
  /\ (forall before s1 e1 b1 between s2 e2 b2 after,
        statements program =
          before ++ ASTLoop s1 e1 b1 :: between ++ ASTLoop s2 e2 b2 :: after ->
        ~ NoDup (map bb_name (blocks fn))).
Proof.
  unfold lower. intros H. bind_inv H as r Hr. inversion H; subst. clear H.
  cbn [blocks]. rewrite map_app, (lower_stmts_names _ _ _ Hr). cbn [map snd app bb_name].
  split; [reflexivity |].
  intros before s1 e1 b1 between s2 e2 b2 after Hst Hnodup. rewrite Hst in Hnodup.
  rewrite map_app, concat_app in Hnodup. cbn [map concat loop_labels] in Hnodup.
  rewrite map_app, concat_app in Hnodup. cbn [map concat loop_labels] in Hnodup.
  rewrite <- !app_assoc in Hnodup.
  apply NoDup_app in Hnodup as (_ & _ & Hnodup).
  cbn [app] in Hnodup. apply NoDup_cons in Hnodup as [Hnot _].
  apply Hnot. do 2 right. apply elem_of_app. right. apply list_elem_of_here.
Qed.

Lemma X18_witness :
  exists fn,
    lower {| statements := [ ASTLoop (Some (ASTLiteral "0")) (Some (ASTLiteral "2")) [];
                             ASTLoop (Some (ASTLiteral "1")) (Some (ASTLiteral "3")) [] ] |}
      = Ok fn
    /\ map bb_name (blocks fn) =
         ["loop_cond"; "loop_body"; "loop_end"; "loop_cond"; "loop_body"; "loop_end"; "entry"]
    /\ ~ NoDup (map bb_name (blocks fn)).
Proof.
  pose (program := {| statements :=
          [ ASTLoop (Some (ASTLiteral "0")) (Some (ASTLiteral "2")) [];
            ASTLoop (Some (ASTLiteral "1")) (Some (ASTLiteral "3")) [] ] |}).
  destruct (lower program) as [fn | | | |] eqn:Hfn; try discriminate Hfn.
  exists fn. split; [exact Hfn |].
  destruct (X18_block_names program fn Hfn) as [Hnames Hdup].
  split; [exact Hnames |].
  exact (Hdup [] _ _ _ [] _ _ _ [] eq_refl).
Defined.

Lemma lower_body_outcome body :
  forall loopBody,
    (exists r, lower_body body loopBody = Ok r) \/ lower_body body loopBody = Undefined.
Proof.
  induction body as [| inner body IH]; intros loopBody; cbn [lower_body]; [eauto |].
  destruct inner as [v | l o r | name type init | start end_ b]; cbn [lower_inner];
    rewrite ?bind_Ok_l; try apply IH.
  destruct init as [[] |]; cbn; auto.
Qed.

Lemma lower_stmt_outcome acc stmt :
  (exists acc', lower_stmt acc stmt = Ok acc')
  \/ lower_stmt acc stmt = Undefined
  \/ lower_stmt acc stmt = Exit 1 type_error.
Proof.
  destruct acc as [entry bs].
  destruct stmt as [v | l o r | name type init | start end_ body]; cbn [lower_stmt]; eauto.
  - destruct (bool_decide (type = "int")); [| auto].
    destruct init as [[] |]; cbn; eauto.
  - destruct start as [[] |]; cbn; auto.
    destruct end_ as [[] |]; cbn; auto.
    destruct (lower_body_outcome body []) as [[r ->] | ->]; cbn; eauto.
Qed.

Lemma lower_stmts_outcome stmts :
  forall acc,
    (exists acc', lower_stmts stmts acc = Ok acc')
    \/ lower_stmts stmts acc = Undefined
    \/ lower_stmts stmts acc = Exit 1 type_error.
Proof.
  induction stmts as [| stmt stmts IH]; intros acc; cbn [lower_stmts]; [eauto |].
  destruct (lower_stmt_outcome acc stmt) as [[acc' ->] | [-> | ->]];
    [rewrite bind_Ok_l; apply IH | right; left; reflexivity | right; right; reflexivity].
Qed.

(** X19: how the driver of the loop pipeline ends.  Without a readable
    file it prints [Error: Could not open source file] and returns 1.  On
    a file it either runs into undefined behaviour, or stops in the type
    check with status 1 and its message, or prints the code between
    prologue and epilogue and returns 0: no source text makes it report an
    error through its [catch]. *)
Theorem X19_main_outcomes :
  main None =
    Ok {| status := 1;
          cerr := "Error: Could not open source file" +:+ newline;
          cout := [] |}
  /\ forall source,
       main (Some source) = Undefined
       \/ main (Some source) = Ok {| status := 1; cerr := type_error; cout := [] |}
       \/ exists body,
            main (Some source) =
              Ok {| status := 0; cerr := ""; cout := emitPrologue ++ body ++ emitEpilogue |}
            /\ (x_unimplemented ∉ body).
Proof.
  split; [reflexivity |]. intros source. unfold main. cbn [loadFile]. rewrite bind_Ok_l.
  destruct (parse_total source) as [ast ->]. rewrite bind_Ok_l.
  destruct (lower ast) as [fn | | | |] eqn:Hlower.
  - rewrite bind_Ok_l. destruct (generate_lowered ast fn Hlower) as (body & -> & Hno & _).
    do 2 right. exists body. split; [reflexivity | exact Hno].
  - exfalso. unfold lower in Hlower.
    destruct (lower_stmts_outcome (statements ast) ([], [])) as [[r Hr] | [Hr | Hr]];
      rewrite Hr in Hlower; discriminate Hlower.
  - left. reflexivity.
  - right. left. unfold lower in Hlower.
    destruct (lower_stmts_outcome (statements ast) ([], [])) as [[r Hr] | [Hr | Hr]];
      rewrite Hr in Hlower; try discriminate Hlower.
    inversion Hlower; subst. reflexivity.
  - exfalso. unfold lower in Hlower.
    destruct (lower_stmts_outcome (statements ast) ([], [])) as [[r Hr] | [Hr | Hr]];
      rewrite Hr in Hlower; discriminate Hlower.
Qed.

End MinimalProps.

(** ** Across the two pipelines *)

(** C4, as stated, fails in the function pipeline: its [lower] never looks
    at the declared type, and [val x as string: 5] is lowered like any other
    declaration. *)
Lemma C4_counterexample_function_pipeline :
  exists mainFn,
    Quarterc.functions
      (Quarterc.lower
         (Quarterc.program_of
            [Quarterc.ASTValDecl "x" "string" (Some (Quarterc.ASTLiteral "5"))]))
      !! "_main" = Some mainFn
    /\ Quarterc.all_instrs mainFn =
         [ {| Quarterc.op := Quarterc.Alloc; Quarterc.args := ["x"; "0"] |};
           {| Quarterc.op := Quarterc.Store; Quarterc.args := ["x"; "5"] |} ].
Proof. eexists. split; vm_compute; reflexivity. Qed.

(** C3: the opcode that lowering picks for a binary initializer.  The loop
    pipeline stores the left operand and then applies [Add] for [+], [Sub]
    for [-] and [Add] again for anything else; the function pipeline emits
    [Add] with both operands whatever the operator.  [*] and [/] never give
    [Mul] or [Div]. *)
Theorem C3_binary_initializer_opcode :
  (forall x l o r,
      Minimal.lower
        {| Minimal.statements :=
             [Minimal.ASTValDecl x "int" (Some (Minimal.ASTBinary l o r))] |}
      = Ok {| Minimal.fn_name := "_main";
              Minimal.blocks :=
                [ {| Minimal.bb_name := "entry";
                     Minimal.instrs :=
                       [ {| Minimal.op := Minimal.Alloc; Minimal.args := [x] |};
                         {| Minimal.op := Minimal.Store; Minimal.args := [x; l] |};
                         {| Minimal.op := Minimal.binary_op o;
                            Minimal.args := [x; r] |} ] |} ] |})
  /\ Minimal.binary_op "+" = Minimal.Add
  /\ Minimal.binary_op "-" = Minimal.Sub
  /\ Minimal.binary_op "*" = Minimal.Add
  /\ Minimal.binary_op "/" = Minimal.Add
  /\ (forall x l o r acc,
        snd (Quarterc.lowerFunction_stmt acc
               (Quarterc.ASTValDecl x "int" (Some (Quarterc.ASTBinary l o r))))
        = (snd acc
             ++ [ {| Quarterc.op := Quarterc.Alloc;
                     Quarterc.args := [x; to_string (Quarterc.stackSize (fst acc))] |} ])
             ++ [ {| Quarterc.op := Quarterc.Add; Quarterc.args := [x; l; r] |} ])
  /\ (exists fn,
        Quarterc.functions
          (Quarterc.lower
             (Quarterc.program_of
                [Quarterc.ASTFunction "f" []
                   [Quarterc.ASTValDecl "x" "int"
                      (Some (Quarterc.ASTBinary "a" "*" "b"))]]))
          !! "f" = Some fn
        /\ Quarterc.all_instrs fn =
             [ {| Quarterc.op := Quarterc.Alloc; Quarterc.args := ["x"; "0"] |};
               {| Quarterc.op := Quarterc.Add; Quarterc.args := ["x"; "a"; "b"] |} ]).
Proof.
  split; [intros x l o r; reflexivity |].
  do 4 (split; [reflexivity |]).
  split; [intros x l o r [fn entry]; reflexivity |].
  eexists. split; vm_compute; reflexivity.
Qed.

(** ** The module library *)

Module ToolchainProps.
Import Toolchain.

Lemma in_int_spec z : in_int z = true <-> INT_MIN <= z <= INT_MAX.
Proof. unfold in_int. lia. Qed.

Lemma int_result_Ok z : in_int z = true -> int_result z = Ok z.
Proof. unfold int_result. intros ->. reflexivity. Qed.

Lemma int_result_Undefined z : in_int z = false -> int_result z = Undefined.
Proof. unfold int_result. intros ->. reflexivity. Qed.

(** *** [clamp] *)

(** X20: with [mn <= mx], [clamp] gives a value between [mn] and [mx]
    and leaves a value already between them alone; it is idempotent and
    monotone, and [RangeAdjuster::clamp] and [StandardLib::clamp] are the
    same function. *)
Theorem X20_clamp_within (x mn mx : Z) :
  mn <= mx ->
  mn <= StandardLib.clamp x mn mx <= mx
  /\ (mn <= x <= mx -> StandardLib.clamp x mn mx = x)
  /\ StandardLib.clamp (StandardLib.clamp x mn mx) mn mx = StandardLib.clamp x mn mx
  /\ (forall x', x <= x' -> StandardLib.clamp x mn mx <= StandardLib.clamp x' mn mx)
  /\ RangeAdjuster.clamp x mn mx = StandardLib.clamp x mn mx.
Proof.
  intros Hle. unfold StandardLib.clamp, RangeAdjuster.clamp.
  repeat split; try intros; rewrite ?Z.gtb_ltb;
    repeat match goal with
           | |- context [?a <? ?b] => destruct (Z.ltb_spec a b)
           end; lia.
Qed.

Lemma X20_witness :
  0 <= 10 /\ StandardLib.clamp 17 0 10 = 10 /\ StandardLib.clamp (-3) 0 10 = 0.
Proof.
  split; [lia |]. split; [| reflexivity].
  apply Z.le_antisymm; [| reflexivity].
  apply (X20_clamp_within 17 0 10). lia.
Defined.

(** *** [div] and [mod] *)

Lemma quot_in_int x y :
  in_int x = true -> y <> 0 -> ~ (x = INT_MIN /\ y = -1) -> in_int (Z.quot x y) = true.
Proof.
  rewrite !in_int_spec. unfold INT_MIN, INT_MAX. intros Hx Hy Hnot.
  assert (Habs : Z.abs (Z.quot x y) <= Z.abs x).
  { rewrite <- Z.quot_abs by exact Hy.
    rewrite Z.quot_div_nonneg by lia.
    apply Z.div_le_upper_bound; [lia |]. nia. }
  assert (Hbig : Z.quot x y = 2 ^ 31 -> False).
  { intros Hq. assert (Hx' : x = - 2 ^ 31) by lia.
    pose proof (Z.quot_rem' x y) as Hqr.
    pose proof (Z.rem_bound_abs x y Hy) as Hr.
    rewrite Hq in Hqr. subst x.
    assert (Hy1 : Z.abs y <= 1) by nia.
    assert (y = 1 \/ y = -1) as [-> | ->] by lia.
    - rewrite Z.quot_1_r in Hq. lia.
    - apply Hnot. split; reflexivity. }
  lia.
Qed.

(** X21: [div] and [mod] are undefined for the divisor 0 and for
    [INT_MIN] by -1, and defined otherwise; then the quotient [q] and the
    remainder [r] satisfy [x = q * y + r], the remainder is smaller than
    the divisor in absolute value and has the sign of [x]. *)
Theorem X21_div_mod (x y : Z) :
  in_int x = true ->
  (y = 0 \/ (x = INT_MIN /\ y = -1) ->
     StandardLib.div x y = Undefined /\ StandardLib.mod_ x y = Undefined)
  /\ (y <> 0 -> ~ (x = INT_MIN /\ y = -1) ->
      exists q r,
        StandardLib.div x y = Ok q /\ StandardLib.mod_ x y = Ok r
        /\ x = q * y + r /\ Z.abs r < Z.abs y
        /\ (0 <= x -> 0 <= r) /\ (x <= 0 -> r <= 0)).
Proof.
  intros Hx. unfold StandardLib.div, StandardLib.mod_. split.
  - intros [-> | [-> ->]]; [split; reflexivity |]. split; reflexivity.
  - intros Hy Hnot. apply Z.eqb_neq in Hy as Hy0. rewrite Hy0.
    rewrite (int_result_Ok _ (quot_in_int x y Hx Hy Hnot)), (quot_in_int x y Hx Hy Hnot).
    exists (Z.quot x y), (Z.rem x y). split; [reflexivity |]. split; [reflexivity |].
    split; [rewrite (Z.quot_rem' x y) at 1; lia |].
    split; [apply Z.rem_bound_abs; exact Hy |].
    split; [intros H; apply Z.rem_nonneg; assumption | intros H; apply Z.rem_nonpos; assumption].
Qed.

Lemma X21_witness :
  in_int (-7) = true /\ StandardLib.div (-7) 2 = Ok (-3) /\ StandardLib.mod_ (-7) 2 = Ok (-1)
  /\ StandardLib.div INT_MIN (-1) = Undefined.
Proof.
  split; [reflexivity |]. split; [reflexivity |]. split; [reflexivity |].
  apply (X21_div_mod INT_MIN (-1)); [reflexivity |]. right. split; reflexivity.
Defined.

(** *** [factorial] *)

Lemma factorial_within_more fuel :
  forall x v extra,
    StandardLib.factorial_within fuel x = Ok v ->
    StandardLib.factorial_within (fuel + extra) x = Ok v.
Proof.
  induction fuel as [| fuel IH]; intros x v extra H; [discriminate H |].
  cbn [StandardLib.factorial_within Nat.add] in *.
  destruct (x <=? 1); [exact H |].
  bind_inv H as r Hr. rewrite (IH _ _ extra Hr), bind_Ok_l. exact H.
Qed.

Lemma factorial_of_fact n : StandardLib.factorial_of n = Z.of_nat (fact n).
Proof.
  induction n as [| n IH]; [reflexivity |].
  cbn [StandardLib.factorial_of fact]. rewrite IH, <- Nat2Z.inj_mul. reflexivity.
Qed.

Lemma factorial_within_small fuel x :
  x <= 12 -> (Z.to_nat x < fuel)%nat ->
  StandardLib.factorial_within fuel x = Ok (StandardLib.factorial_of (Z.to_nat x)).
Proof.
  intros Hx Hfuel.
  assert (Hsmall : StandardLib.factorial_within (S (Z.to_nat x)) x
                   = Ok (StandardLib.factorial_of (Z.to_nat x))).
  { destruct (Z.le_gt_cases x 1) as [H1 | H1].
    - cbn [StandardLib.factorial_within]. rewrite (proj2 (Z.leb_le x 1) H1).
      assert (Z.to_nat x = 0%nat \/ Z.to_nat x = 1%nat) as [-> | ->] by lia; reflexivity.
    - assert (Hcases : x = 2 \/ x = 3 \/ x = 4 \/ x = 5 \/ x = 6 \/ x = 7 \/ x = 8
                       \/ x = 9 \/ x = 10 \/ x = 11 \/ x = 12) by lia.
      repeat (destruct Hcases as [-> | Hcases]; [vm_compute; reflexivity |]).
      subst x. vm_compute. reflexivity. }
  replace fuel with (S (Z.to_nat x) + (fuel - S (Z.to_nat x)))%nat by lia.
  apply factorial_within_more. exact Hsmall.
Qed.

Lemma factorial_within_large fuel :
  forall x, 13 <= x -> (Z.to_nat x < fuel)%nat ->
            StandardLib.factorial_within fuel x = Undefined.
Proof.
  induction fuel as [| fuel IH]; intros x Hx Hfuel; [lia |].
  cbn [StandardLib.factorial_within].
  rewrite (proj2 (Z.leb_gt x 1)) by lia.
  destruct (Z.eq_dec x 13) as [-> | Hne].
  - change (Z.to_nat 13) with 13%nat in Hfuel. change (13 - 1) with 12.
    rewrite (factorial_within_small fuel 12);
      [reflexivity | lia | change (Z.to_nat 12) with 12%nat; lia].
  - rewrite IH by lia. reflexivity.
Qed.

(** X22: [factorial x] is [x!] for every [x] up to 12 (1 for [x] below
    2, negative ones included) and undefined from 13 on, where the product
    no longer fits [int]. *)
Theorem X22_factorial_fits_up_to_12 (x : Z) :
  (x <= 12 -> StandardLib.factorial x = Ok (Z.of_nat (fact (Z.to_nat x))))
  /\ (13 <= x -> StandardLib.factorial x = Undefined).
Proof.
  unfold StandardLib.factorial. split; intros Hx.
  - rewrite <- factorial_of_fact. apply factorial_within_small; [exact Hx | lia].
  - apply factorial_within_large; [exact Hx | lia].
Qed.

(** *** [pow] *)

Lemma pow_prefix_in_int x (k n : nat) :
  (k <= n)%nat -> in_int (x ^ Z.of_nat n) = true -> in_int (x ^ Z.of_nat k) = true.
Proof.
  intros Hk. destruct (Nat.eq_dec k n) as [-> | Hne]; [auto |].
  rewrite !in_int_spec. unfold INT_MIN, INT_MAX. intros Hn.
  assert (Habs : Z.abs (x ^ Z.of_nat n) <= 2 ^ 31) by lia.
  rewrite Z.abs_pow in Habs.
  cut (Z.abs x ^ Z.of_nat k <= 2 ^ 30).
  { rewrite <- Z.abs_pow. lia. }
  destruct (Z.le_gt_cases (Z.abs x) 1) as [Hx | Hx].
  - transitivity (1 ^ Z.of_nat k); [apply Z.pow_le_mono_l; lia |].
    rewrite Z.pow_1_l by lia. lia.
  - replace (Z.of_nat n) with (Z.of_nat k + Z.of_nat (n - k)) in Habs by lia.
    rewrite Z.pow_add_r in Habs by lia.
    assert (H2 : 2 <= Z.abs x ^ Z.of_nat (n - k)).
    { transitivity (Z.abs x ^ 1); [rewrite Z.pow_1_r; lia |].
      apply Z.pow_le_mono_r; lia. }
    assert (H0 : 0 <= Z.abs x ^ Z.of_nat k) by (apply Z.pow_nonneg; lia).
    nia.
Qed.

Lemma pow_loop_Ok n :
  forall x r,
    (forall k, (1 <= k <= n)%nat -> in_int (r * x ^ Z.of_nat k) = true) ->
    StandardLib.pow_loop n x r = Ok (r * x ^ Z.of_nat n).
Proof.
  induction n as [| n IH]; intros x r Hall; cbn [StandardLib.pow_loop].
  - f_equal. change (Z.of_nat 0) with 0. lia.
  - pose proof (Hall 1%nat ltac:(lia)) as H1. change (Z.of_nat 1) with 1 in H1.
    rewrite Z.pow_1_r in H1. rewrite (int_result_Ok _ H1), bind_Ok_l.
    rewrite IH.
    + f_equal. rewrite Nat2Z.inj_succ, Z.pow_succ_r by lia. lia.
    + intros k Hk. specialize (Hall (S k) ltac:(lia)).
      rewrite Nat2Z.inj_succ, Z.pow_succ_r in Hall by lia.
      rewrite <- Hall. f_equal. lia.
Qed.

Lemma pow_loop_Undefined n :
  forall x r,
    in_int r = true -> in_int (r * x ^ Z.of_nat n) = false ->
    StandardLib.pow_loop n x r = Undefined.
Proof.
  induction n as [| n IH]; intros x r Hr Hn; cbn [StandardLib.pow_loop].
  - change (Z.of_nat 0) with 0 in Hn. rewrite Z.pow_0_r, Z.mul_1_r in Hn. congruence.
  - destruct (in_int (r * x)) eqn:Hrx.
    + rewrite (int_result_Ok _ Hrx), bind_Ok_l. apply IH; [exact Hrx |].
      rewrite <- Hn. f_equal. rewrite Nat2Z.inj_succ, Z.pow_succ_r by lia. lia.
    + rewrite (int_result_Undefined _ Hrx). reflexivity.
Qed.

(** X23: [pow x y] is 1 for [y <= 0]; for [y >= 0] it is [x ^ y] when
    that fits [int], and undefined otherwise: no intermediate product
    overflows unless the result does. *)
Theorem X23_pow (x y : Z) :
  (y <= 0 -> StandardLib.pow x y = Ok 1)
  /\ (0 <= y ->
      StandardLib.pow x y = if in_int (x ^ y) then Ok (x ^ y) else Undefined).
Proof.
  unfold StandardLib.pow. split; intros Hy.
  - replace (Z.to_nat y) with 0%nat by lia. reflexivity.
  - assert (Hpow : forall n,
              StandardLib.pow_loop n x 1 =
                if in_int (x ^ Z.of_nat n) then Ok (x ^ Z.of_nat n) else Undefined).
    { intros n. destruct (in_int (x ^ Z.of_nat n)) eqn:Hfit.
      - rewrite pow_loop_Ok; [f_equal; lia |].
        intros k Hk. rewrite Z.mul_1_l.
        apply (pow_prefix_in_int x k n); [lia | exact Hfit].
      - apply pow_loop_Undefined; [reflexivity |]. rewrite Z.mul_1_l. exact Hfit. }
    rewrite Hpow, Z2Nat.id by exact Hy. reflexivity.
Qed.

(** *** [abs], [is_even], [min], [max] *)

(** X24: [abs] is the absolute value and undefined on [INT_MIN] alone;
    [is_even] answers 1 exactly on the even numbers, negative ones
    included; [min] and [max] are the smaller and the larger of their
    arguments. *)
Theorem X24_small_builtins (x y : Z) :
  (in_int x = true ->
     StandardLib.abs x = if x =? INT_MIN then Undefined else Ok (Z.abs x))
  /\ (StandardLib.is_even x = 1 <-> Z.even x = true)
  /\ (StandardLib.is_even x = 0 <-> Z.even x = false)
  /\ StandardLib.min x y = Z.min x y
  /\ StandardLib.max x y = Z.max x y.
Proof.
  split; [| split; [| split; [| split]]].
  - rewrite in_int_spec. unfold INT_MIN, INT_MAX. intros Hx. unfold StandardLib.abs.
    destruct (Z.ltb_spec x 0) as [Hneg | Hpos].
    + destruct (Z.eqb_spec x (- 2 ^ 31)) as [-> | Hne]; [reflexivity |].
      rewrite int_result_Ok by (apply in_int_spec; unfold INT_MIN, INT_MAX; lia).
      f_equal. lia.
    + destruct (Z.eqb_spec x (- 2 ^ 31)) as [-> | Hne]; [lia |]. f_equal. lia.
  - unfold StandardLib.is_even. rewrite Zeven_mod.
    pose proof (Z.rem_mod_eq_0 x 2 ltac:(lia)) as Hrem.
    destruct (Z.eqb_spec (Z.rem x 2) 0) as [H0 | H0];
      destruct (Z.eqb_spec (x mod 2) 0) as [H1 | H1]; split; intros H;
      first [reflexivity | discriminate H | tauto].
  - unfold StandardLib.is_even. rewrite Zeven_mod.
    pose proof (Z.rem_mod_eq_0 x 2 ltac:(lia)) as Hrem.
    destruct (Z.eqb_spec (Z.rem x 2) 0) as [H0 | H0];
      destruct (Z.eqb_spec (x mod 2) 0) as [H1 | H1]; split; intros H;
      first [reflexivity | discriminate H | tauto].
  - unfold StandardLib.min. destruct (Z.ltb_spec x y); lia.
  - unfold StandardLib.max. rewrite Z.gtb_ltb. destruct (Z.ltb_spec y x); lia.
Qed.

(** *** The lexer *)

Lemma append_cons c (a b : string) : String c a +:+ b = String c (a +:+ b).
Proof. reflexivity. Qed.

Lemma append_assoc (a b c : string) : (a +:+ b) +:+ c = a +:+ (b +:+ c).
Proof.
  induction a as [| x a IH]; [reflexivity |].
  rewrite !append_cons, IH. reflexivity.
Qed.

Lemma append_nil_r (a : string) : a +:+ "" = a.
Proof.
  induction a as [| x a IH]; [reflexivity |].
  rewrite append_cons, IH. reflexivity.
Qed.

Lemma span_spec p s :
  fst (Lexer.span p s) +:+ snd (Lexer.span p s) = s
  /\ all_chars p (fst (Lexer.span p s)) = true
  /\ (String.length (snd (Lexer.span p s)) <= String.length s)%nat.
Proof.
  induction s as [| c s (IH1 & IH2 & IH3)]; cbn [Lexer.span]; [repeat split; reflexivity |].
  destruct (p c) eqn:Hc; [| repeat split; reflexivity].
  destruct (Lexer.span p s) as [w r]. cbn [fst snd] in *.
  split; [rewrite append_cons, IH1; reflexivity |].
  split; [simpl; rewrite Hc, IH2; reflexivity | simpl; lia].
Qed.

Lemma span_head p c s :
  p c = true ->
  exists w, fst (Lexer.span p (String c s)) = String c w
            /\ (String.length (snd (Lexer.span p (String c s))) <= String.length s)%nat.
Proof.
  intros Hc. cbn [Lexer.span]. rewrite Hc.
  pose proof (span_spec p s) as (_ & _ & Hlen).
  destruct (Lexer.span p s) as [w r]. cbn [fst snd] in *. eauto.
Qed.

Lemma remove_space_skip s : remove_space (skip_space s) = remove_space s.
Proof.
  induction s as [| c s IH]; [reflexivity |]. simpl.
  destruct (isspace c) eqn:Hc; [exact IH |]. simpl. rewrite Hc. reflexivity.
Qed.

Lemma remove_space_word (p : ascii -> bool) w r :
  (forall c, p c = true -> isspace c = false) ->
  all_chars p w = true -> remove_space (w +:+ r) = w +:+ remove_space r.
Proof.
  intros Hp. induction w as [| c w IH]; intros Hw; [reflexivity |].
  simpl in Hw. apply andb_true_iff in Hw as [Hc Hw].
  rewrite !append_cons. simpl. rewrite (Hp c Hc), (IH Hw). reflexivity.
Qed.

Lemma isdigit_not_space c : isdigit c = true -> isspace c = false.
Proof. unfold isdigit, isspace. lia. Qed.

Lemma isalpha_not_space c : isalpha c = true -> isspace c = false.
Proof. unfold isalpha, isspace. lia. Qed.

Lemma ident_char_not_space c : Lexer.ident_char c = true -> isspace c = false.
Proof.
  unfold Lexer.ident_char, isalnum. intros H.
  apply orb_true_iff in H as [H | H].
  - apply orb_true_iff in H as [H | H];
      [apply isalpha_not_space | apply isdigit_not_space]; exact H.
  - apply bool_decide_eq_true_1 in H. subst c. reflexivity.
Qed.

Lemma text_of_app a b : text_of (a ++ b) = text_of a +:+ text_of b.
Proof.
  induction a as [| t a IH]; [reflexivity |].
  simpl. rewrite IH, append_assoc. reflexivity.
Qed.

Lemma lex_from_spec fuel :
  forall input tokens,
    (String.length input < fuel)%nat -> Forall classified tokens ->
    exists result,
      Lexer.lex_from fuel input tokens = Ok result
      /\ Forall classified result
      /\ text_of result = text_of tokens +:+ remove_space input.
Proof.
  induction fuel as [| fuel IH]; intros input tokens Hfuel Htokens; [lia |].
  cbn [Lexer.lex_from].
  pose proof (skip_space_length input) as Hlen.
  pose proof (skip_space_head input) as Hhead.
  rewrite <- (remove_space_skip input).
  destruct (skip_space input) as [| c rest].
  { exists tokens. simpl. rewrite append_nil_r. repeat split; [exact Htokens]. }
  specialize (Hhead c rest eq_refl). simpl in Hlen.
  destruct (isalpha c) eqn:Halpha; [| destruct (isdigit c) eqn:Hdigit].
  - assert (Hc : Lexer.ident_char c = true).
    { unfold Lexer.ident_char, isalnum. rewrite Halpha. reflexivity. }
    destruct (span_head Lexer.ident_char c rest Hc) as (w' & Hw & Hr).
    pose proof (span_spec Lexer.ident_char (String c rest)) as (Heq & Hall & _).
    destruct (Lexer.span Lexer.ident_char (String c rest)) as [w r]. cbn [fst snd] in *.
    subst w.
    destruct (IH r (tokens ++ [ {| type := "IDENT"; value := String c w' |} ]))
      as (result & Hres & Hclass & Htext); [lia | |].
    { apply Forall_app. split; [exact Htokens |]. constructor; [| constructor].
      left. repeat split; [exact Halpha | exact Hall]. }
    exists result. split; [exact Hres |]. split; [exact Hclass |].
    rewrite Htext, text_of_app, append_assoc. f_equal. cbn [text_of value].
    rewrite append_nil_r, <- Heq.
    rewrite (remove_space_word Lexer.ident_char _ _ ident_char_not_space Hall). reflexivity.
  - destruct (span_head isdigit c rest Hdigit) as (w' & Hw & Hr).
    pose proof (span_spec isdigit (String c rest)) as (Heq & Hall & _).
    destruct (Lexer.span isdigit (String c rest)) as [w r]. cbn [fst snd] in *.
    subst w.
    destruct (IH r (tokens ++ [ {| type := "NUMBER"; value := String c w' |} ]))
      as (result & Hres & Hclass & Htext); [lia | |].
    { apply Forall_app. split; [exact Htokens |]. constructor; [| constructor].
      right. left. repeat split; [discriminate | exact Hall]. }
    exists result. split; [exact Hres |]. split; [exact Hclass |].
    rewrite Htext, text_of_app, append_assoc. f_equal. cbn [text_of value].
    rewrite append_nil_r, <- Heq.
    rewrite (remove_space_word isdigit _ _ isdigit_not_space Hall). reflexivity.
  - destruct (IH rest (tokens ++ [ {| type := "SYM"; value := String c "" |} ]))
      as (result & Hres & Hclass & Htext); [lia | |].
    { apply Forall_app. split; [exact Htokens |]. constructor; [| constructor].
      right. right. split; [reflexivity |]. exists c. repeat split; [exact Hhead |].
      unfold isalnum. rewrite Halpha, Hdigit. reflexivity. }
    exists result. split; [exact Hres |]. split; [exact Hclass |].
    rewrite Htext, text_of_app, append_assoc. f_equal. cbn [text_of value].
    simpl. rewrite Hhead. reflexivity.
Qed.

(** X25: the lexer returns for every input, and each token it returns
    is an [IDENT] that starts with a letter and consists of letters,
    digits and underscores, a [NUMBER] of one or more digits, or a [SYM]
    of exactly one character that is neither white space, nor a letter,
    nor a digit. *)
Theorem X25_lex_classifies (input : string) :
  exists tokens, Lexer.lex input = Ok tokens /\ Forall classified tokens.
Proof.
  destruct (lex_from_spec (S (String.length input)) input []) as (tokens & H & Hc & _);
    [lia | constructor |].
  exists tokens. split; assumption.
Qed.

(** X26: the lexer loses nothing but white space: the values of its
    tokens, one after the other, are the input without its white
    space. *)
Theorem X26_lex_keeps_the_text (input : string) :
  exists tokens, Lexer.lex input = Ok tokens /\ text_of tokens = remove_space input.
Proof.
  destruct (lex_from_spec (S (String.length input)) input []) as (tokens & H & _ & Ht);
    [lia | constructor |].
  exists tokens. split; assumption.
Qed.

(** *** The library table *)

(** X27: the library table gives back what was registered: a name looks
    up the module it was last registered with, registering one name leaves
    the others as they were, and a name that is not in the table raises
    [runtime_error] with [[Error 404]: Library not found: <name>]. *)
Theorem X27_library_table (module : Type) (libs : gmap string module)
    (name : string) (m : module) :
  LibrarySystem.getLibrary module name (LibrarySystem.registerLibrary module name m libs)
    = Ok m
  /\ (forall other, other <> name ->
        LibrarySystem.getLibrary module other
          (LibrarySystem.registerLibrary module name m libs)
        = LibrarySystem.getLibrary module other libs)
  /\ (forall m',
        LibrarySystem.registerLibrary module name m'
          (LibrarySystem.registerLibrary module name m libs)
        = LibrarySystem.registerLibrary module name m' libs)
  /\ (libs !! name = None ->
        LibrarySystem.getLibrary module name libs
        = Throw (runtime_error ("[Error 404]: Library not found: " +:+ name))).
Proof.
  unfold LibrarySystem.getLibrary, LibrarySystem.registerLibrary.
  split; [rewrite lookup_insert_eq; reflexivity |].
  split; [intros other Hne; rewrite lookup_insert_ne by congruence; reflexivity |].
  split; [intros m'; apply insert_insert_eq |].
  intros ->. reflexivity.
Qed.

End ToolchainProps.
